(** * Block-level parsing of the Blackfriday markdown processor

    A shallow embedding of [block.go] and of the driver in the processor
    file ([Markdown], [New], [Parse], [finalize], [addChild],
    [closeUnmatchedBlocks]), followed by the properties of the block parser
    that the specification states.

    Conventions.
    - A Go [[]byte] is a [list ascii]; a Go [int] used as an index or a
      length is a [nat] (every such value is non-negative in the source;
      where the source subtracts, the comparison is rearranged and the
      comment says so).
    - A Go run-time panic raised by an index or a slice expression out of
      range is the [None] of a pure scanner and the error [OutOfRange] of a
      stateful routine.
    - Bit sets ([Extensions], [ListType], [CellAlignFlags]) are [Z] with
      [Z.land], [Z.lor] and [Z.lnot].
    - The tree lives in a heap of nodes addressed by their index; the
      processor state and the heap are threaded through a state and error
      monad. *)

From Stdlib Require Import ZArith Lia Ascii String.
From stdpp Require Import base option list.

Open Scope char_scope.
Open Scope nat_scope.

(** ** Bytes and slices *)

Abbreviation bytes := (list ascii).

Definition NL : ascii := "010".
Definition TAB : ascii := "009".
Definition CR : ascii := "013".

(** [str s] is the byte slice of a string literal; [lines l] terminates each
    element with a newline, which is how the examples write their inputs. *)
Definition str (s : string) : bytes := list_ascii_of_string s.

Fixpoint lines (l : list string) : bytes :=
  match l with
  | [] => []
  | s :: l' => str s ++ NL :: lines l'
  end.

Arguments str s%_string.
Arguments lines l%_string.

(** [data[i]] under a guard [i < len(data)] of the source. *)
Definition get (data : bytes) (i : nat) : ascii := nth i data zero.

(** [data[i]] without a guard: [None] is the panic. *)
Definition idx (data : bytes) (i : nat) : option ascii := data !! i.

(** [data[a:b]]: panics unless [a <= b <= len(data)]. *)
Definition slice (data : bytes) (a b : nat) : option bytes :=
  if (a <=? b) && (b <=? length data) then Some (take (b - a) (drop a data))
  else None.

(** [data[a:]]: panics unless [a <= len(data)]. *)
Definition sliceFrom (data : bytes) (a : nat) : option bytes :=
  if a <=? length data then Some (drop a data) else None.

(** [data[:b]]. *)
Definition sliceTo (data : bytes) (b : nat) : option bytes :=
  if b <=? length data then Some (take b data) else None.

(** [for cond(i) { i++ }] for a condition that is false from [len(data)] on:
    [fuel] is the distance to the end of the buffer. *)
Fixpoint advance (cond : nat -> bool) (fuel i : nat) : nat :=
  match fuel with
  | 0 => i
  | S f => if cond i then advance cond f (S i) else i
  end.

Definition inb (data : bytes) (i : nat) : bool := i <? length data.

(** [for i < len(data) && p(data[i]) { i++ }] *)
Definition skipWhile (p : ascii -> bool) (data : bytes) (i : nat) : nat :=
  advance (fun j => inb data j && p (get data j)) (length data - i) i.

Definition isc (c : ascii) : ascii -> bool := Ascii.eqb c.
Definition notc (c : ascii) (x : ascii) : bool := negb (Ascii.eqb c x).

Arguments isc : simpl never.
Arguments notc : simpl never.
Arguments get : simpl never.
Arguments inb : simpl never.

(** ** Extension and flag constants (processor file, lines 29-74) *)

Open Scope Z_scope.

Definition NoExtensions : Z := 0.
Definition NoIntraEmphasis : Z := Z.shiftl 1 1.
Definition Tables : Z := Z.shiftl 1 2.
Definition Autolink : Z := Z.shiftl 1 3.
Definition Strikethrough : Z := Z.shiftl 1 4.
Definition HardLineBreak : Z := Z.shiftl 1 5.
Definition NoEmptyLineBeforeBlock : Z := Z.shiftl 1 6.
Definition BackslashLineBreak : Z := Z.shiftl 1 7.
Definition DefinitionLists : Z := Z.shiftl 1 8.

Definition MfnStandardExtensions : Z :=
  Z.lor NoIntraEmphasis (Z.lor Tables (Z.lor Strikethrough
    (Z.lor Autolink (Z.lor NoEmptyLineBeforeBlock BackslashLineBreak)))).

Definition ListTypeOrdered : Z := Z.shiftl 1 0.
Definition ListTypeDefinition : Z := Z.shiftl 1 1.
Definition ListTypeTerm : Z := Z.shiftl 1 2.
Definition ListItemContainsBlock : Z := Z.shiftl 1 3.
Definition ListItemBeginningOfList : Z := Z.shiftl 1 4.
Definition ListItemEndOfList : Z := Z.shiftl 1 5.

Definition TableAlignmentLeft : Z := Z.shiftl 1 0.
Definition TableAlignmentRight : Z := Z.shiftl 1 1.
Definition TableAlignmentCenter : Z := Z.lor TableAlignmentLeft TableAlignmentRight.

(** [flags & f != 0] *)
Definition has (flags f : Z) : bool := negb (Z.land flags f =? 0).
(** [flags |= f] and [flags &= ^f] *)
Definition setf (flags f : Z) : Z := Z.lor flags f.
Definition clearf (flags f : Z) : Z := Z.land flags (Z.lnot f).

Close Scope Z_scope.

(** ** Leaf recognizers (block.go) *)

(** [isEmpty]: the loop returns 0 from inside at the first byte that is
    neither a space nor a tab. *)
Fixpoint isEmptyLoop (data : bytes) (fuel i : nat) : option nat :=
  match fuel with
  | 0 => Some i
  | S f =>
      if inb data i && notc NL (get data i) then
        if notc " " (get data i) && notc TAB (get data i) then None
        else isEmptyLoop data f (S i)
      else Some i
  end.

Definition isEmpty (data : bytes) : nat :=
  if length data =? 0 then 0
  else match isEmptyLoop data (length data) 0 with
       | None => 0
       | Some i => if inb data i && isc NL (get data i) then S i else i
       end.

(** [for i < 3 && data[i] == ' ' { i++ }]: the index is not guarded. *)
Fixpoint skip3 (data : bytes) (fuel i : nat) : option nat :=
  match fuel with
  | 0 => Some i
  | S f => c ← idx data i; if isc " " c then skip3 data f (S i) else Some i
  end.

Fixpoint hruleLoop (data : bytes) (c : ascii) (fuel i n : nat) : bool :=
  match fuel with
  | 0 => 3 <=? n
  | S f =>
      if inb data i && notc NL (get data i) then
        if isc c (get data i) then hruleLoop data c f (S i) (S n)
        else if notc " " (get data i) then false
        else hruleLoop data c f (S i) n
      else 3 <=? n
  end.

Definition isHRule (data : bytes) : option bool :=
  i ← skip3 data 3 0;
  c ← idx data i;
  if notc "*" c && notc "-" c && notc "_" c then Some false
  else Some (hruleLoop data c (length data - i) i 0).

(** [for i < 3 && i < len(data) && data[i] == ' ' { i++ }] *)
Definition skip3g (data : bytes) : nat :=
  advance (fun j => (j <? 3) && inb data j && isc " " (get data j)) 3 0.

Definition quotePrefix (data : bytes) : nat :=
  let i := skip3g data in
  if inb data i && isc ">" (get data i) then
    if inb data (i + 1) && isc " " (get data (i + 1)) then i + 2 else i + 1
  else 0.

(** [uliPrefix]: [i >= len(data)-1] is [len(data) <= i+1]. *)
Definition uliPrefix (data : bytes) : nat :=
  let i := skip3g data in
  if length data <=? i + 1 then 0
  else if (notc "*" (get data i) && notc "+" (get data i) && notc "-" (get data i))
          || (notc " " (get data (i + 1)) && notc TAB (get data (i + 1)))
  then 0 else i + 2.

Definition isdigit (c : ascii) : bool :=
  (nat_of_ascii "0" <=? nat_of_ascii c) && (nat_of_ascii c <=? nat_of_ascii "9").

Definition oliPrefix (data : bytes) : nat :=
  let start := skip3g data in
  let i := skipWhile isdigit data start in
  if (start =? i) || (length data <=? i + 1) then 0
  else if notc "." (get data i)
          || negb (isc " " (get data (i + 1)) || isc TAB (get data (i + 1)))
  then 0 else i + 2.

Definition dliPrefix (data : bytes) : nat :=
  if length data <? 2 then 0
  else
    let i := 0 in
    if notc ":" (get data i)
       || negb (isc " " (get data (i + 1)) || isc TAB (get data (i + 1)))
    then 0
    else
      let i := skipWhile (isc " ") data i in
      i + 2.

(** [isBackslashEscaped]: [i-backslashes-1 >= 0] is [backslashes+1 <= i]. *)
Fixpoint backslashRun (data : bytes) (i fuel backslashes : nat) : nat :=
  match fuel with
  | 0 => backslashes
  | S f =>
      if (backslashes + 1 <=? i) && isc "\" (get data (i - backslashes - 1))
      then backslashRun data i f (S backslashes)
      else backslashes
  end.

Definition isBackslashEscaped (data : bytes) (i : nat) : bool :=
  Nat.odd (backslashRun data i i 0).

Definition skipChar (data : bytes) (start : nat) (char : ascii) : nat :=
  skipWhile (isc char) data start.

(** ** The container tree

    Modelled from the spec: the declarations of [Node], [NodeType],
    [NewNode], [canContain], [AppendChild], [Unlink] and [Walk] are not part
    of the two source files; sections 3, 4.1 and 4.2 of the specification
    describe them.  A node owns the ordered list of its children and holds a
    back-reference to its parent; [FirstChild], [LastChild] and [Next] are
    read off the owner's list. *)

Inductive NodeType :=
| Document | BlockQuote | List | Item | Paragraph | HorizontalRule
| Table | TableHead | TableBody | TableRow | TableCell
| InlineNode (kind : nat).

Definition NodeType_eqb (a b : NodeType) : bool :=
  match a, b with
  | Document, Document | BlockQuote, BlockQuote | List, List | Item, Item
  | Paragraph, Paragraph | HorizontalRule, HorizontalRule | Table, Table
  | TableHead, TableHead | TableBody, TableBody | TableRow, TableRow
  | TableCell, TableCell => true
  | InlineNode k, InlineNode k' => k =? k'
  | _, _ => false
  end.

Record Node := mkNode {
  Type_ : NodeType;
  Parent : option nat;
  Children : list nat;
  content : option bytes;      (* [None] is the nil slice *)
  open : bool;
  ListFlags : Z;
  Tight : bool;
  BulletChar : ascii;
  Delimiter : ascii;
  IsHeader : bool;
  Align : Z
}.

(** Modelled from the spec: [NewNode] ("createNode(type) returns a new, open,
    childless node with no parent"). *)
Definition freshNode (typ : NodeType) : Node :=
  {| Type_ := typ; Parent := None; Children := []; content := None;
     open := true; ListFlags := 0%Z; Tight := false; BulletChar := zero;
     Delimiter := zero; IsHeader := false; Align := 0%Z |}.

(** Modelled from the spec: [canContain] ("a List can contain only Item
    children; a Document can contain any top-level block; a Paragraph can
    contain no block children"; the containers of the glossary: Document,
    BlockQuote, List, Item, Table and its substructure). *)
Definition canContain (n t : NodeType) : bool :=
  match n with
  | List => NodeType_eqb t Item
  | Document | BlockQuote | Item => negb (NodeType_eqb t Item)
  | Table => NodeType_eqb t TableHead || NodeType_eqb t TableBody
  | TableHead | TableBody => NodeType_eqb t TableRow
  | TableRow => NodeType_eqb t TableCell
  | _ => false
  end.

(** ** Processor state and the monad of the stateful routines *)

Record Markdown := mkMarkdown {
  extensions : Z;
  nesting : nat;
  maxNesting : nat;
  insideLink : bool;
  doc : option nat;
  tip : option nat;
  oldTip : option nat;
  lastMatchedContainer : option nat;
  allClosed : bool;
  heap : list Node
}.

Inductive error :=
| OutOfRange      (* index or slice bounds out of range *)
| NilDeref        (* field access through a nil node pointer *)
| ClosedParent    (* AppendChild on a node that is not open *)
| OutOfFuel.      (* the loop or the recursion did not finish within the fuel *)

Inductive result (A : Type) :=
| Ok (a : A) (p : Markdown)
| Err (e : error).
Arguments Ok {A} a p.
Arguments Err {A} e.

Definition M (A : Type) : Type := Markdown -> result A.

#[export] Instance M_ret : MRet M := fun A a p => Ok a p.
#[export] Instance M_bind : MBind M := fun A B f m p =>
  match m p with
  | Ok a p' => f a p'
  | Err e => Err e
  end.

Definition fail {A} (e : error) : M A := fun _ => Err e.
Definition gets {A} (f : Markdown -> A) : M A := fun p => Ok (f p) p.
Definition modify (f : Markdown -> Markdown) : M unit := fun p => Ok tt (f p).

(** A pure scanner that may index out of range, run inside a routine. *)
Definition lift {A} (o : option A) : M A :=
  match o with Some a => mret a | None => fail OutOfRange end.

(** Dereference of a node pointer. *)
Definition deref (n : option nat) : M Node := fun p =>
  match n with
  | None => Err NilDeref
  | Some k => match heap p !! k with
              | Some nd => Ok nd p
              | None => Err NilDeref
              end
  end.

Definition setHeap (h : list Node) (p : Markdown) : Markdown :=
  {| extensions := extensions p; nesting := nesting p;
     maxNesting := maxNesting p; insideLink := insideLink p; doc := doc p;
     tip := tip p; oldTip := oldTip p;
     lastMatchedContainer := lastMatchedContainer p;
     allClosed := allClosed p; heap := h |}.

Definition setTip (t : option nat) (p : Markdown) : Markdown :=
  {| extensions := extensions p; nesting := nesting p;
     maxNesting := maxNesting p; insideLink := insideLink p; doc := doc p;
     tip := t; oldTip := oldTip p;
     lastMatchedContainer := lastMatchedContainer p;
     allClosed := allClosed p; heap := heap p |}.

Definition setOldTip (t : option nat) (p : Markdown) : Markdown :=
  {| extensions := extensions p; nesting := nesting p;
     maxNesting := maxNesting p; insideLink := insideLink p; doc := doc p;
     tip := tip p; oldTip := t;
     lastMatchedContainer := lastMatchedContainer p;
     allClosed := allClosed p; heap := heap p |}.

Definition setAllClosed (b : bool) (p : Markdown) : Markdown :=
  {| extensions := extensions p; nesting := nesting p;
     maxNesting := maxNesting p; insideLink := insideLink p; doc := doc p;
     tip := tip p; oldTip := oldTip p;
     lastMatchedContainer := lastMatchedContainer p;
     allClosed := b; heap := heap p |}.

Definition setNesting (n : nat) (p : Markdown) : Markdown :=
  {| extensions := extensions p; nesting := n;
     maxNesting := maxNesting p; insideLink := insideLink p; doc := doc p;
     tip := tip p; oldTip := oldTip p;
     lastMatchedContainer := lastMatchedContainer p;
     allClosed := allClosed p; heap := heap p |}.

(** Field updates of a node. *)
Definition withParent (x : option nat) (n : Node) : Node :=
  {| Type_ := Type_ n; Parent := x; Children := Children n;
     content := content n; open := open n; ListFlags := ListFlags n;
     Tight := Tight n; BulletChar := BulletChar n; Delimiter := Delimiter n;
     IsHeader := IsHeader n; Align := Align n |}.
Definition withChildren (x : list nat) (n : Node) : Node :=
  {| Type_ := Type_ n; Parent := Parent n; Children := x;
     content := content n; open := open n; ListFlags := ListFlags n;
     Tight := Tight n; BulletChar := BulletChar n; Delimiter := Delimiter n;
     IsHeader := IsHeader n; Align := Align n |}.
Definition withContent (x : option bytes) (n : Node) : Node :=
  {| Type_ := Type_ n; Parent := Parent n; Children := Children n;
     content := x; open := open n; ListFlags := ListFlags n;
     Tight := Tight n; BulletChar := BulletChar n; Delimiter := Delimiter n;
     IsHeader := IsHeader n; Align := Align n |}.
Definition withOpen (x : bool) (n : Node) : Node :=
  {| Type_ := Type_ n; Parent := Parent n; Children := Children n;
     content := content n; open := x; ListFlags := ListFlags n;
     Tight := Tight n; BulletChar := BulletChar n; Delimiter := Delimiter n;
     IsHeader := IsHeader n; Align := Align n |}.
Definition withListFlags (x : Z) (n : Node) : Node :=
  {| Type_ := Type_ n; Parent := Parent n; Children := Children n;
     content := content n; open := open n; ListFlags := x;
     Tight := Tight n; BulletChar := BulletChar n; Delimiter := Delimiter n;
     IsHeader := IsHeader n; Align := Align n |}.
Definition withTight (x : bool) (n : Node) : Node :=
  {| Type_ := Type_ n; Parent := Parent n; Children := Children n;
     content := content n; open := open n; ListFlags := ListFlags n;
     Tight := x; BulletChar := BulletChar n; Delimiter := Delimiter n;
     IsHeader := IsHeader n; Align := Align n |}.
Definition withBullet (b d : ascii) (n : Node) : Node :=
  {| Type_ := Type_ n; Parent := Parent n; Children := Children n;
     content := content n; open := open n; ListFlags := ListFlags n;
     Tight := Tight n; BulletChar := b; Delimiter := d;
     IsHeader := IsHeader n; Align := Align n |}.
Definition withCell (hd : bool) (al : Z) (n : Node) : Node :=
  {| Type_ := Type_ n; Parent := Parent n; Children := Children n;
     content := content n; open := open n; ListFlags := ListFlags n;
     Tight := Tight n; BulletChar := BulletChar n; Delimiter := Delimiter n;
     IsHeader := hd; Align := al |}.

(** [k.field = x]: an assignment through a node pointer. *)
Definition update (n : option nat) (f : Node -> Node) : M unit :=
  nd ← deref n;
  match n with
  | Some k => modify (fun p => setHeap (<[k := f nd]> (heap p)) p)
  | None => fail NilDeref
  end.

(** Modelled from the spec: [NewNode]. The new node takes the next free
    index of the heap. *)
Definition NewNode (typ : NodeType) : M nat := fun p =>
  Ok (length (heap p)) (setHeap (heap p ++ [freshNode typ]) p).

(** Modelled from the spec: [Unlink] ("removes node from its parent's child
    list and clears its parent/sibling back-references"). *)
Definition Unlink (n : option nat) : M unit :=
  nd ← deref n;
  match n, Parent nd with
  | Some k, Some q =>
      par ← deref (Some q);
      update (Some q) (withChildren (filter (fun c => c ≠ k) (Children par)));;
      update n (withParent None)
  | _, _ => update n (withParent None)
  end.

(** Modelled from the spec: [AppendChild] ("transfers ownership of child to
    parent, linking sibling pointers, and fails only if parent is not
    open"). *)
Definition AppendChild (n : option nat) (child : nat) : M unit :=
  par ← deref n;
  if open par then
    Unlink (Some child);;
    update (Some child) (withParent n);;
    par ← deref n;
    update n (withChildren (Children par ++ [child]))
  else fail ClosedParent.

Definition FirstChild (nd : Node) : option nat := head (Children nd).
Definition LastChild (nd : Node) : option nat := last (Children nd).

(** The element after [k] in the owner's list. *)
Fixpoint nextIn (l : list nat) (k : nat) : option nat :=
  match l with
  | [] => None
  | c :: l' => if c =? k then head l' else nextIn l' k
  end.

Definition Next (n : option nat) : M (option nat) :=
  nd ← deref n;
  match n, Parent nd with
  | Some k, Some q => par ← deref (Some q); mret (nextIn (Children par) k)
  | _, _ => mret None
  end.

(** ** Tip tracker (processor file, lines 127-155) *)

Definition finalize (block : option nat) : M unit :=
  nd ← deref block;
  let above := Parent nd in
  update block (withOpen false);;
  modify (setTip above).

(** [for !p.tip.canContain(node.Type) { p.finalize(p.tip) }] *)
Fixpoint climb (fuel : nat) (typ : NodeType) : M unit :=
  match fuel with
  | 0 => fail OutOfFuel
  | S f =>
      t ← gets tip;
      nd ← deref t;
      if canContain (Type_ nd) typ then mret tt
      else finalize t;; climb f typ
  end.

Definition addExistingChild (node : nat) (offset : nat) : M nat :=
  nd ← deref (Some node);
  h ← gets heap;
  climb (S (length h)) (Type_ nd);;
  t ← gets tip;
  AppendChild t node;;
  modify (setTip (Some node));;
  mret node.

Definition addChild (node : NodeType) (offset : nat) : M nat :=
  n ← NewNode node;
  addExistingChild n offset.

Fixpoint closeLoop (fuel : nat) : M unit :=
  match fuel with
  | 0 => fail OutOfFuel
  | S f =>
      o ← gets oldTip;
      l ← gets lastMatchedContainer;
      if bool_decide (o = l) then mret tt
      else
        nd ← deref o;
        let parent := Parent nd in
        finalize o;;
        modify (setOldTip parent);;
        closeLoop f
  end.

Definition closeUnmatchedBlocks : M unit :=
  ac ← gets allClosed;
  if negb ac then
    h ← gets heap;
    closeLoop (S (length h));;
    modify (setAllClosed true)
  else mret tt.

Definition addBlock (typ : NodeType) (content : option bytes) : M nat :=
  closeUnmatchedBlocks;;
  container ← addChild typ 0;
  update (Some container) (withContent content);;
  mret container.

(** [New] with the option [WithExtensions(e)]; the renderer and the table of
    inline callbacks belong to the inline engine and the renderer. *)
Definition New (e : Z) : Markdown :=
  {| extensions := e; nesting := 0; maxNesting := 16; insideLink := false;
     doc := Some 0; tip := Some 0; oldTip := Some 0;
     lastMatchedContainer := Some 0; allClosed := true;
     heap := [freshNode Document] |}.

(** ** Scanners of the block parsers (block.go)

    The parts of [quote], [tableHeader] and [listItem] that only read the
    buffer are pure functions; the routines below run them at the place
    where the source has the loop. *)

(** [raw.Bytes()] of a [bytes.Buffer]: nil while nothing was written. *)
Definition bufBytes (raw : bytes) : option bytes :=
  match raw with [] => None | _ => Some raw end.

(** [bytes.IndexByte]: [None] stands for -1. *)
Fixpoint IndexByte (l : bytes) (c : ascii) : option nat :=
  match l with
  | [] => None
  | x :: l' => if isc c x then Some 0 else S <$> IndexByte l' c
  end.

(** End of the line that starts at [i], newline included:
    [for end < len(data) && data[end] != '\n' { end++ }] and then
    [if end < len(data) && data[end] == '\n' { end++ }]. *)
Definition toNewline (data : bytes) (i : nat) : nat :=
  skipWhile (notc NL) data i.
Definition pastNewline (data : bytes) (i : nat) : nat :=
  if inb data i && isc NL (get data i) then i + 1 else i.

Definition terminateBlockquote (data : bytes) (beg end_ : nat) : option bool :=
  d ← sliceFrom data beg;
  if isEmpty d <=? 0 then Some false
  else if length data <=? end_ then Some true
  else e ← sliceFrom data end_;
       Some ((quotePrefix e =? 0) && (isEmpty e =? 0)).

Fixpoint quoteLoop (data : bytes) (fuel beg end_ : nat) (raw : bytes)
  : option (bytes * nat) :=
  match fuel with
  | 0 => Some (raw, end_)
  | S f =>
      if beg <? length data then
        let end_ := pastNewline data (toNewline data beg) in
        d ← sliceFrom data beg;
        let pre := quotePrefix d in
        if 0 <? pre then
          let beg := beg + pre in
          ln ← slice data beg end_;
          quoteLoop data f end_ end_ (raw ++ ln)
        else
          t ← terminateBlockquote data beg end_;
          if (t : bool) then Some (raw, end_)
          else ln ← slice data beg end_;
               quoteLoop data f end_ end_ (raw ++ ln)
      else Some (raw, end_)
  end.

(** Unescaped pipes of the line that starts at 0, and the index of its end. *)
Fixpoint headerPipes (data : bytes) (fuel i colCount : nat) : nat * nat :=
  match fuel with
  | 0 => (i, colCount)
  | S f =>
      if inb data i && notc NL (get data i) then
        headerPipes data f (S i)
          (if isc "|" (get data i) && negb (isBackslashEscaped data i)
           then S colCount else colCount)
      else (i, colCount)
  end.

(** One pass of the underline loop; [(ok, i, col, columns)] with [ok = false]
    for the [return] statements inside the loop. *)
Fixpoint underlineLoop (data : bytes) (colCount fuel i col : nat)
  (columns : list Z) : option (bool * nat * nat * list Z) :=
  match fuel with
  | 0 => Some (true, i, col, columns)
  | S f =>
      if inb data i && notc NL (get data i) then
        let dashes := 0 in
        '(i, dashes, columns) ←
          (if isc ":" (get data i) then
             c ← columns !! col;
             Some (i + 1, dashes + 1, <[col := Z.lor c TableAlignmentLeft]> columns)
           else Some (i, dashes, columns));
        let i' := skipWhile (isc "-") data i in
        let dashes := dashes + (i' - i) in
        let i := i' in
        '(i, dashes, columns) ←
          (if inb data i && isc ":" (get data i) then
             c ← columns !! col;
             Some (i + 1, dashes + 1, <[col := Z.lor c TableAlignmentRight]> columns)
           else Some (i, dashes, columns));
        let i := skipWhile (isc " ") data i in
        if i =? length data then Some (false, i, col, columns)
        else if dashes <? 3 then Some (false, i, col, columns)
        else if isc "|" (get data i) && negb (isBackslashEscaped data i) then
          let col := col + 1 in
          let i := i + 1 in
          let i := skipWhile (isc " ") data i in
          if (colCount <=? col) && inb data i && notc NL (get data i)
          then Some (false, i, col, columns)
          else underlineLoop data colCount f i col columns
        else if (notc "|" (get data i) || isBackslashEscaped data i)
                && (col + 1 <? colCount)
        then Some (false, i, col, columns)
        else if isc NL (get data i) then
          underlineLoop data colCount f i (col + 1) columns
        else Some (false, i, col, columns)
      else Some (true, i, col, columns)
  end.

(** The reading part of [tableHeader]: [(ok, i, columns, header)]; [ok] is
    false at every [return] that leaves [size] zero. *)
Definition tableHeaderScan (data : bytes)
  : option (bool * nat * list Z * bytes) :=
  let '(i, colCount) := headerPipes data (length data) 0 1 in
  if colCount =? 1 then Some (false, i, [], [])
  else
    let j := pastNewline data i in
    header ← sliceTo data j;
    c0 ← idx data 0;
    let colCount := if isc "|" c0 then colCount - 1 else colCount in
    let colCount :=
      if (2 <? i) && isc "|" (get data (i - 1))
         && negb (isBackslashEscaped data (i - 1))
      then colCount - 1 else colCount in
    let columns := replicate colCount 0%Z in
    let i := i + 1 in
    if length data <=? i then Some (false, i, columns, header)
    else
      let i := if isc "|" (get data i) && negb (isBackslashEscaped data i)
               then i + 1 else i in
      let i := skipChar data i " " in
      '(ok, i, col, columns) ←
        underlineLoop data colCount (length data - i) i 0 columns;
      if negb ok then Some (false, i, columns, header)
      else if negb (col =? colCount) then Some (false, i, columns, header)
      else Some (true, i, columns, header).

(** [for cellEnd > cellStart && cellEnd-1 < len(data) && data[cellEnd-1] == ' '
    { cellEnd-- }] *)
Fixpoint trimEnd (data : bytes) (cellStart fuel cellEnd : nat) : nat :=
  match fuel with
  | 0 => cellEnd
  | S f =>
      if (cellStart <? cellEnd) && inb data (cellEnd - 1)
         && isc " " (get data (cellEnd - 1))
      then trimEnd data cellStart f (cellEnd - 1)
      else cellEnd
  end.

(** End of a table cell: the next unescaped pipe or newline. *)
Definition cellEndFrom (data : bytes) (i : nat) : nat :=
  advance (fun j => inb data j
                    && (notc "|" (get data j) || isBackslashEscaped data j)
                    && notc NL (get data j))
          (length data - i) i.

(** Pipes of the row that starts at [i], and the index of its end. *)
Fixpoint rowPipes (data : bytes) (fuel i pipes : nat) : nat * nat :=
  match fuel with
  | 0 => (i, pipes)
  | S f =>
      if inb data i && notc NL (get data i) then
        rowPipes data f (S i) (if isc "|" (get data i) then S pipes else pipes)
      else (i, pipes)
  end.

Definition listTypeChanged (data : bytes) (flags : Z) : bool :=
  if (0 <? dliPrefix data) && negb (has flags ListTypeDefinition) then true
  else if (0 <? oliPrefix data) && negb (has flags ListTypeOrdered) then true
  else if (0 <? uliPrefix data)
          && (has flags ListTypeOrdered || has flags ListTypeDefinition)
  then true
  else false.

(** Indentation of a continuation line of a list item:
    [(indent, indentIndex)]. *)
Definition lineIndent (data : bytes) (line i : nat) : option (nat * nat) :=
  c ← idx data line;
  if isc TAB c then Some (4, 1)
  else
    let k := advance (fun k => (k <? 4) && (line + k <? i)
                               && isc " " (get data (line + k))) 4 0 in
    Some (k, k).

(** The [case containsBlankLine && indent < 4] arm of [listItem]. *)
Definition afterBlank (data : bytes) (i : nat) (flags : Z) : option Z :=
  if has flags ListTypeDefinition && (i + 1 <? length data) then
    let next := toNewline data i in
    let next := advance (fun j => (j + 1 <? length data) && isc NL (get data j))
                        (length data - next) next in
    if i + 1 <? length data then
      ci ← idx data i;
      if notc ":" ci then
        cn ← idx data next;
        if notc ":" cn then Some (setf flags ListItemEndOfList) else Some flags
      else Some flags
    else Some flags
  else Some (setf flags ListItemEndOfList).

(** The [gatherlines] loop of [listItem]: [(line, raw, sublist, flags)]. *)
Fixpoint gatherLines (data : bytes) (itemIndent fuel i line : nat)
  (raw : bytes) (containsBlankLine : bool) (sublist : nat) (flags : Z)
  : option (nat * bytes * nat * Z) :=
  match fuel with
  | 0 => Some (line, raw, sublist, flags)
  | S f =>
      if line <? length data then
        let i := i + 1 in
        let i := advance (fun j => inb data j && notc NL (get data (j - 1)))
                         (length data - i) i in
        ln ← slice data line i;
        if 0 <? isEmpty ln then
          gatherLines data itemIndent f i i raw true sublist flags
        else
          '(indent, indentIndex) ← lineIndent data line i;
          chunk ← slice data (line + indentIndex) i;
          nested ←
            (if 0 <? uliPrefix chunk then
               hr ← isHRule chunk;
               Some (negb hr || (0 <? oliPrefix chunk) || (0 <? dliPrefix chunk))
             else Some ((0 <? oliPrefix chunk) || (0 <? dliPrefix chunk)));
          let continue_ (raw : bytes) (sublist : nat) (flags : Z) :=
            let raw := if containsBlankLine then raw ++ [NL] else raw in
            gatherLines data itemIndent f i i (raw ++ chunk) false sublist flags in
          if (nested : bool) then
            if indent <=? itemIndent then
              Some (line, raw, sublist,
                    if listTypeChanged chunk flags
                    then setf flags ListItemEndOfList
                    else if containsBlankLine
                         then setf flags ListItemContainsBlock else flags)
            else
              continue_ raw
                (if sublist =? 0 then length raw else sublist)
                (if containsBlankLine
                 then setf flags ListItemContainsBlock else flags)
          else if containsBlankLine && (indent <? 4) then
            flags ← afterBlank data i flags;
            Some (line, raw, sublist, flags)
          else if containsBlankLine then
            continue_ (raw ++ [NL]) sublist (setf flags ListItemContainsBlock)
          else continue_ raw sublist flags
      else Some (line, raw, sublist, flags)
  end.

(** The reading part of [listItem], up to [rawBytes := raw.Bytes()]:
    the inner [None] is the early [return 0]. *)
Definition listItemScan (data : bytes) (flags : Z)
  : option (option (ascii * nat * bytes * nat * Z)) :=
  c0 ← idx data 0;
  itemIndent ← (if isc TAB c0 then Some 4 else skip3 data 3 0);
  let bulletChar := "*" in
  let i := uliPrefix data in
  '(i, bulletChar) ←
    (if i =? 0 then Some (oliPrefix data, bulletChar)
     else b ← idx data (i - 2); Some (i, b));
  let '(i, flags) :=
    if i =? 0 then
      let i := dliPrefix data in
      (i, if 0 <? i then clearf flags ListTypeTerm else flags)
    else (i, flags) in
  if (i =? 0) && negb (has flags ListTypeDefinition) then Some None
  else
    let flags := if i =? 0 then setf flags ListTypeTerm else flags in
    let i := skipWhile (isc " ") data i in
    let line := i in
    let i := advance (fun j => (0 <? j) && inb data j && notc NL (get data (j - 1)))
                     (length data - i) i in
    ln ← slice data line i;
    let raw := ln in
    let line := i in
    '(line, raw, sublist, flags) ←
      gatherLines data itemIndent (length data - line) i line raw false 0 flags;
    Some (Some (bulletChar, line, raw, sublist, flags)).

(** [for data[beg] == ' ' { beg++ }] of [renderParagraph]: no guard. *)
Fixpoint skipSpaces (data : bytes) (fuel beg : nat) : option nat :=
  match fuel with
  | 0 => None
  | S f => c ← idx data beg;
           if isc " " c then skipSpaces data f (S beg) else Some beg
  end.

(** [for end > beg && data[end-1] == ' ' { end-- }] of [renderParagraph]. *)
Fixpoint trimSpaces (data : bytes) (beg fuel end_ : nat) : option nat :=
  match fuel with
  | 0 => Some end_
  | S f =>
      if beg <? end_ then
        c ← idx data (end_ - 1);
        if isc " " c then trimSpaces data beg f (end_ - 1) else Some end_
      else Some end_
  end.

(** The bounds [(beg, end)] that [renderParagraph] computes. *)
Definition paragraphBounds (data : bytes) : option (nat * nat) :=
  beg ← skipSpaces data (S (length data)) 0;
  let end_ := length data in
  c ← idx data (length data - 1);
  let end_ := if isc NL c then end_ - 1 else end_ in
  end_ ← trimSpaces data beg end_ end_;
  Some (beg, end_).

(** ** Block parsers (block.go) *)

(** [endsWithBlankLine]: the descent through last children; "Always false
    now". *)
Fixpoint endsWithBlankLine (fuel : nat) (block : option nat) : M bool :=
  match fuel with
  | 0 => fail OutOfFuel
  | S f =>
      match block with
      | None => mret false
      | Some _ =>
          nd ← deref block;
          let t := Type_ nd in
          if NodeType_eqb t List || NodeType_eqb t Item
          then endsWithBlankLine f (LastChild nd)
          else mret false
      end
  end.

Definition endsBlank (block : option nat) : M bool :=
  h ← gets heap;
  endsWithBlankLine (S (length h)) block.

(** The inner loop of [finalizeList] over the children of [item]; the
    result says whether the loop left through [break]. [hasNext] is
    [item.Next != nil]. *)
Fixpoint subItems (block : option nat) (hasNext : bool) (l : list nat)
  : M unit :=
  match l with
  | [] => mret tt
  | subItem :: l' =>
      e ← endsBlank (Some subItem);
      if (e : bool) && (hasNext || negb (bool_decide (l' = [])))
      then update block (withTight false)
      else subItems block hasNext l'
  end.

Fixpoint items (block : option nat) (l : list nat) : M unit :=
  match l with
  | [] => mret tt
  | item :: l' =>
      e ← endsBlank (Some item);
      if (e : bool) && negb (bool_decide (l' = []))
      then update block (withTight false)
      else
        nd ← deref (Some item);
        subItems block (negb (bool_decide (l' = []))) (Children nd);;
        items block l'
  end.

Definition finalizeList (block : option nat) : M unit :=
  update block (withOpen false);;
  nd ← deref block;
  items block (Children nd).

Definition renderParagraph (data : bytes) : M unit :=
  if length data =? 0 then mret tt
  else
    '(beg, end_) ← lift (paragraphBounds data);
    c ← lift (slice data beg end_);
    addBlock Paragraph (Some c);;
    mret tt.

Section BlockParsers.

(** The recursive call [p.block]. *)
Variable blockrec : bytes -> M unit.

Definition quote (data : bytes) : M nat :=
  block ← addBlock BlockQuote None;
  '(raw, end_) ← lift (quoteLoop data (length data) 0 0 []);
  blockrec raw;;
  finalize (Some block);;
  mret end_.

(** The first loop of [tableRow]. *)
Fixpoint rowCells (data : bytes) (columns : list Z) (header : bool)
  (fuel col i : nat) : M nat :=
  match fuel with
  | 0 => mret col
  | S f =>
      if (col <? length columns) && inb data i then
        let i := skipWhile (isc " ") data i in
        let cellStart := i in
        let i := cellEndFrom data i in
        let cellEnd := i in
        let i := i + 1 in
        let cellEnd := trimEnd data cellStart cellEnd cellEnd in
        c ← lift (slice data cellStart cellEnd);
        cell ← addBlock TableCell (Some c);
        al ← lift (columns !! col);
        update (Some cell) (withCell header al);;
        rowCells data columns header f (S col) i
      else mret col
  end.

(** The padding loop of [tableRow]. *)
Fixpoint padCells (columns : list Z) (header : bool) (fuel col : nat)
  : M unit :=
  match fuel with
  | 0 => mret tt
  | S f =>
      if col <? length columns then
        cell ← addBlock TableCell None;
        al ← lift (columns !! col);
        update (Some cell) (withCell header al);;
        padCells columns header f (S col)
      else mret tt
  end.

Definition tableRow (data : bytes) (columns : list Z) (header : bool)
  : M unit :=
  addBlock TableRow None;;
  let i := 0 in
  c0 ← lift (idx data i);
  let i := if isc "|" c0 && negb (isBackslashEscaped data i) then i + 1 else i in
  col ← rowCells data columns header (length columns) 0 i;
  padCells columns header (length columns - col) col.

Definition tableHeader (data : bytes) : M (nat * list Z) :=
  '(ok, i, columns, header) ← lift (tableHeaderScan data);
  if (ok : bool) then
    addBlock TableHead None;;
    tableRow header columns true;;
    let size := i in
    let size := pastNewline data size in
    mret (size, columns)
  else mret (0, columns).

(** The row loop of [table]. *)
Fixpoint tableRows (data : bytes) (columns : list Z) (fuel i : nat) : M nat :=
  match fuel with
  | 0 => mret i
  | S f =>
      if inb data i then
        let rowStart := i in
        let '(i, pipes) := rowPipes data (length data - i) i 0 in
        if pipes =? 0 then mret rowStart
        else
          let i := pastNewline data i in
          row ← lift (slice data rowStart i);
          tableRow row columns false;;
          tableRows data columns f i
      else mret i
  end.

Definition table (data : bytes) : M nat :=
  table ← addBlock Table None;
  '(i, columns) ← tableHeader data;
  if i =? 0 then
    nd ← deref (Some table);
    modify (setTip (Parent nd));;
    Unlink (Some table);;
    mret 0
  else
    addBlock TableBody None;;
    tableRows data columns (length data - i) i.

Definition listItem (data : bytes) (flags : Z) : M (nat * Z) :=
  r ← lift (listItemScan data flags);
  match r with
  | None => mret (0, flags)
  | Some (bulletChar, line, rawBytes, sublist, flags) =>
      block ← addBlock Item None;
      update (Some block) (withListFlags flags);;
      update (Some block) (withTight false);;
      update (Some block) (withBullet bulletChar ".");;
      (if has flags ListItemContainsBlock && negb (has flags ListTypeTerm) then
         if 0 <? sublist then
           a ← lift (sliceTo rawBytes sublist);
           blockrec a;;
           b ← lift (sliceFrom rawBytes sublist);
           blockrec b
         else blockrec rawBytes
       else
         if 0 <? sublist then
           child ← addChild Paragraph 0;
           a ← lift (sliceTo rawBytes sublist);
           update (Some child) (withContent (Some a));;
           b ← lift (sliceFrom rawBytes sublist);
           blockrec b
         else
           child ← addChild Paragraph 0;
           update (Some child) (withContent (bufBytes rawBytes)));;
      mret (line, flags)
  end.

(** The item loop of [list]. *)
Fixpoint listLoop (data : bytes) (block : nat) (fuel i : nat) (flags : Z)
  : M nat :=
  match fuel with
  | 0 => mret i
  | S f =>
      if inb data i then
        d ← lift (sliceFrom data i);
        '(skip, flags) ← listItem d flags;
        (if has flags ListItemContainsBlock
         then update (Some block) (withTight false) else mret tt);;
        let i := i + skip in
        if (skip =? 0) || has flags ListItemEndOfList then mret i
        else listLoop data block f i (clearf flags ListItemBeginningOfList)
      else mret i
  end.

Definition list_ (data : bytes) (flags : Z) : M nat :=
  let i := 0 in
  let flags := setf flags ListItemBeginningOfList in
  block ← addBlock List None;
  update (Some block) (withListFlags flags);;
  update (Some block) (withTight true);;
  i ← listLoop data block (length data - i) i flags;
  nd ← deref (Some block);
  let above := Parent nd in
  finalizeList (Some block);;
  modify (setTip above);;
  mret i.

(** The loop of [paragraph]; its exit runs the two statements after it. *)
Fixpoint paragraphLoop (data : bytes) (fuel prev line i : nat) : M nat :=
  let done := (d ← lift (sliceTo data i); renderParagraph d;; mret i) in
  match fuel with
  | 0 => done
  | S f =>
      if inb data i then
        let prev := line in
        current ← lift (sliceFrom data i);
        let line := i in
        ext ← gets extensions;
        let n := isEmpty current in
        if 0 <? n then
          if has ext DefinitionLists && (i + 1 <? length data)
             && isc ":" (get data (i + 1))
          then d ← lift (sliceFrom data prev); list_ d ListTypeDefinition
          else d ← lift (sliceTo data i); renderParagraph d;; mret (i + n)
        else
          hr ← lift (isHRule current);
          if (hr : bool) then done
          else if has ext DefinitionLists && negb (dliPrefix current =? 0)
          then d ← lift (sliceFrom data prev); list_ d ListTypeDefinition
          else if has ext NoEmptyLineBeforeBlock
                  && (negb (uliPrefix current =? 0)
                      || negb (oliPrefix current =? 0)
                      || negb (quotePrefix current =? 0))
          then done
          else
            let i := match IndexByte current NL with
                     | Some nl => i + (nl + 1)
                     | None => i + length current
                     end in
            paragraphLoop data f prev line i
      else done
  end.

Definition paragraph (data : bytes) : M nat :=
  paragraphLoop data (length data) 0 0 0.

(** One turn of the loop of [block]: the buffer that is left. *)
Definition blockIter (data : bytes) : M bytes :=
  let i := isEmpty data in
  if 0 <? i then lift (sliceFrom data i)
  else
    hr ← lift (isHRule data);
    if (hr : bool) then
      addBlock HorizontalRule None;;
      lift (sliceFrom data (toNewline data 0))
    else if 0 <? quotePrefix data then
      n ← quote data; lift (sliceFrom data n)
    else
      ext ← gets extensions;
      i ← (if has ext Tables then table data else mret 0);
      if 0 <? i then lift (sliceFrom data i)
      else if 0 <? uliPrefix data then
        n ← list_ data 0%Z; lift (sliceFrom data n)
      else if 0 <? oliPrefix data then
        n ← list_ data ListTypeOrdered; lift (sliceFrom data n)
      else
        ext ← gets extensions;
        if has ext DefinitionLists && (0 <? dliPrefix data) then
          n ← list_ data ListTypeDefinition; lift (sliceFrom data n)
        else
          n ← paragraph data; lift (sliceFrom data n).

(** The dispatch as the specification words it: the grammars in their
    priority order, each tried in turn, the first that matches taken.  An
    attempt yields the buffer that is left when its grammar matched. *)
Inductive grammar :=
| GBlank | GHRule | GQuote | GTable | GUList | GOList | GDList | GParagraph.

Definition priority : list grammar :=
  [GBlank; GHRule; GQuote; GTable; GUList; GOList; GDList; GParagraph].

Definition rest (data : bytes) (n : nat) : M (option bytes) :=
  d ← lift (sliceFrom data n); mret (Some d).

Definition attempt (g : grammar) (data : bytes) : M (option bytes) :=
  match g with
  | GBlank => if 0 <? isEmpty data then rest data (isEmpty data) else mret None
  | GHRule =>
      hr ← lift (isHRule data);
      if (hr : bool) then
        addBlock HorizontalRule None;; rest data (toNewline data 0)
      else mret None
  | GQuote =>
      if 0 <? quotePrefix data then n ← quote data; rest data n else mret None
  | GTable =>
      ext ← gets extensions;
      if has ext Tables then
        i ← table data; if 0 <? i then rest data i else mret None
      else mret None
  | GUList =>
      if 0 <? uliPrefix data then n ← list_ data 0%Z; rest data n
      else mret None
  | GOList =>
      if 0 <? oliPrefix data then n ← list_ data ListTypeOrdered; rest data n
      else mret None
  | GDList =>
      ext ← gets extensions;
      if has ext DefinitionLists && (0 <? dliPrefix data) then
        n ← list_ data ListTypeDefinition; rest data n
      else mret None
  | GParagraph => n ← paragraph data; rest data n
  end.

Fixpoint firstMatch (gs : list grammar) (data : bytes) : M bytes :=
  match gs with
  | [] => mret data
  | g :: gs' =>
      r ← attempt g data;
      match r with
      | Some d => mret d
      | None => firstMatch gs' data
      end
  end.

(** [for len(data) > 0 { ... }]: every turn costs one unit of fuel. *)
Fixpoint blockLoop (fuel : nat) (data : bytes) : M unit :=
  match data with
  | [] => mret tt
  | _ =>
      match fuel with
      | 0 => fail OutOfFuel
      | S f => data ← blockIter data; blockLoop f data
      end
  end.

End BlockParsers.

(** [block]: the fuel bounds the turns of the loop and the depth of the
    recursion; the depth guard of the source comes first. *)
Fixpoint block (fuel : nat) (data : bytes) : M unit :=
  n ← gets nesting;
  mx ← gets maxNesting;
  if mx <=? n then mret tt
  else
    match fuel with
    | 0 => fail OutOfFuel
    | S f =>
        modify (setNesting (n + 1));;
        blockLoop (block f) f data;;
        n ← gets nesting;
        modify (setNesting (n - 1))
    end.

(** ** Two-phase driver (processor file, lines 266-286) *)

Inductive WalkStatus := GoToNext | SkipChildren | Terminate.

(** The children of a node, walked in order by [w]. *)
Fixpoint walkChildren (w : nat -> M WalkStatus) (l : list nat) : M WalkStatus :=
  match l with
  | [] => mret GoToNext
  | c :: l' =>
      s ← w c;
      match s with
      | Terminate => mret Terminate
      | _ => walkChildren w l'
      end
  end.

Section Walk.

Variable visitor : nat -> bool -> M WalkStatus.

(** Modelled from the spec: [Walk] ("visiting every node twice: once
    entering (before its children), once leaving (after) - a visitor may
    request early termination or a skip-children instruction").  The result
    is [Terminate] when the visitor asked to stop. *)
Fixpoint walk (fuel : nat) (n : nat) : M WalkStatus :=
  match fuel with
  | 0 => fail OutOfFuel
  | S f =>
      s ← visitor n true;
      match s with
      | Terminate => mret Terminate
      | SkipChildren => visitor n false
      | GoToNext =>
          nd ← deref (Some n);
          r ← walkChildren (walk f) (Children nd);
          match r with
          | Terminate => mret Terminate
          | _ => visitor n false
          end
      end
  end.

Definition Walk (root : option nat) : M unit :=
  match root with
  | None => fail NilDeref
  | Some n => h ← gets heap; walk (S (length h)) n;; mret tt
  end.

End Walk.

Section Driver.

(** Modelled from the spec: the inline engine is an external collaborator
    ("invokes the inline engine on that content, replacing the node's content
    with the produced inline children").  It is represented by the kinds of
    the inline nodes it produces for a leaf's raw text, given the extension
    flags. *)
Variable inlineEngine : Z -> bytes -> list nat.

(** Links one produced inline node under the leaf.  The leaf has been
    finalized by then, so this is not the [AppendChild] of the block
    parsers. *)
Definition appendInline (node : nat) (kind : nat) : M unit :=
  c ← NewNode (InlineNode kind);
  update (Some c) (withParent (Some node));;
  nd ← deref (Some node);
  update (Some node) (withChildren (Children nd ++ [c])).

Fixpoint appendInlines (node : nat) (kinds : list nat) : M unit :=
  match kinds with
  | [] => mret tt
  | k :: ks => appendInline node k;; appendInlines node ks
  end.

Definition inline (node : nat) (data : option bytes) : M unit :=
  e ← gets extensions;
  appendInlines node (inlineEngine e (default [] data)).

(** The visitor of the second walk of [Parse]. *)
Definition inlineVisitor (node : nat) (entering : bool) : M WalkStatus :=
  nd ← deref (Some node);
  (if NodeType_eqb (Type_ nd) Paragraph || NodeType_eqb (Type_ nd) TableCell
   then inline node (content nd);; update (Some node) (withContent None)
   else mret tt);;
  mret GoToNext.

(** [for p.tip != nil { p.finalize(p.tip) }] *)
Fixpoint finishLoop (fuel : nat) : M unit :=
  t ← gets tip;
  match t with
  | None => mret tt
  | Some _ =>
      match fuel with
      | 0 => fail OutOfFuel
      | S f => finalize t;; finishLoop f
      end
  end.

(** The first phase of [Parse]: the block pass and the closing of the
    containers that are still open. *)
Definition blockPhase (fuel : nat) (input : bytes) : M unit :=
  block fuel input;;
  h ← gets heap;
  finishLoop (length h).

Definition inlinePhase : M unit :=
  d ← gets doc;
  Walk inlineVisitor d.

Definition Parse (fuel : nat) (input : bytes) : M (option nat) :=
  blockPhase fuel input;;
  inlinePhase;;
  gets doc.

End Driver.

(** ** Reading a result *)

Definition node (p : Markdown) (n : nat) : option Node := heap p !! n.

(** The tree below a node, as seen by a renderer: type, tightness, raw
    content and children. *)
#[local] Unset Elimination Schemes.
Inductive tree := T (t : NodeType) (tight : bool) (c : option bytes)
                    (opened : bool) (kids : list tree).
#[local] Set Elimination Schemes.

Fixpoint treeOf (fuel : nat) (h : list Node) (n : nat) : option tree :=
  match fuel with
  | 0 => None
  | S f =>
      nd ← h !! n;
      kids ← mapM (treeOf f h) (Children nd);
      Some (T (Type_ nd) (Tight nd) (content nd) (open nd) kids)
  end.
(** * Properties *)

(** ** Reasoning in the monad *)

Lemma bind_Ok {A B} (m : M A) (f : A -> M B) p b p2 :
  (m ≫= f) p = Ok b p2 <-> exists a p1, m p = Ok a p1 /\ f a p1 = Ok b p2.
Proof.
  unfold mbind, M_bind. destruct (m p) as [a p1|e]; split.
  - eauto.
  - intros (a' & p1' & [= <- <-] & H). exact H.
  - discriminate.
  - intros (a' & p1' & [=] & _).
Qed.

Lemma bind_Err {A B} (m : M A) (f : A -> M B) p e :
  (m ≫= f) p = Err e <->
  m p = Err e \/ exists a p1, m p = Ok a p1 /\ f a p1 = Err e.
Proof.
  unfold mbind, M_bind. destruct (m p) as [a p1|e']; split.
  - eauto.
  - intros [[=]|(a' & p1' & [= <- <-] & H)]. exact H.
  - intros [= <-]. now left.
  - intros [[= <-]|(a' & p1' & [=] & _)]. reflexivity.
Qed.

Lemma ret_Ok {A} (a b : A) p p' :
  (mret a : M A) p = Ok b p' <-> a = b /\ p = p'.
Proof. unfold mret, M_ret. split; [intros [= <- <-]; auto | intros [<- <-]; auto]. Qed.

Lemma gets_Ok {A} (f : Markdown -> A) p a p' :
  gets f p = Ok a p' <-> a = f p /\ p' = p.
Proof. unfold gets. split; [intros [= <- <-]; auto | intros [-> ->]; auto]. Qed.

Lemma modify_Ok f p a p' : modify f p = Ok a p' <-> p' = f p.
Proof. unfold modify. destruct a. split; [intros [= <-]; auto | intros ->; auto]. Qed.

Lemma lift_Ok {A} (o : option A) p a p' :
  lift o p = Ok a p' <-> o = Some a /\ p' = p.
Proof.
  unfold lift. destruct o; simpl; unfold mret, M_ret, fail.
  - split; [intros [= <- <-]; auto | intros [[= <-] ->]; auto].
  - split; [discriminate | intros [[=] _]].
Qed.

Lemma deref_Ok n p nd p' :
  deref n p = Ok nd p' <-> (exists k, n = Some k /\ heap p !! k = Some nd) /\ p' = p.
Proof.
  unfold deref. destruct n as [k|].
  - destruct (heap p !! k) as [x|] eqn:E.
    + split; [intros [= <- <-]; eauto | intros [(k' & [= <-] & H) ->]; congruence].
    + split; [discriminate | intros [(k' & [= <-] & H) ->]; congruence].
  - split; [discriminate | intros [(k' & [=] & _) _]].
Qed.

(** Decomposes a hypothesis that says a routine returned normally. *)
Ltac inv_ok H :=
  match type of H with
  | (_ ≫= _) _ = Ok _ _ =>
      let a := fresh "a" in let p := fresh "p" in
      let H1 := fresh "H" in let H2 := fresh "H" in
      apply bind_Ok in H as (a & p & H1 & H2); inv_ok H1; inv_ok H2
  | mret _ _ = Ok _ _ => apply ret_Ok in H as [? ?]; subst
  | gets _ _ = Ok _ _ => apply gets_Ok in H as [? ?]; subst
  | modify _ _ = Ok _ _ => apply modify_Ok in H; subst
  | lift _ _ = Ok _ _ => apply lift_Ok in H as [H ?]; subst
  | fail _ _ = Ok _ _ => discriminate H
  | _ => idtac
  end.

(** Reduces the projections of an updated processor state. *)
Ltac st_simpl :=
  cbn [heap tip doc allClosed extensions nesting maxNesting insideLink oldTip
       lastMatchedContainer setHeap setTip setNesting setOldTip setAllClosed]
    in *.

(** ** The heap *)

Lemma update_Ok k f p u p' :
  update (Some k) f p = Ok u p' <->
  exists nd, heap p !! k = Some nd /\ p' = setHeap (<[k := f nd]> (heap p)) p.
Proof.
  unfold update. rewrite bind_Ok. split.
  - intros (nd & p1 & H1 & H2). apply deref_Ok in H1 as [(k' & [= <-] & H1) ->].
    apply modify_Ok in H2. eauto.
  - intros (nd & H1 & ->). exists nd, p. split.
    + apply deref_Ok. eauto.
    + destruct u. reflexivity.
Qed.

Lemma update_None f p u p' : update None f p = Ok u p' -> False.
Proof. unfold update. rewrite bind_Ok. intros (nd & p1 & H1 & _). discriminate. Qed.
(** ** Well-formed states

    Children are allocated after their parent, a parent pointer points to a
    node allocated earlier that is itself attached (or is the root), and the
    tip is attached. *)

Definition alive (h : list Node) (q : nat) : Prop :=
  q = 0 \/ exists nq, h !! q = Some nq /\ Parent nq <> None.

Record wfHeap (h : list Node) : Prop := {
  wf_children : forall n nd c,
    h !! n = Some nd -> c ∈ Children nd -> n < c < length h;
  wf_parent : forall n nd q,
    h !! n = Some nd -> Parent nd = Some q -> q < n /\ alive h q;
  wf_root : is_Some (h !! 0)
}.

Definition wf (p : Markdown) : Prop :=
  wfHeap (heap p) /\ doc p = Some 0 /\ allClosed p = true /\
  forall t, tip p = Some t -> t < length (heap p) /\ alive (heap p) t.

(** The fields of the processor other than the tip and the heap. *)
Definition sameScalars (p p' : Markdown) : Prop :=
  extensions p' = extensions p /\ nesting p' = nesting p /\
  maxNesting p' = maxNesting p /\ insideLink p' = insideLink p /\
  doc p' = doc p /\ oldTip p' = oldTip p /\
  lastMatchedContainer p' = lastMatchedContainer p /\
  allClosed p' = allClosed p.

Lemma sameScalars_refl p : sameScalars p p.
Proof. repeat split. Qed.

Lemma sameScalars_trans p1 p2 p3 :
  sameScalars p1 p2 -> sameScalars p2 p3 -> sameScalars p1 p3.
Proof. unfold sameScalars. intuition congruence. Qed.

(** An update that leaves the links of a node alone. *)
Definition keepsLinks (f : Node -> Node) : Prop :=
  forall nd, Parent (f nd) = Parent nd /\ Children (f nd) = Children nd.

Lemma keepsLinks_withOpen b : keepsLinks (withOpen b).
Proof. split; reflexivity. Qed.
Lemma keepsLinks_withContent c : keepsLinks (withContent c).
Proof. split; reflexivity. Qed.
Lemma keepsLinks_withTight b : keepsLinks (withTight b).
Proof. split; reflexivity. Qed.
Lemma keepsLinks_withListFlags z : keepsLinks (withListFlags z).
Proof. split; reflexivity. Qed.
Lemma keepsLinks_withBullet b d : keepsLinks (withBullet b d).
Proof. split; reflexivity. Qed.
Lemma keepsLinks_withCell b z : keepsLinks (withCell b z).
Proof. split; reflexivity. Qed.

Create HintDb pres.
#[export] Hint Resolve keepsLinks_withOpen keepsLinks_withContent
  keepsLinks_withTight keepsLinks_withListFlags keepsLinks_withBullet
  keepsLinks_withCell : pres.

Lemma alive_insert h k f nd q :
  h !! k = Some nd -> keepsLinks f -> alive h q -> alive (<[k := f nd]> h) q.
Proof.
  intros Hk Hf [->|(nq & Hq & Hp)]; [now left|right].
  destruct (decide (k = q)) as [->|Hne].
  - exists (f nd). rewrite list_lookup_insert_eq by (eapply lookup_lt_Some; eauto).
    split; [reflexivity|]. rewrite (proj1 (Hf nd)). congruence.
  - exists nq. rewrite list_lookup_insert_ne by assumption. auto.
Qed.

Lemma wfHeap_insert h k f nd :
  h !! k = Some nd -> keepsLinks f -> wfHeap h -> wfHeap (<[k := f nd]> h).
Proof.
  intros Hk Hf [Hc Hp Hr]. split.
  - intros n nd' c Hn Hin. rewrite length_insert.
    destruct (decide (k = n)) as [->|Hne].
    + rewrite list_lookup_insert_eq in Hn by (eapply lookup_lt_Some; eauto).
      injection Hn as <-. rewrite (proj2 (Hf nd)) in Hin. eauto.
    + rewrite list_lookup_insert_ne in Hn by assumption. eauto.
  - intros n nd' q Hn Hq.
    assert (q < n /\ alive h q) as [? ?].
    { destruct (decide (k = n)) as [->|Hne].
      - rewrite list_lookup_insert_eq in Hn by (eapply lookup_lt_Some; eauto).
        injection Hn as <-. rewrite (proj1 (Hf nd)) in Hq. eauto.
      - rewrite list_lookup_insert_ne in Hn by assumption. eauto. }
    split; [assumption|]. now apply alive_insert.
  - destruct Hr as [d Hd]. destruct (decide (k = 0)) as [->|Hne].
    + exists (f nd). apply list_lookup_insert_eq. eapply lookup_lt_Some; eauto.
    + exists d. now rewrite list_lookup_insert_ne.
Qed.

Lemma wf_update k f p u p' :
  keepsLinks f -> wf p -> update (Some k) f p = Ok u p' ->
  wf p' /\ tip p' = tip p /\ sameScalars p p'.
Proof.
  intros Hf (Hh & Hd & Ha & Ht) H. apply update_Ok in H as (nd & Hk & ->).
  split; [|split; [reflexivity|repeat split]].
  split; [|split; [|split]]; simpl.
  - now apply wfHeap_insert.
  - assumption.
  - assumption.
  - intros t Ht'. rewrite length_insert. destruct (Ht t Ht') as [? ?].
    split; [assumption|]. now apply alive_insert.
Qed.

Lemma wf_setTip_parent p k nd :
  wf p -> heap p !! k = Some nd -> wf (setTip (Parent nd) p).
Proof.
  intros (Hh & Hd & Ha & Ht) Hk. split; [|split; [|split]]; simpl; try assumption.
  intros t Hp. destruct (wf_parent _ Hh _ _ _ Hk Hp) as [? ?].
  apply lookup_lt_Some in Hk. split; [lia|assumption].
Qed.

Lemma finalize_Ok block p u p' :
  finalize block p = Ok u p' <->
  exists k nd, block = Some k /\ heap p !! k = Some nd /\
    p' = setTip (Parent nd) (setHeap (<[k := withOpen false nd]> (heap p)) p).
Proof.
  unfold finalize. rewrite bind_Ok. split.
  - intros (nd & p1 & H1 & H2).
    apply deref_Ok in H1 as [(k & -> & Hk) ->].
    apply bind_Ok in H2 as (u1 & p2 & H2 & H3).
    apply update_Ok in H2 as (nd' & Hk' & ->). apply modify_Ok in H3.
    assert (nd' = nd) as -> by congruence. eauto.
  - intros (k & nd & -> & Hk & ->). exists nd, p. split.
    + apply deref_Ok. eauto.
    + apply bind_Ok. eexists tt, _. split.
      * apply update_Ok. eauto.
      * destruct u. reflexivity.
Qed.

Lemma wf_finalize block p u p' :
  wf p -> finalize block p = Ok u p' -> wf p' /\ sameScalars p p'.
Proof.
  intros Hwf H. apply finalize_Ok in H as (k & nd & -> & Hk & ->).
  split; [|repeat split].
  assert (Hu : update (Some k) (withOpen false) p
               = Ok tt (setHeap (<[k := withOpen false nd]> (heap p)) p)).
  { apply update_Ok. eauto. }
  apply wf_update in Hu as (Hwf' & _); [|apply keepsLinks_withOpen|assumption].
  change (Parent nd) with (Parent (withOpen false nd)).
  apply (wf_setTip_parent _ k); [assumption|].
  simpl. apply list_lookup_insert_eq. eapply lookup_lt_Some; eauto.
Qed.
(** Heaps that differ at most in the [open] flags. *)
Definition openOnly (h h' : list Node) : Prop :=
  length h' = length h /\
  forall j nd, h !! j = Some nd -> exists b, h' !! j = Some (withOpen b nd).

Lemma withOpen_id nd : withOpen (open nd) nd = nd.
Proof. now destruct nd. Qed.

Lemma openOnly_refl h : openOnly h h.
Proof. split; [reflexivity|]. intros j nd H. exists (open nd). now rewrite withOpen_id. Qed.

Lemma openOnly_trans h1 h2 h3 : openOnly h1 h2 -> openOnly h2 h3 -> openOnly h1 h3.
Proof.
  intros [L1 H1] [L2 H2]. split; [congruence|]. intros j nd Hj.
  destruct (H1 _ _ Hj) as [b Hb]. destruct (H2 _ _ Hb) as [b' Hb']. now exists b'.
Qed.

Lemma openOnly_insert h k nd b :
  h !! k = Some nd -> openOnly h (<[k := withOpen b nd]> h).
Proof.
  intros Hk. split; [apply length_insert|]. intros j nd' Hj.
  destruct (decide (k = j)) as [->|Hne].
  - exists b. rewrite list_lookup_insert_eq by (eapply lookup_lt_Some; eauto). congruence.
  - exists (open nd'). rewrite list_lookup_insert_ne by assumption. now rewrite withOpen_id.
Qed.

(** The two ways a turn of the loop of [addExistingChild] goes. *)
Lemma climb_stop f typ p t nt :
  tip p = Some t -> heap p !! t = Some nt -> canContain (Type_ nt) typ = true ->
  climb (S f) typ p = Ok tt p.
Proof.
  intros Ht Hn Hc. simpl. unfold mbind, M_bind, gets, deref. rewrite Ht, Hn, Hc.
  reflexivity.
Qed.

Lemma climb_step f typ p t nt :
  tip p = Some t -> heap p !! t = Some nt -> canContain (Type_ nt) typ = false ->
  climb (S f) typ p
  = climb f typ (setTip (Parent nt) (setHeap (<[t := withOpen false nt]> (heap p)) p)).
Proof.
  intros Ht Hn Hc. simpl. unfold mbind at 1 2, M_bind, gets, deref. rewrite Ht, Hn, Hc.
  unfold mbind at 1, M_bind.
  assert (finalize (Some t) p = Ok tt (setTip (Parent nt)
            (setHeap (<[t := withOpen false nt]> (heap p)) p))) as ->.
  { apply finalize_Ok. eauto. }
  reflexivity.
Qed.

Lemma climb_tip f typ p u p' : climb f typ p = Ok u p' -> is_Some (tip p).
Proof.
  destruct f; [discriminate|]. simpl. unfold mbind, M_bind, gets, deref.
  destruct (tip p); [eauto|discriminate].
Qed.

Lemma climb_Ok f typ p u p' :
  climb f typ p = Ok u p' ->
  openOnly (heap p) (heap p') /\ sameScalars p p' /\
  (wf p -> wf p') /\
  (exists t nt, tip p' = Some t /\ heap p' !! t = Some nt /\
                canContain (Type_ nt) typ = true) /\
  (wf p -> forall t0, tip p = Some t0 ->
     (exists t, tip p' = Some t /\ t <= t0) /\
     forall j, t0 < j -> heap p' !! j = heap p !! j).
Proof.
  destruct u. revert p. induction f as [|f IH]; intros p H; [discriminate|].
  destruct (climb_tip _ _ _ _ _ H) as [t Ht].
  destruct (heap p !! t) as [nt|] eqn:Hn; [|simpl in H; unfold mbind, M_bind, gets, deref in H;
    rewrite Ht, Hn in H; discriminate].
  destruct (canContain (Type_ nt) typ) eqn:Hc.
  - rewrite (climb_stop _ _ _ _ _ Ht Hn Hc) in H. injection H as <-.
    split; [apply openOnly_refl|]. split; [apply sameScalars_refl|].
    split; [auto|]. split; [eauto|].
    intros _ t0 Ht0. split; [|reflexivity]. exists t. split; [assumption|].
    assert (t0 = t) by congruence. lia.
  - rewrite (climb_step _ _ _ _ _ Ht Hn Hc) in H.
    destruct (climb_tip _ _ _ _ _ H) as [q Hq]. simpl in Hq.
    apply IH in H as (Ho & Hs & Hw & Hex & Hfr).
    assert (Hfin : finalize (Some t) p = Ok tt (setTip (Parent nt)
            (setHeap (<[t := withOpen false nt]> (heap p)) p))).
    { apply finalize_Ok. eauto. }
    split; [|split; [|split; [|split]]].
    + eapply openOnly_trans; [|exact Ho]. simpl. now apply openOnly_insert.
    + eapply sameScalars_trans; [|exact Hs]. repeat split.
    + intros Hwf. apply Hw. eapply wf_finalize; eauto.
    + assumption.
    + intros Hwf t0 Ht0. assert (t0 = t) as -> by congruence.
      assert (Hwf' := proj1 (wf_finalize _ _ _ _ Hwf Hfin)).
      destruct (Hfr Hwf' q Hq) as [(t' & Ht' & Hle) Hj].
      destruct Hwf as (Hh & _).
      destruct (wf_parent _ Hh _ _ _ Hn Hq) as [Hlt _].
      split; [exists t'; split; [assumption|lia]|].
      intros j Hlj. rewrite Hj by lia. simpl.
      apply list_lookup_insert_ne. lia.
Qed.
Lemma NewNode_Ok typ p k p' :
  NewNode typ p = Ok k p' <->
  k = length (heap p) /\ p' = setHeap (heap p ++ [freshNode typ]) p.
Proof. unfold NewNode. split; [intros [= <- <-]; auto | intros [-> ->]; auto]. Qed.

Lemma alive_app h x q : alive h q -> alive (h ++ [x]) q.
Proof.
  intros [->|(nq & Hq & Hp)]; [now left|right].
  exists nq. split; [|assumption]. now apply lookup_app_l_Some.
Qed.

Lemma wfHeap_app h x :
  wfHeap h -> Parent x = None -> Children x = [] -> wfHeap (h ++ [x]).
Proof.
  intros [Hc Hp Hr] Hx1 Hx2. split.
  - intros n nd c Hn Hin. rewrite length_app. simpl.
    apply lookup_app_Some in Hn as [Hn|[Hl Hn]].
    + specialize (Hc _ _ _ Hn Hin). lia.
    + apply list_lookup_singleton_Some in Hn as [_ <-].
      rewrite Hx2 in Hin. inversion Hin.
  - intros n nd q Hn Hq.
    apply lookup_app_Some in Hn as [Hn|[Hl Hn]].
    + destruct (Hp _ _ _ Hn Hq). split; [assumption|]. now apply alive_app.
    + apply list_lookup_singleton_Some in Hn as [_ <-]. congruence.
  - destruct Hr as [d Hd]. exists d. now apply lookup_app_l_Some.
Qed.

Lemma wf_NewNode typ p : wf p -> wf (setHeap (heap p ++ [freshNode typ]) p).
Proof.
  intros (Hh & Hd & Ha & Ht). split; [|split; [|split]]; simpl; try assumption.
  - now apply wfHeap_app.
  - intros t Hp. destruct (Ht _ Hp). rewrite length_app. simpl.
    split; [lia|]. now apply alive_app.
Qed.

(** [AppendChild] of a node that has no parent yet. *)
Lemma AppendChild_fresh t k p par nk :
  heap p !! t = Some par -> heap p !! k = Some nk -> Parent nk = None ->
  t <> k ->
  AppendChild (Some t) k p =
  if open par then
    Ok tt (setHeap (<[t := withChildren (Children par ++ [k]) par]>
                      (<[k := withParent (Some t) nk]> (heap p))) p)
  else Err ClosedParent.
Proof.
  intros Ht Hk Hp Hne.
  assert (Hlk : k < length (heap p)) by (eapply lookup_lt_Some; eauto).
  unfold AppendChild, Unlink, update, deref, modify, mbind, M_bind; simpl.
  rewrite Ht. destruct (open par); [|reflexivity].
  rewrite Hk, Hp, Hk. simpl.
  rewrite list_lookup_insert_eq by assumption. simpl.
  rewrite list_insert_insert_eq.
  rewrite list_lookup_insert_ne by auto. rewrite Ht. simpl.
  rewrite list_lookup_insert_ne by auto. rewrite Ht. simpl.
  destruct nk; reflexivity.
Qed.
Lemma closeUnmatchedBlocks_wf p : wf p -> closeUnmatchedBlocks p = Ok tt p.
Proof.
  intros (_ & _ & Ha & _). unfold closeUnmatchedBlocks, mbind, M_bind, gets.
  now rewrite Ha.
Qed.

(** What [addChild] does from a well-formed state: the new node [k] takes
    the next index, hangs below the first node [t] on the way up from the tip
    that can contain it, and becomes the tip; the nodes that were there keep
    everything but their [open] flag, and [t] gains the child. *)
Definition added (typ : NodeType) (p p' : Markdown) (k t : nat) : Prop :=
  k = length (heap p) /\ length (heap p') = S k /\ tip p' = Some k /\
  sameScalars p p' /\ t < k /\
  (exists t0, tip p = Some t0 /\ t <= t0) /\
  (exists nt, heap p !! t = Some nt /\ canContain (Type_ nt) typ = true) /\
  (forall j nd, heap p !! j = Some nd ->
     exists b, heap p' !! j
               = Some (withChildren (if decide (j = t) then Children nd ++ [k]
                                     else Children nd) (withOpen b nd))).

Lemma withChildren_id nd : withChildren (Children nd) nd = nd.
Proof. now destruct nd. Qed.

Lemma alive_link h t k nt nk q :
  h !! t = Some nt -> h !! k = Some nk -> t <> k -> alive h q ->
  alive (<[t := withChildren (Children nt ++ [k]) nt]>
           (<[k := withParent (Some t) nk]> h)) q.
Proof.
  intros Ht Hk Hne [->|(nq & Hq & Hp)]; [now left|right].
  assert (k < length h) by (eapply lookup_lt_Some; eauto).
  assert (t < length h) by (eapply lookup_lt_Some; eauto).
  destruct (decide (q = t)) as [->|Hqt].
  - eexists. rewrite list_lookup_insert_eq by (rewrite length_insert; lia).
    split; [reflexivity|]. simpl. congruence.
  - rewrite list_lookup_insert_ne by auto.
    destruct (decide (q = k)) as [->|Hqk].
    + eexists. rewrite list_lookup_insert_eq by lia. split; [reflexivity|]. discriminate.
    + exists nq. rewrite list_lookup_insert_ne by auto. auto.
Qed.

Lemma wfHeap_link h t k nt nk :
  wfHeap h -> h !! t = Some nt -> h !! k = Some nk ->
  Parent nk = None -> Children nk = [] -> t < k -> alive h t ->
  wfHeap (<[t := withChildren (Children nt ++ [k]) nt]>
            (<[k := withParent (Some t) nk]> h)).
Proof.
  intros [Hc Hp Hr] Ht Hk Hpk Hck Hlt Hal.
  assert (Hlk : k < length h) by (eapply lookup_lt_Some; eauto).
  assert (Hne : t <> k) by lia.
  split.
  - intros n nd c Hn Hin. rewrite !length_insert.
    destruct (decide (n = t)) as [->|Hnt].
    + rewrite list_lookup_insert_eq in Hn by (rewrite length_insert; lia).
      injection Hn as <-. simpl in Hin. apply elem_of_app in Hin as [Hin|Hin].
      * eauto.
      * apply list_elem_of_singleton in Hin as ->. lia.
    + rewrite list_lookup_insert_ne in Hn by auto.
      destruct (decide (n = k)) as [->|Hnk].
      * rewrite list_lookup_insert_eq in Hn by lia. injection Hn as <-.
        simpl in Hin. rewrite Hck in Hin. inversion Hin.
      * rewrite list_lookup_insert_ne in Hn by auto. eauto.
  - intros n nd q Hn Hq.
    assert (q < n /\ alive h q) as [? ?].
    { destruct (decide (n = t)) as [->|Hnt].
      - rewrite list_lookup_insert_eq in Hn by (rewrite length_insert; lia).
        injection Hn as <-. simpl in Hq. eauto.
      - rewrite list_lookup_insert_ne in Hn by auto.
        destruct (decide (n = k)) as [->|Hnk].
        + rewrite list_lookup_insert_eq in Hn by lia. injection Hn as <-.
          simpl in Hq. injection Hq as <-. auto.
        + rewrite list_lookup_insert_ne in Hn by auto. eauto. }
    split; [assumption|]. now apply alive_link.
  - destruct Hr as [d Hd]. apply lookup_lt_is_Some. rewrite !length_insert.
    eapply lookup_lt_Some; eauto.
Qed.

Lemma addChild_Ok typ off p k p' :
  wf p -> addChild typ off p = Ok k p' ->
  wf p' /\ exists t, added typ p p' k t /\
    heap p' !! k = Some (withParent (Some t) (freshNode typ)).
Proof.
  intros Hwf H. unfold addChild, addExistingChild in H.
  apply bind_Ok in H as (k0 & p1 & H1 & H).
  apply NewNode_Ok in H1 as [-> ->].
  set (h := heap p) in *. set (p1 := setHeap (h ++ [freshNode typ]) p) in *.
  assert (Hwf1 : wf p1) by now apply wf_NewNode.
  assert (Hk1 : heap p1 !! length h = Some (freshNode typ)).
  { simpl. now rewrite lookup_app_r, Nat.sub_diag by lia. }
  apply bind_Ok in H as (nd & p1' & H1 & H).
  apply deref_Ok in H1 as [(k' & [= <-] & Hnd) ->].
  assert (nd = freshNode typ) as -> by congruence.
  apply bind_Ok in H as (h1 & p1' & H1 & H). apply gets_Ok in H1 as [-> ->].
  apply bind_Ok in H as ([] & p2 & Hcl & H).
  destruct (climb_tip _ _ _ _ _ Hcl) as [t0 Ht0].
  apply climb_Ok in Hcl as (Ho & Hs & Hw & (t & nt & Ht & Hnt & Hcan) & Hfr).
  specialize (Hw Hwf1).
  destruct (Hfr Hwf1 t0 Ht0) as [(t' & Ht' & Hle) Hj].
  assert (t' = t) as -> by congruence.
  destruct Hwf as (Hh & Hd & Ha & Htip).
  destruct (Htip t0 Ht0) as [Hlt0 _].
  assert (Hk2 : heap p2 !! length h = Some (freshNode typ)).
  { rewrite Hj by (fold h in Hlt0; lia). exact Hk1. }
  apply bind_Ok in H as (tt0 & p2' & H1 & H). apply gets_Ok in H1 as [-> ->].
  rewrite Ht in H.
  apply bind_Ok in H as ([] & p3 & Hap & H).
  rewrite (AppendChild_fresh t (length h) p2 nt (freshNode typ)) in Hap
    by (auto; fold h in Hlt0; lia).
  destruct (open nt) eqn:Hopen; [|discriminate]. injection Hap as <-.
  apply bind_Ok in H as ([] & p4 & H1 & H). apply modify_Ok in H1 as ->.
  apply ret_Ok in H as [<- <-].
  destruct Ho as [Hlen Ho].
  assert (Hth : t < length h) by (fold h in Hlt0; lia).
  destruct (lookup_lt_is_Some_2 h t Hth) as [nt0 Hnt0].
  assert (Hnt1 : heap p1 !! t = Some nt0) by (simpl; now apply lookup_app_l_Some).
  destruct (Ho _ _ Hnt1) as [b Hb].
  assert (nt = withOpen b nt0) as Hnteq by congruence.
  destruct Hw as (Hh2 & Hd2 & Ha2 & Htip2).
  unfold added. split; [split; [|split; [|split]]|]; st_simpl.
  - apply wfHeap_link; auto. apply (Htip2 t Ht).
  - assumption.
  - assumption.
  - intros k [= <-]. rewrite !length_insert. split; [eapply lookup_lt_Some; eauto|].
    right. eexists. rewrite list_lookup_insert_ne by lia.
    rewrite list_lookup_insert_eq by (eapply lookup_lt_Some; eauto).
    split; [reflexivity|discriminate].
  - exists t. split.
    + split; [reflexivity|]. split.
      { rewrite !length_insert, Hlen. unfold p1. st_simpl. rewrite length_app. simpl. lia. }
      split; [reflexivity|]. split.
      { destruct Hs as (?&?&?&?&?&?&?&?). repeat split; assumption. }
      split; [assumption|]. split.
      { exists t0. split; [exact Ht0|assumption]. }
      split.
      { exists nt0. split; [assumption|]. now rewrite Hnteq in Hcan. }
      intros j nd Hjn.
      assert (Hjl : j < length h) by (eapply lookup_lt_Some; eauto).
      assert (Hj1 : heap p1 !! j = Some nd) by (simpl; now apply lookup_app_l_Some).
      destruct (Ho _ _ Hj1) as [b' Hb'].
      exists b'. destruct (decide (j = t)) as [->|Hne].
      * rewrite list_lookup_insert_eq by (rewrite length_insert; eapply lookup_lt_Some; eauto).
        assert (nt = withOpen b' nd) as -> by congruence. reflexivity.
      * rewrite list_lookup_insert_ne by auto.
        rewrite list_lookup_insert_ne by lia. rewrite Hb'.
        now rewrite <- (withChildren_id (withOpen b' nd)) at 1.
    + rewrite list_lookup_insert_ne by lia.
      apply list_lookup_insert_eq. eapply lookup_lt_Some; eauto.
Qed.

Lemma addBlock_Ok typ c p k p' :
  wf p -> addBlock typ c p = Ok k p' ->
  wf p' /\ exists t, added typ p p' k t /\
    heap p' !! k = Some (withContent c (withParent (Some t) (freshNode typ))).
Proof.
  intros Hwf H. unfold addBlock in H.
  apply bind_Ok in H as ([] & p0 & H0 & H).
  rewrite closeUnmatchedBlocks_wf in H0 by assumption. injection H0 as <-.
  apply bind_Ok in H as (k0 & p1 & H1 & H).
  apply addChild_Ok in H1 as (Hwf1 & t & Hadd & Hk); [|assumption].
  apply bind_Ok in H as ([] & p2 & H2 & H). apply ret_Ok in H as [<- <-].
  pose proof H2 as Hu.
  apply wf_update in H2 as (Hwf2 & Htip & Hsc); [|auto with pres|assumption].
  apply update_Ok in Hu as (nd & Hnd & ->).
  assert (nd = withParent (Some t) (freshNode typ)) as -> by congruence.
  split; [assumption|]. exists t. unfold added in *. st_simpl.
  destruct Hadd as (Hk0 & Hlen & Ht & Hs & Hlt & Ht0 & Hnt & Hfr).
  split.
  - split; [assumption|]. split; [simpl; now rewrite length_insert|].
    split; [assumption|]. split; [assumption|]. split; [assumption|].
    split; [assumption|]. split; [assumption|].
    intros j nd Hj. destruct (Hfr _ _ Hj) as [b Hb]. exists b. simpl.
    rewrite list_lookup_insert_ne; [assumption|].
    apply lookup_lt_Some in Hj. lia.
  - simpl. apply list_lookup_insert_eq. eapply lookup_lt_Some; eauto.
Qed.
(** ** Routines that keep the shape of the tree

    [quiet] routines (the flag updates and the looseness scan of
    [finalizeList]) leave the tip and every link alone; [pres] routines keep
    the state well formed and the scalar fields of the processor. *)

Definition linksSame (h h' : list Node) : Prop :=
  length h' = length h /\
  forall j nd, h !! j = Some nd ->
    exists nd', h' !! j = Some nd' /\ Parent nd' = Parent nd /\
                Children nd' = Children nd /\ Type_ nd' = Type_ nd.

Lemma linksSame_refl h : linksSame h h.
Proof. split; [reflexivity|]. intros j nd H. exists nd. auto. Qed.

Lemma linksSame_trans h1 h2 h3 : linksSame h1 h2 -> linksSame h2 h3 -> linksSame h1 h3.
Proof.
  intros [L1 H1] [L2 H2]. split; [congruence|]. intros j nd Hj.
  destruct (H1 _ _ Hj) as (nd' & Hj' & ? & ? & ?).
  destruct (H2 _ _ Hj') as (nd'' & Hj'' & ? & ? & ?).
  exists nd''. repeat split; congruence.
Qed.

Definition keepsType (f : Node -> Node) : Prop := forall nd, Type_ (f nd) = Type_ nd.

Definition quiet {A} (m : M A) : Prop :=
  forall p a p', m p = Ok a p' ->
    tip p' = tip p /\ sameScalars p p' /\ linksSame (heap p) (heap p') /\
    (wf p -> wf p').

(** Nodes are never removed, and keep their type and their parent. *)
Definition parentsKept (h h' : list Node) : Prop :=
  length h <= length h' /\
  forall j nd, h !! j = Some nd ->
    exists nd', h' !! j = Some nd' /\ Parent nd' = Parent nd /\
                Type_ nd' = Type_ nd.

Lemma parentsKept_refl h : parentsKept h h.
Proof. split; [reflexivity|]. intros j nd H. exists nd. auto. Qed.

Lemma parentsKept_trans h1 h2 h3 :
  parentsKept h1 h2 -> parentsKept h2 h3 -> parentsKept h1 h3.
Proof.
  intros [L1 H1] [L2 H2]. split; [lia|]. intros j nd Hj.
  destruct (H1 _ _ Hj) as (nd' & Hj' & ? & ?).
  destruct (H2 _ _ Hj') as (nd'' & Hj'' & ? & ?).
  exists nd''. repeat split; congruence.
Qed.

Lemma linksSame_parentsKept h h' : linksSame h h' -> parentsKept h h'.
Proof.
  intros [L H]. split; [lia|]. intros j nd Hj.
  destruct (H _ _ Hj) as (nd' & ? & ? & ? & ?). eauto.
Qed.

Lemma added_parentsKept typ p p' k t :
  added typ p p' k t -> parentsKept (heap p) (heap p').
Proof.
  intros (-> & Hlen & _ & _ & _ & _ & _ & Hfr). split; [lia|].
  intros j nd Hj. destruct (Hfr _ _ Hj) as [b Hb]. eexists. split; [exact Hb|].
  split; reflexivity.
Qed.

Definition pres {A} (m : M A) : Prop :=
  forall p a p', wf p -> is_Some (tip p) -> m p = Ok a p' ->
    wf p' /\ is_Some (tip p') /\ sameScalars p p' /\
    parentsKept (heap p) (heap p').

Lemma quiet_pres {A} (m : M A) : quiet m -> pres m.
Proof.
  intros H p a p' Hwf Ht Hm. destruct (H _ _ _ Hm) as (Ht' & ? & ? & ?).
  split; [auto|]. split; [now rewrite Ht'|]. split; [assumption|].
  now apply linksSame_parentsKept.
Qed.

Lemma quiet_ret {A} (a : A) : quiet (mret a : M A).
Proof.
  intros p b p' H. apply ret_Ok in H as [_ <-].
  split; [reflexivity|]. split; [apply sameScalars_refl|].
  split; [apply linksSame_refl|auto].
Qed.

Lemma quiet_bind {A B} (m : M A) (f : A -> M B) :
  quiet m -> (forall a, quiet (f a)) -> quiet (m ≫= f).
Proof.
  intros Hm Hf p b p2 H. apply bind_Ok in H as (a & p1 & H1 & H2).
  destruct (Hm _ _ _ H1) as (? & ? & ? & ?).
  destruct (Hf a _ _ _ H2) as (? & ? & ? & ?).
  split; [congruence|]. split; [eapply sameScalars_trans; eauto|].
  split; [eapply linksSame_trans; eauto|auto].
Qed.

Lemma quiet_gets {A} (f : Markdown -> A) : quiet (gets f).
Proof.
  intros p b p' H. apply gets_Ok in H as [_ ->].
  split; [reflexivity|]. split; [apply sameScalars_refl|].
  split; [apply linksSame_refl|auto].
Qed.

Lemma quiet_lift {A} (o : option A) : quiet (lift o).
Proof.
  intros p b p' H. apply lift_Ok in H as [_ ->].
  split; [reflexivity|]. split; [apply sameScalars_refl|].
  split; [apply linksSame_refl|auto].
Qed.

Lemma quiet_fail {A} e : quiet (fail e : M A).
Proof. intros p b p' H. discriminate. Qed.

Lemma quiet_deref n : quiet (deref n).
Proof.
  intros p b p' H. apply deref_Ok in H as [_ ->].
  split; [reflexivity|]. split; [apply sameScalars_refl|].
  split; [apply linksSame_refl|auto].
Qed.

Lemma quiet_update n f : keepsLinks f -> keepsType f -> quiet (update n f).
Proof.
  intros Hl Hty p [] p' H. destruct n as [k|]; [|now apply update_None in H].
  pose proof H as Hu. apply update_Ok in Hu as (nd & Hk & ->).
  split; [reflexivity|]. split; [repeat split|]. split.
  - split; [apply length_insert|]. st_simpl. intros j nd' Hj.
    destruct (decide (k = j)) as [->|Hne].
    + exists (f nd). rewrite list_lookup_insert_eq by (eapply lookup_lt_Some; eauto).
      assert (nd' = nd) as -> by congruence.
      destruct (Hl nd). rewrite Hty. auto.
    + exists nd'. rewrite list_lookup_insert_ne by assumption. auto.
  - intros Hwf. eapply wf_update; eauto.
Qed.

Lemma pres_ret {A} (a : A) : pres (mret a : M A).
Proof. apply quiet_pres, quiet_ret. Qed.
Lemma pres_gets {A} (f : Markdown -> A) : pres (gets f).
Proof. apply quiet_pres, quiet_gets. Qed.
Lemma pres_lift {A} (o : option A) : pres (lift o).
Proof. apply quiet_pres, quiet_lift. Qed.
Lemma pres_fail {A} e : pres (fail e : M A).
Proof. apply quiet_pres, quiet_fail. Qed.
Lemma pres_deref n : pres (deref n).
Proof. apply quiet_pres, quiet_deref. Qed.

Lemma pres_bind {A B} (m : M A) (f : A -> M B) :
  pres m -> (forall a, pres (f a)) -> pres (m ≫= f).
Proof.
  intros Hm Hf p b p2 Hwf Ht H. apply bind_Ok in H as (a & p1 & H1 & H2).
  destruct (Hm _ _ _ Hwf Ht H1) as (Hwf1 & Ht1 & ? & ?).
  destruct (Hf a _ _ _ Hwf1 Ht1 H2) as (? & ? & ? & ?).
  split; [assumption|]. split; [assumption|].
  split; [eapply sameScalars_trans; eauto|eapply parentsKept_trans; eauto].
Qed.

Lemma pres_addBlock typ c : pres (addBlock typ c).
Proof.
  intros p a p' Hwf _ H. apply addBlock_Ok in H as (? & t & Hadd & _); [|assumption].
  split; [assumption|]. split; [|split].
  - destruct Hadd as (_ & _ & -> & _). eauto.
  - apply Hadd.
  - eapply added_parentsKept; eauto.
Qed.

Lemma pres_addChild typ off : pres (addChild typ off).
Proof.
  intros p a p' Hwf _ H. apply addChild_Ok in H as (? & t & Hadd & _); [|assumption].
  split; [assumption|]. split; [|split].
  - destruct Hadd as (_ & _ & -> & _). eauto.
  - apply Hadd.
  - eapply added_parentsKept; eauto.
Qed.

Lemma keepsType_withOpen b : keepsType (withOpen b).
Proof. intros nd. reflexivity. Qed.
Lemma keepsType_withContent c : keepsType (withContent c).
Proof. intros nd. reflexivity. Qed.
Lemma keepsType_withTight b : keepsType (withTight b).
Proof. intros nd. reflexivity. Qed.
Lemma keepsType_withListFlags z : keepsType (withListFlags z).
Proof. intros nd. reflexivity. Qed.
Lemma keepsType_withBullet b d : keepsType (withBullet b d).
Proof. intros nd. reflexivity. Qed.
Lemma keepsType_withCell b z : keepsType (withCell b z).
Proof. intros nd. reflexivity. Qed.

#[export] Hint Resolve keepsType_withOpen keepsType_withContent
  keepsType_withTight keepsType_withListFlags keepsType_withBullet
  keepsType_withCell : pres.
#[export] Hint Resolve quiet_ret quiet_gets quiet_lift quiet_fail quiet_deref
  quiet_update pres_ret pres_gets pres_lift pres_fail pres_deref
  pres_addBlock pres_addChild : pres.

(** Splits a goal about a routine along the structure of the routine. *)
Ltac quiet_go :=
  repeat match goal with
  | |- quiet (_ ≫= _) => apply quiet_bind; [|intros]
  | |- quiet (if ?b then _ else _) => destruct b
  | |- quiet (match ?x with _ => _ end) => destruct x
  | |- quiet _ => solve [auto with pres]
  end.

Ltac pres_go :=
  repeat match goal with
  | |- pres (_ ≫= _) => apply pres_bind; [|intros]
  | |- pres (if ?b then _ else _) => destruct b
  | |- pres (match ?x with _ => _ end) => destruct x
  | |- pres _ => solve [auto with pres]
  | |- pres _ => solve [apply quiet_pres; auto with pres]
  end.

Lemma quiet_endsWithBlankLine fuel block : quiet (endsWithBlankLine fuel block).
Proof.
  revert block. induction fuel as [|fuel IH]; intros block; simpl.
  - apply quiet_fail.
  - destruct block; quiet_go.
Qed.

Lemma quiet_endsBlank block : quiet (endsBlank block).
Proof. unfold endsBlank. quiet_go. apply quiet_endsWithBlankLine. Qed.
#[export] Hint Resolve quiet_endsBlank : pres.

Lemma quiet_subItems block hasNext l : quiet (subItems block hasNext l).
Proof. induction l as [|x l IH]; simpl; quiet_go. Qed.
#[export] Hint Resolve quiet_subItems : pres.

Lemma quiet_items block l : quiet (items block l).
Proof. induction l as [|x l IH]; simpl; quiet_go. Qed.
#[export] Hint Resolve quiet_items : pres.

Lemma quiet_finalizeList block : quiet (finalizeList block).
Proof. unfold finalizeList. quiet_go. Qed.

Lemma pres_renderParagraph data : pres (renderParagraph data).
Proof. unfold renderParagraph. pres_go. Qed.
#[export] Hint Resolve pres_renderParagraph : pres.
(** ** Facts about the scanning loops *)

Lemma advance_ge cond fuel i : i <= advance cond fuel i.
Proof.
  revert i. induction fuel as [|f IH]; intros i; simpl; [lia|].
  destruct (cond i); [|lia]. specialize (IH (S i)). lia.
Qed.

Lemma advance_le cond fuel i : advance cond fuel i <= i + fuel.
Proof.
  revert i. induction fuel as [|f IH]; intros i; simpl; [lia|].
  destruct (cond i); [|lia]. specialize (IH (S i)). lia.
Qed.

Lemma advance_all cond fuel i k :
  i <= k < advance cond fuel i -> cond k = true.
Proof.
  revert i. induction fuel as [|f IH]; intros i; simpl; [lia|].
  destruct (cond i) eqn:E; [|lia]. intros H.
  destruct (decide (k = i)) as [->|]; [assumption|]. apply (IH (S i)). lia.
Qed.

Lemma advance_stop cond fuel i :
  advance cond fuel i < i + fuel -> cond (advance cond fuel i) = false.
Proof.
  revert i. induction fuel as [|f IH]; intros i; simpl; [lia|].
  destruct (cond i) eqn:E; [|auto]. intros H. apply IH. lia.
Qed.

Lemma skipWhile_ge P data i : i <= skipWhile P data i.
Proof. apply advance_ge. Qed.

Lemma skipWhile_le P data i : i <= length data -> skipWhile P data i <= length data.
Proof. intros H. unfold skipWhile. etransitivity; [apply advance_le|lia]. Qed.

Lemma skipWhile_all P data i k :
  i <= k < skipWhile P data i -> k < length data /\ P (get data k) = true.
Proof.
  intros H. apply advance_all in H. apply andb_true_iff in H as [H1 H2].
  apply Nat.ltb_lt in H1. auto.
Qed.

Lemma skipWhile_stop P data i :
  skipWhile P data i < length data -> P (get data (skipWhile P data i)) = false.
Proof.
  intros H. unfold skipWhile in *.
  pose proof (advance_ge (fun j => inb data j && P (get data j)) (length data - i) i).
  assert (Hs : advance (fun j => inb data j && P (get data j)) (length data - i) i
               < i + (length data - i)) by lia.
  apply advance_stop in Hs.
  apply andb_false_iff in Hs as [Hs|Hs]; [|assumption].
  apply Nat.ltb_ge in Hs. lia.
Qed.

Lemma pastNewline_ge data i : i <= pastNewline data i.
Proof. unfold pastNewline. destruct (_ && _); lia. Qed.

Lemma pastNewline_le data i : i <= length data -> pastNewline data i <= length data.
Proof.
  unfold pastNewline, inb. destruct (i <? length data) eqn:E; simpl.
  - apply Nat.ltb_lt in E. destruct (isc NL (get data i)); lia.
  - lia.
Qed.

Lemma underlineLoop_ge data colCount fuel i col columns ok i' col' columns' :
  underlineLoop data colCount fuel i col columns = Some (ok, i', col', columns') ->
  i <= i'.
Proof.
  revert i col columns. induction fuel as [|fuel IH]; intros i col columns H; simpl in H.
  - injection H as <- <- <- <-. lia.
  - destruct (inb data i && notc NL (get data i)); [|injection H as <- <- <- <-; lia].
    apply bind_Some in H as ([[i1 d1] c1] & H1 & H).
    assert (i <= i1).
    { destruct (isc ":" (get data i)).
      - apply bind_Some in H1 as (? & _ & [= <- <- <-]). lia.
      - injection H1 as <- <- <-. lia. }
    apply bind_Some in H as ([[i2 d2] c2] & H2 & H).
    pose proof (skipWhile_ge (isc "-") data i1).
    assert (skipWhile (isc "-") data i1 <= i2).
    { destruct (inb data _ && isc ":" _).
      - apply bind_Some in H2 as (? & _ & [= <- <- <-]). lia.
      - injection H2 as <- <- <-. lia. }
    pose proof (skipWhile_ge (isc " ") data i2).
    repeat match goal with
    | H : (if ?b then _ else _) = Some _ |- _ => destruct b
    | H : Some _ = Some _ |- _ => injection H as <- <- <- <-
    end;
    try match goal with
    | H : underlineLoop _ _ _ _ _ _ = Some _ |- _ => apply IH in H
    end;
    pose proof (skipWhile_ge (isc " ") data (skipWhile (isc " ") data i2 + 1));
    lia.
Qed.

Lemma tableHeaderScan_pos data i columns header :
  tableHeaderScan data = Some (true, i, columns, header) -> 0 < i.
Proof.
  unfold tableHeaderScan. destruct (headerPipes _ _ _ _) as [i0 cc].
  destruct (cc =? 1); [discriminate|].
  intros H. apply bind_Some in H as (hdr & _ & H).
  apply bind_Some in H as (c0 & _ & H).
  destruct (length data <=? i0 + 1); [discriminate|].
  apply bind_Some in H as ([[[ok i1] col] cols] & H1 & H).
  apply underlineLoop_ge in H1.
  pose proof (skipWhile_ge (isc " ") data
    (if isc "|" (get data (i0 + 1)) && negb (isBackslashEscaped data (i0 + 1))
     then i0 + 1 + 1 else i0 + 1)).
  unfold skipChar in H1.
  destruct ok; simpl in H; [|discriminate].
  destruct (col =? _); simpl in H; [|discriminate].
  injection H as <- _ _. destruct (_ && _); lia.
Qed.

(** Detaching the node that was added last. *)
Lemma alive_detach h k t nk nt q :
  h !! k = Some nk -> h !! t = Some nt -> t <> k -> q <> k -> alive h q ->
  alive (<[k := withParent None nk]>
           (<[t := withChildren (filter (fun c => c ≠ k) (Children nt)) nt]> h)) q.
Proof.
  intros Hk Ht Hne Hqk [->|(nq & Hq & Hpq)]; [now left|right].
  assert (t < length h) by (eapply lookup_lt_Some; eauto).
  rewrite list_lookup_insert_ne by auto.
  destruct (decide (q = t)) as [->|Hqt].
  - eexists. rewrite list_lookup_insert_eq by lia. split; [reflexivity|].
    simpl. congruence.
  - exists nq. rewrite list_lookup_insert_ne by auto. auto.
Qed.

Lemma wfHeap_detach h k t nk nt :
  wfHeap h -> S k = length h -> h !! k = Some nk -> Parent nk = Some t ->
  h !! t = Some nt ->
  wfHeap (<[k := withParent None nk]>
            (<[t := withChildren (filter (fun c => c ≠ k) (Children nt)) nt]> h)).
Proof.
  intros [Hc Hp Hr] Hlen Hk Hpk Ht.
  destruct (Hp _ _ _ Hk Hpk) as [Hlt _].
  assert (Hne : t <> k) by lia.
  assert (Hkl : k < length h) by lia.
  assert (Htl : t < length h) by lia.
  split.
  - intros n nd c Hn Hin. rewrite !length_insert.
    destruct (decide (n = k)) as [->|Hnk].
    + rewrite list_lookup_insert_eq in Hn by (rewrite length_insert; lia).
      injection Hn as <-. simpl in Hin. eauto.
    + rewrite list_lookup_insert_ne in Hn by auto.
      destruct (decide (n = t)) as [->|Hnt].
      * rewrite list_lookup_insert_eq in Hn by lia. injection Hn as <-.
        simpl in Hin. apply list_elem_of_filter in Hin as [_ Hin]. eauto.
      * rewrite list_lookup_insert_ne in Hn by auto. eauto.
  - intros n nd q Hn Hq.
    assert (q < n /\ alive h q /\ n < length h) as (? & ? & ?).
    { destruct (decide (n = k)) as [->|Hnk].
      - rewrite list_lookup_insert_eq in Hn by (rewrite length_insert; lia).
        injection Hn as <-. simpl in Hq. discriminate.
      - rewrite list_lookup_insert_ne in Hn by auto.
        destruct (decide (n = t)) as [->|Hnt].
        + rewrite list_lookup_insert_eq in Hn by lia. injection Hn as <-.
          simpl in Hq. destruct (Hp _ _ _ Ht Hq). auto.
        + rewrite list_lookup_insert_ne in Hn by auto.
          destruct (Hp _ _ _ Hn Hq). apply lookup_lt_Some in Hn. auto. }
    split; [assumption|]. eapply alive_detach; eauto. lia.
  - apply lookup_lt_is_Some. rewrite !length_insert.
    destruct Hr as [d Hd]. eapply lookup_lt_Some; eauto.
Qed.

Lemma Unlink_linked k p nk t nt :
  heap p !! k = Some nk -> Parent nk = Some t -> heap p !! t = Some nt ->
  t <> k ->
  Unlink (Some k) p =
  Ok tt (setHeap (<[k := withParent None nk]>
            (<[t := withChildren (filter (fun c => c ≠ k) (Children nt)) nt]>
               (heap p))) p).
Proof.
  intros Hk Hp Ht Hne.
  unfold Unlink, update, deref, modify, mbind, M_bind; simpl.
  rewrite Hk, Hp, Ht. simpl. rewrite Ht. simpl.
  rewrite list_lookup_insert_ne by auto. rewrite Hk. reflexivity.
Qed.

Section BlockParsersPres.

Variable blockrec : bytes -> M unit.
Hypothesis blockrec_pres : forall d, pres (blockrec d).

#[local] Hint Resolve blockrec_pres : pres.

(** [finalize] of a node that has a parent. *)
Lemma wf_finalize_child k p nd t u p' :
  wf p -> heap p !! k = Some nd -> Parent nd = Some t ->
  finalize (Some k) p = Ok u p' ->
  wf p' /\ tip p' = Some t /\ sameScalars p p' /\
  parentsKept (heap p) (heap p').
Proof.
  intros Hwf Hk Hp H. pose proof H as H'.
  apply wf_finalize in H' as [Hwf' Hs]; [|assumption].
  apply finalize_Ok in H as (k' & nd' & [= <-] & Hk' & ->).
  assert (nd' = nd) as -> by congruence.
  split; [assumption|]. split; [st_simpl; assumption|]. split; [assumption|].
  st_simpl. apply linksSame_parentsKept. split; [apply length_insert|].
  intros j ndj Hj. destruct (decide (k = j)) as [->|Hne].
  - eexists. rewrite list_lookup_insert_eq by (eapply lookup_lt_Some; eauto).
    split; [reflexivity|]. assert (ndj = nd) as -> by congruence. auto.
  - exists ndj. rewrite list_lookup_insert_ne by assumption. auto.
Qed.

Lemma pres_quote data : pres (quote blockrec data).
Proof.
  unfold quote. intros p r p' Hwf Ht H.
  apply bind_Ok in H as (k & p1 & H1 & H).
  apply addBlock_Ok in H1 as (Hwf1 & t & Hadd & Hk); [|assumption].
  apply bind_Ok in H as ([raw e] & p1' & H1 & H). apply lift_Ok in H1 as [_ ->].
  apply bind_Ok in H as ([] & p2 & H2 & H).
  apply blockrec_pres in H2 as (Hwf2 & Ht2 & Hs2 & Hk2); [|assumption|].
  2:{ destruct Hadd as (_ & _ & -> & _). eauto. }
  apply bind_Ok in H as ([] & p3 & H3 & H). apply ret_Ok in H as [_ <-].
  destruct (proj2 Hk2 _ _ Hk) as (nd' & Hnd' & Hp' & _).
  simpl in Hp'.
  destruct (wf_finalize_child _ _ _ _ _ _ Hwf2 Hnd' Hp' H3) as (Hwf3 & Ht3 & Hs3 & Hk3).
  split; [assumption|]. split; [rewrite Ht3; eauto|]. split.
  - eapply sameScalars_trans; [apply Hadd|]. eapply sameScalars_trans; eauto.
  - eapply parentsKept_trans; [eapply added_parentsKept; eauto|].
    eapply parentsKept_trans; eauto.
Qed.
#[local] Hint Resolve pres_quote : pres.

Lemma pres_rowCells data columns header fuel col i :
  pres (rowCells data columns header fuel col i).
Proof.
  revert col i. induction fuel as [|fuel IH]; intros col i; simpl; pres_go.
Qed.

Lemma pres_padCells columns header fuel col :
  pres (padCells columns header fuel col).
Proof. revert col. induction fuel as [|fuel IH]; intros col; simpl; pres_go. Qed.

#[local] Hint Resolve pres_rowCells pres_padCells : pres.

Lemma pres_tableRow data columns header : pres (tableRow data columns header).
Proof. unfold tableRow. pres_go. Qed.
#[local] Hint Resolve pres_tableRow : pres.

Lemma pres_tableHeader data : pres (tableHeader data).
Proof. unfold tableHeader. pres_go. Qed.

Lemma pres_tableRows data columns fuel i : pres (tableRows data columns fuel i).
Proof. revert i. induction fuel as [|fuel IH]; intros i; simpl; pres_go. Qed.
#[local] Hint Resolve pres_tableHeader pres_tableRows : pres.

Lemma tableHeader_Ok data p i columns p' :
  tableHeader data p = Ok (i, columns) p' ->
  (i = 0 /\ p' = p) \/ 0 < i.
Proof.
  unfold tableHeader. intros H.
  apply bind_Ok in H as ([[[ok i0] cols] hdr] & p0 & H0 & H).
  apply lift_Ok in H0 as [H0 ->].
  destruct ok.
  - right. apply tableHeaderScan_pos in H0.
    apply bind_Ok in H as (? & ? & _ & H).
    apply bind_Ok in H as (? & ? & _ & H).
    apply ret_Ok in H as [[= <- _] _].
    pose proof (pastNewline_ge data i0). lia.
  - left. apply ret_Ok in H as [[= <- _] <-]. auto.
Qed.

Lemma pres_table data : pres (table data).
Proof.
  unfold table. intros p r p' Hwf Ht0 H.
  apply bind_Ok in H as (k & p1 & H1 & H).
  apply addBlock_Ok in H1 as (Hwf1 & t & Hadd & Hk); [|assumption].
  assert (Ht1 : is_Some (tip p1)) by (destruct Hadd as (_ & _ & -> & _); eauto).
  pose proof (added_parentsKept _ _ _ _ _ Hadd) as Hpk1.
  apply bind_Ok in H as ([i columns] & p2 & H2 & H).
  pose proof H2 as H2'.
  apply pres_tableHeader in H2' as (Hwf2 & Ht2 & Hs2 & Hpk2); [|assumption..].
  destruct Hadd as (Hk0 & Hlen & _ & Hs1 & Hlt & _ & _ & Hfr).
  apply tableHeader_Ok in H2 as [[-> ->]|Hpos].
  - simpl in H.
    apply bind_Ok in H as (nd & p3 & H3 & H).
    apply deref_Ok in H3 as [(k' & [= <-] & Hnd) ->].
    assert (nd = withContent None (withParent (Some t) (freshNode Table))) as ->
      by congruence.
    apply bind_Ok in H as ([] & p3 & H3 & H). apply modify_Ok in H3 as ->.
    apply bind_Ok in H as ([] & p4 & H4 & H). apply ret_Ok in H as [_ <-].
    destruct Hwf1 as (Hh & Hd & Ha & Htip).
    destruct (wf_parent _ Hh _ _ _ Hk eq_refl) as [_ Hal].
    assert (Htl : t < length (heap p1)) by lia.
    destruct (lookup_lt_is_Some_2 _ _ Htl) as [nt Hnt].
    rewrite (Unlink_linked k _ _ t nt) in H4
      by (st_simpl; first [eassumption|reflexivity|lia]).
    injection H4 as <-. st_simpl.
    split; [|split; [eauto|split;
      [eapply sameScalars_trans; [exact Hs1|repeat split]|]]].
    + split; [|split; [|split]]; st_simpl; try assumption.
      * eapply wfHeap_detach; eauto.
      * intros t' [= <-]. rewrite !length_insert. split; [assumption|].
        eapply alive_detach; eauto; lia.
    + split; [rewrite !length_insert; lia|]. intros j nd Hj.
      assert (j < k) by (apply lookup_lt_Some in Hj; lia).
      rewrite list_lookup_insert_ne by lia.
      destruct (Hfr _ _ Hj) as [b Hb].
      destruct (decide (j = t)) as [->|Hne].
      * eexists. rewrite list_lookup_insert_eq by lia. split; [reflexivity|].
        assert (nt = withChildren (Children nd ++ [k]) (withOpen b nd)) as ->
          by congruence. auto.
      * eexists. rewrite list_lookup_insert_ne by auto. split; [exact Hb|]. auto.
  - destruct i; [lia|]. simpl in H.
    assert (Hp : pres (addBlock TableBody None ≫= fun _ =>
               tableRows data columns (length data - S i) (S i)))
      by pres_go.
    destruct (Hp _ _ _ Hwf2 Ht2 H) as (? & ? & ? & ?).
    split; [assumption|]. split; [assumption|]. split.
    + eapply sameScalars_trans; [exact Hs1|]. eapply sameScalars_trans; eauto.
    + eapply parentsKept_trans; [exact Hpk1|]. eapply parentsKept_trans; eauto.
Qed.
#[local] Hint Resolve pres_table : pres.

Lemma pres_listItem data flags : pres (listItem blockrec data flags).
Proof. unfold listItem. pres_go. Qed.
#[local] Hint Resolve pres_listItem : pres.

Lemma pres_listLoop data block fuel i flags :
  pres (listLoop blockrec data block fuel i flags).
Proof.
  revert i flags. induction fuel as [|fuel IH]; intros i flags; simpl; pres_go.
Qed.
#[local] Hint Resolve pres_listLoop : pres.

Lemma pres_list data flags : pres (list_ blockrec data flags).
Proof.
  unfold list_. intros p r p' Hwf Ht0 H.
  apply bind_Ok in H as (k & p1 & H1 & H).
  apply addBlock_Ok in H1 as (Hwf1 & t & Hadd & Hk); [|assumption].
  assert (Ht1 : is_Some (tip p1)) by (destruct Hadd as (_ & _ & -> & _); eauto).
  pose proof (added_parentsKept _ _ _ _ _ Hadd) as Hpk1.
  assert (Hs1 : sameScalars p p1) by apply Hadd.
  apply bind_Ok in H as ([] & p2 & H2 & H).
  apply (quiet_pres _ (quiet_update _ _ (keepsLinks_withListFlags _)
           (keepsType_withListFlags _))) in H2 as (Hwf2 & Ht2 & Hs2 & Hpk2);
    [|assumption..].
  apply bind_Ok in H as ([] & p3 & H3 & H).
  apply (quiet_pres _ (quiet_update _ _ (keepsLinks_withTight _)
           (keepsType_withTight _))) in H3 as (Hwf3 & Ht3 & Hs3 & Hpk3);
    [|assumption..].
  apply bind_Ok in H as (i & p4 & H4 & H).
  apply pres_listLoop in H4 as (Hwf4 & Ht4 & Hs4 & Hpk4); [|assumption..].
  apply bind_Ok in H as (nd & p4' & H5 & H).
  apply deref_Ok in H5 as [(k' & [= <-] & Hnd) ->].
  apply bind_Ok in H as ([] & p5 & H5 & H).
  apply quiet_finalizeList in H5 as (Ht5 & Hs5 & Hl5 & Hw5).
  apply bind_Ok in H as ([] & p6 & H6 & H). apply modify_Ok in H6 as ->.
  apply ret_Ok in H as [_ <-].
  assert (Hpk : parentsKept (heap p1) (heap p4)).
  { eapply parentsKept_trans; [exact Hpk2|].
    eapply parentsKept_trans; [exact Hpk3|exact Hpk4]. }
  destruct (proj2 Hpk _ _ Hk) as (nd4 & Hnd4 & Hp4 & _).
  assert (nd4 = nd) as -> by congruence. simpl in Hp4.
  destruct (proj2 Hl5 _ _ Hnd) as (nd5 & Hnd5 & Hp5 & _).
  split; [|split; [|split]].
  - rewrite <- Hp5. eapply wf_setTip_parent; eauto.
  - st_simpl. rewrite Hp4. eauto.
  - eapply sameScalars_trans; [exact Hs1|].
    eapply sameScalars_trans; [exact Hs2|].
    eapply sameScalars_trans; [exact Hs3|].
    eapply sameScalars_trans; [exact Hs4|].
    eapply sameScalars_trans; [exact Hs5|repeat split].
  - st_simpl. eapply parentsKept_trans; [exact Hpk1|].
    eapply parentsKept_trans; [exact Hpk|]. now apply linksSame_parentsKept.
Qed.
#[local] Hint Resolve pres_list : pres.

Lemma pres_paragraphLoop data fuel prev line i :
  pres (paragraphLoop blockrec data fuel prev line i).
Proof.
  revert prev line i. induction fuel as [|fuel IH]; intros prev line i;
    simpl; pres_go.
Qed.

Lemma pres_paragraph data : pres (paragraph blockrec data).
Proof. unfold paragraph. apply pres_paragraphLoop. Qed.
#[local] Hint Resolve pres_paragraph : pres.

Lemma pres_blockIter data : pres (blockIter blockrec data).
Proof. unfold blockIter. pres_go. Qed.
#[local] Hint Resolve pres_blockIter : pres.

Lemma pres_blockLoop fuel data : pres (blockLoop blockrec fuel data).
Proof.
  revert data. induction fuel as [|fuel IH]; intros data; destruct data;
    simpl; pres_go.
Qed.

End BlockParsersPres.

Lemma wf_setNesting n p : wf p -> wf (setNesting n p).
Proof. intros (Hh & Hd & Ha & Ht). split; [exact Hh|split; [exact Hd|split; [exact Ha|exact Ht]]]. Qed.

Lemma pres_block fuel data : pres (block fuel data).
Proof.
  revert data. induction fuel as [|fuel IH]; intros data.
  - simpl. pres_go.
  - intros p r p' Hwf Ht H. simpl in H.
    apply bind_Ok in H as (n & p0 & H0 & H). apply gets_Ok in H0 as [-> ->].
    apply bind_Ok in H as (mx & p0 & H0 & H). apply gets_Ok in H0 as [-> ->].
    destruct (maxNesting p <=? nesting p).
    { apply ret_Ok in H as [_ <-]. split; [assumption|]. split; [assumption|].
      split; [apply sameScalars_refl|apply parentsKept_refl]. }
    apply bind_Ok in H as ([] & p1 & H1 & H). apply modify_Ok in H1 as ->.
    apply bind_Ok in H as ([] & p2 & H2 & H).
    assert (Hwf1 : wf (setNesting (nesting p + 1) p)) by now apply wf_setNesting.
    destruct (pres_blockLoop (block fuel) IH fuel data _ _ _ Hwf1 Ht H2)
      as (Hwf2 & Ht2 & Hs2 & Hpk2).
    apply bind_Ok in H as (n & p3 & H3 & H). apply gets_Ok in H3 as [-> ->].
    apply modify_Ok in H as ->.
    split; [now apply wf_setNesting|]. split; [assumption|]. split; [|assumption].
    destruct Hs2 as (?&Hn&?&?&?&?&?&?). st_simpl.
    repeat split; st_simpl; try assumption. rewrite Hn. lia.
Qed.
(** ** The closing loop of [Parse] *)

Lemma finishLoop_unfold fuel p :
  finishLoop fuel p =
  match tip p with
  | None => Ok tt p
  | Some t => match fuel with
              | 0 => Err OutOfFuel
              | S f => (finalize (Some t) ≫= fun _ => finishLoop f) p
              end
  end.
Proof. destruct fuel; simpl; unfold mbind at 1, M_bind, gets; destruct (tip p); reflexivity. Qed.

Lemma finishLoop_Ok fuel p u p' :
  wf p -> finishLoop fuel p = Ok u p' ->
  wf p' /\ tip p' = None /\ sameScalars p p' /\ openOnly (heap p) (heap p') /\
  (is_Some (tip p) -> exists d, heap p' !! 0 = Some d /\ open d = false).
Proof.
  destruct u. revert p. induction fuel as [|fuel IH]; intros p Hwf H;
    rewrite finishLoop_unfold in H; destruct (tip p) as [t|] eqn:Ht;
    try discriminate.
  1,3: injection H as <-; split; [assumption|]; split; [assumption|];
       split; [apply sameScalars_refl|]; split; [apply openOnly_refl|];
       intros [? [=]].
  apply bind_Ok in H as ([] & p1 & H1 & H).
  pose proof H1 as H1'. apply wf_finalize in H1' as [Hwf1 Hs1]; [|assumption].
  apply finalize_Ok in H1 as (k & nt & [= <-] & Hnt & ->).
  destruct (IH _ Hwf1 H) as (Hwf' & Ht' & Hs' & Ho' & Hd').
  split; [assumption|]. split; [assumption|].
  split; [eapply sameScalars_trans; [exact Hs1|exact Hs']|].
  split; [eapply openOnly_trans; [|exact Ho']; st_simpl; now apply openOnly_insert|].
  intros _. st_simpl. destruct (Parent nt) as [q|] eqn:Hq.
  - apply Hd'. eauto.
  - destruct Hwf as (Hh & _ & _ & Htip). destruct (Htip _ Ht) as [Hlt Hal].
    destruct Hal as [->|(nq & Hnq & Hpq)]; [|congruence].
    assert (Hz : <[0 := withOpen false nt]> (heap p) !! 0 = Some (withOpen false nt))
      by now apply list_lookup_insert_eq.
    destruct (proj2 Ho' _ _ Hz) as [b Hb].
    rewrite finishLoop_unfold in H. st_simpl. injection H as <-.
    exists (withOpen false nt). auto.
Qed.

Lemma finishLoop_total fuel p :
  wf p -> (forall t, tip p = Some t -> t < fuel) ->
  exists p', finishLoop fuel p = Ok tt p'.
Proof.
  revert p. induction fuel as [|fuel IH]; intros p Hwf Hf;
    rewrite finishLoop_unfold; destruct (tip p) as [t|] eqn:Ht; eauto.
  - specialize (Hf t eq_refl). lia.
  - destruct Hwf as (Hh & Hd & Ha & Htip). destruct (Htip _ Ht) as [Hlt Hal].
    destruct (lookup_lt_is_Some_2 _ _ Hlt) as [nt Hnt].
    assert (Hfin : finalize (Some t) p = Ok tt (setTip (Parent nt)
              (setHeap (<[t := withOpen false nt]> (heap p)) p))).
    { apply finalize_Ok. eauto. }
    unfold mbind, M_bind. rewrite Hfin. apply IH.
    + eapply wf_finalize; [|exact Hfin].
      split; [exact Hh|split; [exact Hd|split; [exact Ha|exact Htip]]].
    + st_simpl. intros q Hq. destruct (wf_parent _ Hh _ _ _ Hnt Hq).
      specialize (Hf t eq_refl). lia.
Qed.

Lemma wf_New e : wf (New e).
Proof.
  split; [|split; [reflexivity|split; [reflexivity|]]].
  - split.
    + intros n nd c Hn Hin. destruct n; simpl in Hn; [|discriminate].
      injection Hn as <-. inversion Hin.
    + intros n nd q Hn Hq. destruct n; simpl in Hn; [|discriminate].
      injection Hn as <-. discriminate.
    + simpl. eauto.
  - intros t [= <-]. simpl. split; [lia|now left].
Qed.
(** ** The inline pass

    What the second walk of [Parse] may change: a leaf gains inline children
    and loses its raw content; nothing else moves. *)

Definition leafTarget (t : NodeType) : bool :=
  NodeType_eqb t Paragraph || NodeType_eqb t TableCell.

Definition grows (p p' : Markdown) : Prop :=
  tip p' = tip p /\ sameScalars p p' /\
  length (heap p) <= length (heap p') /\
  (forall m nd, heap p !! m = Some nd ->
     exists extra c',
       heap p' !! m = Some (withContent c' (withChildren (Children nd ++ extra) nd)) /\
       (c' = content nd \/ c' = None) /\
       (forall c, c ∈ extra -> length (heap p) <= c < length (heap p')) /\
       (leafTarget (Type_ nd) = false -> extra = [] /\ c' = content nd)) /\
  (forall m nd', length (heap p) <= m -> heap p' !! m = Some nd' ->
     exists k, nd' = withParent (Parent nd') (freshNode (InlineNode k))).

Lemma node_same nd : withContent (content nd) (withChildren (Children nd ++ []) nd) = nd.
Proof. rewrite app_nil_r. now destruct nd. Qed.

Lemma grows_refl p : grows p p.
Proof.
  split; [reflexivity|]. split; [apply sameScalars_refl|]. split; [reflexivity|].
  split.
  - intros m nd H. exists [], (content nd). rewrite node_same.
    split; [assumption|]. split; [now left|]. split; [|auto].
    intros c Hc. inversion Hc.
  - intros m nd' Hm H. apply lookup_lt_Some in H. lia.
Qed.

Lemma grows_trans p1 p2 p3 : grows p1 p2 -> grows p2 p3 -> grows p1 p3.
Proof.
  intros (Ht1 & Hs1 & Hl1 & Ho1 & Hn1) (Ht2 & Hs2 & Hl2 & Ho2 & Hn2).
  split; [congruence|]. split; [eapply sameScalars_trans; eauto|].
  split; [lia|]. split.
  - intros m nd Hm.
    destruct (Ho1 _ _ Hm) as (e1 & c1 & Hm1 & Hc1 & He1 & Hleaf1).
    destruct (Ho2 _ _ Hm1) as (e2 & c2 & Hm2 & Hc2 & He2 & Hleaf2).
    simpl in *.
    exists (e1 ++ e2), c2. split; [|split; [|split]].
    + rewrite Hm2. rewrite <- app_assoc. reflexivity.
    + destruct Hc2 as [-> | ->]; [|now right]. assumption.
    + intros c Hc. apply elem_of_app in Hc as [Hc|Hc].
      * specialize (He1 _ Hc). lia.
      * specialize (He2 _ Hc). lia.
    + intros Hleaf. destruct (Hleaf1 Hleaf) as [-> ->].
      destruct (Hleaf2 Hleaf) as [-> ->]. auto.
  - intros m nd' Hm H.
    destruct (decide (m < length (heap p2))) as [Hlt|Hge].
    + destruct (lookup_lt_is_Some_2 _ _ Hlt) as [nd2 Hnd2].
      destruct (Hn1 _ _ Hm Hnd2) as [k Hk].
      destruct (Ho2 _ _ Hnd2) as (e2 & c2 & Hm2 & Hc2 & He2 & Hleaf2).
      assert (Hl : leafTarget (Type_ nd2) = false) by (rewrite Hk; reflexivity).
      destruct (Hleaf2 Hl) as [-> ->]. rewrite node_same in Hm2.
      assert (nd' = nd2) as -> by congruence. eauto.
    + apply (Hn2 m); [lia|assumption].
Qed.

Lemma appendInline_Ok n kind p nd :
  heap p !! n = Some nd ->
  appendInline n kind p =
  Ok tt (setHeap (<[n := withChildren (Children nd ++ [length (heap p)]) nd]>
                    (heap p ++ [withParent (Some n) (freshNode (InlineNode kind))])) p).
Proof.
  intros Hn. assert (Hlt : n < length (heap p)) by (eapply lookup_lt_Some; eauto).
  unfold appendInline, NewNode, update, deref, modify, mbind, M_bind; simpl.
  rewrite lookup_app_r, Nat.sub_diag by lia. simpl.
  rewrite list_lookup_insert_ne by lia.
  rewrite lookup_app_l by assumption. rewrite Hn. simpl.
  rewrite list_lookup_insert_ne by lia.
  rewrite lookup_app_l by assumption. rewrite Hn. simpl.
  f_equal. unfold setHeap; simpl. f_equal. f_equal.
  replace (length (heap p)) with (length (heap p) + 0) at 1 by lia.
  now rewrite insert_app_r.
Qed.

Lemma grows_appendInline n kind p nd :
  heap p !! n = Some nd -> leafTarget (Type_ nd) = true ->
  grows p (setHeap (<[n := withChildren (Children nd ++ [length (heap p)]) nd]>
                    (heap p ++ [withParent (Some n) (freshNode (InlineNode kind))])) p).
Proof.
  intros Hn Hleaf. assert (Hlt : n < length (heap p)) by (eapply lookup_lt_Some; eauto).
  split; [reflexivity|]. split; [repeat split|]. st_simpl.
  rewrite length_insert, length_app. simpl.
  split; [lia|]. split.
  - intros m nd' Hm. assert (m < length (heap p)) by (eapply lookup_lt_Some; eauto).
    destruct (decide (m = n)) as [->|Hne].
    + assert (nd' = nd) as -> by congruence.
      exists [length (heap p)], (content nd).
      rewrite list_lookup_insert_eq by (rewrite length_app; simpl; lia).
      split; [now destruct nd|]. split; [now left|]. split.
      * intros c Hc. apply list_elem_of_singleton in Hc as ->. lia.
      * congruence.
    + exists [], (content nd'). rewrite node_same.
      rewrite list_lookup_insert_ne by auto. rewrite lookup_app_l by assumption.
      split; [assumption|]. split; [now left|]. split; [|auto].
      intros c Hc. inversion Hc.
  - intros m nd' Hm H. rewrite list_lookup_insert_ne in H by lia.
    rewrite lookup_app_r in H by lia.
    apply list_lookup_singleton_Some in H as [_ <-]. exists kind. reflexivity.
Qed.
Lemma grows_clear n p nd :
  heap p !! n = Some nd -> leafTarget (Type_ nd) = true ->
  grows p (setHeap (<[n := withContent None nd]> (heap p)) p).
Proof.
  intros Hn Hleaf. assert (Hlt : n < length (heap p)) by (eapply lookup_lt_Some; eauto).
  split; [reflexivity|]. split; [repeat split|]. st_simpl.
  rewrite length_insert. split; [lia|]. split.
  - intros m nd' Hm. destruct (decide (m = n)) as [->|Hne].
    + assert (nd' = nd) as -> by congruence. exists [], None.
      rewrite list_lookup_insert_eq by assumption. rewrite app_nil_r.
      split; [now destruct nd|]. split; [now right|]. split; [|congruence].
      intros c Hc. inversion Hc.
    + exists [], (content nd'). rewrite node_same.
      rewrite list_lookup_insert_ne by auto.
      split; [assumption|]. split; [now left|]. split; [|auto].
      intros c Hc. inversion Hc.
  - intros m nd' Hm H. apply lookup_lt_Some in H. rewrite length_insert in H. lia.
Qed.

Section InlinePass.

Variable inlineEngine : Z -> bytes -> list nat.

Lemma appendInlines_Ok kinds : forall n p nd,
  heap p !! n = Some nd -> leafTarget (Type_ nd) = true ->
  exists p', appendInlines n kinds p = Ok tt p' /\ grows p p'.
Proof.
  induction kinds as [|k ks IH]; intros n p nd Hn Hleaf; simpl.
  - exists p. split; [reflexivity|apply grows_refl].
  - unfold mbind, M_bind. rewrite (appendInline_Ok _ _ _ _ Hn).
    pose proof (grows_appendInline n k p nd Hn Hleaf) as Hg.
    set (p1 := setHeap _ p) in *.
    assert (Hn1 : heap p1 !! n
                  = Some (withChildren (Children nd ++ [length (heap p)]) nd)).
    { unfold p1. st_simpl. apply list_lookup_insert_eq.
      rewrite length_app. apply lookup_lt_Some in Hn. lia. }
    destruct (IH n p1 _ Hn1 Hleaf) as (p' & Hp' & Hg').
    exists p'. split; [assumption|]. eapply grows_trans; eauto.
Qed.

Lemma inlineVisitor_Ok n entering p nd :
  heap p !! n = Some nd ->
  exists p', inlineVisitor inlineEngine n entering p = Ok GoToNext p' /\
             grows p p' /\
             (leafTarget (Type_ nd) = true ->
              exists nd', heap p' !! n = Some nd' /\ content nd' = None).
Proof.
  intros Hn. unfold inlineVisitor, mbind at 1, M_bind, deref. rewrite Hn.
  fold (leafTarget (Type_ nd)). destruct (leafTarget (Type_ nd)) eqn:Hleaf.
  - unfold inline, mbind, M_bind, gets.
    destruct (appendInlines_Ok
                (inlineEngine (extensions p) (default [] (content nd)))
                n p nd Hn Hleaf) as (p1 & -> & Hg1).
    pose proof Hg1 as (Ht1 & Hs1 & Hl1 & Ho1 & Hn1).
    destruct (Ho1 _ _ Hn) as (extra & c' & Hn' & Hc' & He & _).
    assert (Hu : update (Some n) (withContent None) p1 =
                 Ok tt (setHeap (<[n := withContent None
                   (withContent c' (withChildren (Children nd ++ extra) nd))]>
                   (heap p1)) p1)).
    { apply update_Ok. eauto. }
    rewrite Hu. eexists. split; [reflexivity|]. split.
    + eapply grows_trans; [exact Hg1|].
      apply grows_clear; assumption.
    + intros _. eexists. st_simpl.
      rewrite list_lookup_insert_eq by (eapply lookup_lt_Some; eauto).
      split; reflexivity.
  - exists p. split; [reflexivity|]. split; [apply grows_refl|discriminate].
Qed.

(** Nodes reachable through the child lists. *)
Inductive reach (h : list Node) : nat -> nat -> Prop :=
| reach_refl n : reach h n n
| reach_step n nd c m :
    h !! n = Some nd -> c ∈ Children nd -> reach h c m -> reach h n m.

(** No leaf below [n] holds raw content. *)
Definition clean (h : list Node) (n : nat) : Prop :=
  forall m nd, reach h n m -> h !! m = Some nd ->
    leafTarget (Type_ nd) = true -> content nd = None.

Definition bounded (h : list Node) : Prop :=
  forall n nd c, h !! n = Some nd -> c ∈ Children nd -> n < c < length h.

Lemma reach_lt h n m : bounded h -> n < length h -> reach h n m -> m < length h.
Proof.
  intros Hb Hn Hr. induction Hr as [|n nd c m Hnd Hc Hr IH]; [assumption|].
  apply IH. apply (Hb _ _ _ Hnd Hc).
Qed.

Lemma grows_bounded p p' : bounded (heap p) -> grows p p' -> bounded (heap p').
Proof.
  intros Hb (_ & _ & Hl & Ho & Hn) n nd' c Hn' Hc.
  destruct (decide (n < length (heap p))) as [Hlt|Hge].
  - destruct (lookup_lt_is_Some_2 _ _ Hlt) as [nd Hnd].
    destruct (Ho _ _ Hnd) as (extra & c' & Hn'' & _ & He & _).
    assert (nd' = withContent c' (withChildren (Children nd ++ extra) nd))
      as -> by congruence.
    simpl in Hc. apply elem_of_app in Hc as [Hc|Hc].
    + specialize (Hb _ _ _ Hnd Hc). lia.
    + specialize (He _ Hc). lia.
  - destruct (Hn n nd') as [k Hk]; [lia|assumption|].
    rewrite Hk in Hc. inversion Hc.
Qed.

Lemma reach_new p p' c m :
  grows p p' -> length (heap p) <= c -> reach (heap p') c m -> m = c.
Proof.
  intros (_ & _ & _ & _ & Hn) Hc Hr. destruct Hr as [|n nd c' m Hnd Hin Hr]; [reflexivity|].
  destruct (Hn _ _ Hc Hnd) as [k Hk]. rewrite Hk in Hin. inversion Hin.
Qed.

Lemma reach_grows p p' n m :
  bounded (heap p) -> grows p p' -> n < length (heap p) ->
  reach (heap p') n m -> reach (heap p) n m \/ length (heap p) <= m.
Proof.
  intros Hb Hg Hn Hr. induction Hr as [|n nd' c m Hnd' Hc Hr IH]; [left; constructor|].
  pose proof Hg as (_ & _ & Hl & Ho & Hnew).
  destruct (lookup_lt_is_Some_2 _ _ Hn) as [nd Hnd].
  destruct (Ho _ _ Hnd) as (extra & c' & Hn'' & _ & He & _).
  assert (nd' = withContent c' (withChildren (Children nd ++ extra) nd))
    as -> by congruence.
  simpl in Hc. apply elem_of_app in Hc as [Hc|Hc].
  - destruct IH as [IH|IH]; [apply (Hb _ _ _ Hnd Hc)| |now right].
    left. econstructor; eauto.
  - right. specialize (He _ Hc).
    apply (reach_new p p') in Hr; [lia|assumption|lia].
Qed.

Lemma clean_grows p p' n :
  bounded (heap p) -> grows p p' -> n < length (heap p) ->
  clean (heap p) n -> clean (heap p') n.
Proof.
  intros Hb Hg Hn Hcl m nd' Hr Hm Hleaf.
  pose proof Hg as (_ & _ & Hl & Ho & Hnew).
  destruct (reach_grows _ _ _ _ Hb Hg Hn Hr) as [Hr0|Hge].
  - pose proof (reach_lt _ _ _ Hb Hn Hr0) as Hlt.
    destruct (lookup_lt_is_Some_2 _ _ Hlt) as [nd Hnd].
    destruct (Ho _ _ Hnd) as (extra & c' & Hm' & Hc' & _ & _).
    assert (nd' = withContent c' (withChildren (Children nd ++ extra) nd))
      as -> by congruence.
    simpl in *. specialize (Hcl _ _ Hr0 Hnd Hleaf).
    destruct Hc' as [-> | ->]; auto.
  - destruct (Hnew _ _ Hge Hm) as [k Hk]. rewrite Hk in Hleaf. discriminate.
Qed.

End InlinePass.
Section InlineWalk.

Variable inlineEngine : Z -> bytes -> list nat.

(** From index [L] on the heap holds only inline nodes made by the pass. *)
Definition inlineAbove (L : nat) (h : list Node) : Prop :=
  forall m nd, L <= m -> h !! m = Some nd ->
    exists k, nd = withParent (Parent nd) (freshNode (InlineNode k)).

Lemma grows_inlineAbove L p p' :
  inlineAbove L (heap p) -> L <= length (heap p) -> grows p p' ->
  inlineAbove L (heap p').
Proof.
  intros Hi HL (_ & _ & Hl & Ho & Hn) m nd' Hm Hnd'.
  destruct (decide (m < length (heap p))) as [Hlt|Hge].
  - destruct (lookup_lt_is_Some_2 _ _ Hlt) as [nd Hnd].
    destruct (Hi _ _ Hm Hnd) as [k Hk].
    destruct (Ho _ _ Hnd) as (extra & c' & Hm' & _ & _ & Hleaf).
    destruct Hleaf as [-> ->]; [rewrite Hk; reflexivity|].
    rewrite node_same in Hm'. assert (nd' = nd) as -> by congruence. eauto.
  - apply (Hn m); [lia|assumption].
Qed.

Definition walkOk (L f : nat) (c : nat) (p : Markdown) : Prop :=
  c < length (heap p) /\ (c < L -> L - c < f).

Lemma walk_spec L : forall fuel n p,
  bounded (heap p) -> inlineAbove L (heap p) -> L <= length (heap p) ->
  n < length (heap p) -> (n < L -> L - n < fuel) -> 0 < fuel ->
  exists p', walk (inlineVisitor inlineEngine) fuel n p = Ok GoToNext p' /\
             grows p p' /\ clean (heap p') n.
Proof.
  induction fuel as [|f IH]; intros n p Hb Hi HL Hn Hf Hpos; [lia|].
  destruct (lookup_lt_is_Some_2 _ _ Hn) as [nd Hnd].
  destruct (inlineVisitor_Ok inlineEngine n true p nd Hnd) as (p1 & Hv1 & Hg1 & Hc1).
  simpl. unfold mbind at 1, M_bind. rewrite Hv1.
  pose proof Hg1 as (_ & _ & Hl1 & Ho1 & Hn1).
  destruct (Ho1 _ _ Hnd) as (extra & c1 & Hnd1 & Hcc1 & He1 & Hleaf1).
  unfold mbind at 1, M_bind, deref. rewrite Hnd1.
  pose proof (grows_bounded _ _ Hb Hg1) as Hb1.
  pose proof (grows_inlineAbove _ _ _ Hi HL Hg1) as Hi1.
  set (nd1 := withContent c1 (withChildren (Children nd ++ extra) nd)) in *.
  (* the children *)
  assert (Hloop : forall l p2,
    (forall c, c ∈ l -> c < length (heap p2) /\ (c < L -> L - c < f) /\ 0 < f) ->
    bounded (heap p2) -> inlineAbove L (heap p2) -> L <= length (heap p2) ->
    exists p3, walkChildren (walk (inlineVisitor inlineEngine) f) l p2
               = Ok GoToNext p3 /\ grows p2 p3 /\
               forall c, c ∈ l -> clean (heap p3) c).
  { induction l as [|c l IHl]; intros p2 Hl Hb2 Hi2 HL2; simpl.
    - exists p2. split; [reflexivity|]. split; [apply grows_refl|].
      intros c Hc. inversion Hc.
    - destruct (Hl c) as (Hc1' & Hc2 & Hc3); [left|].
      destruct (IH c p2 Hb2 Hi2 HL2 Hc1' Hc2 Hc3) as (pa & Hwa & Hga & Hca).
      unfold mbind at 1, M_bind. rewrite Hwa.
      pose proof (grows_bounded _ _ Hb2 Hga) as Hba.
      pose proof (grows_inlineAbove _ _ _ Hi2 HL2 Hga) as Hia.
      pose proof Hga as (_ & _ & Hla & _).
      destruct (IHl pa) as (p3 & Hw3 & Hg3 & Hc3'); [|assumption|assumption|lia|].
      { intros c' Hc'. destruct (Hl c') as (? & ? & ?); [now right|].
        split; [lia|auto]. }
      exists p3. split; [assumption|]. split; [eapply grows_trans; eauto|].
      intros c' Hc'. apply elem_of_cons in Hc' as [->|Hc']; [|auto].
      eapply clean_grows; eauto. lia. }
  destruct (Hloop (Children nd1) p1) as (p2 & Hw2 & Hg2 & Hc2);
    [|assumption|assumption|lia|].
  { intros c Hc. pose proof (Hb1 _ _ _ Hnd1 Hc) as [Hnc Hcl].
    split; [assumption|].
    destruct (decide (n < L)) as [HnL|HnL].
    - specialize (Hf HnL). split; lia.
    - exfalso. destruct (Hi1 n nd1) as [k Hk]; [lia|assumption|].
      rewrite Hk in Hc. inversion Hc. }
  unfold mbind at 1, M_bind. rewrite Hw2.
  pose proof Hg2 as (_ & _ & Hl2 & Ho2 & Hn2).
  destruct (Ho2 _ _ Hnd1) as (extra2 & c2 & Hnd2 & Hcc2 & He2 & Hleaf2).
  destruct (inlineVisitor_Ok inlineEngine n false p2 _ Hnd2) as (p3 & Hv3 & Hg3 & Hc3).
  rewrite Hv3. exists p3. split; [reflexivity|].
  split; [eapply grows_trans; [exact Hg1|eapply grows_trans; eauto]|].
  pose proof (grows_bounded _ _ Hb1 Hg2) as Hb2.
  (* every leaf below n is clean *)
  pose proof Hg3 as (_ & _ & Hl3 & Ho3 & Hn3).
  destruct (Ho3 _ _ Hnd2) as (extra3 & c3 & Hnd3 & Hcc3 & He3 & Hleaf3).
  intros m ndm Hr Hm Hleaf.
  destruct Hr as [n|n nd' c m Hnd' Hc Hr].
  - destruct (Hc3) as (nd3 & Hnd3' & Hcn3).
    { simpl. simpl in Hleaf. assert (ndm = withContent c3 (withChildren
        (Children (withContent c2 (withChildren (Children nd1 ++ extra2) nd1)) ++ extra3)
        (withContent c2 (withChildren (Children nd1 ++ extra2) nd1)))) as -> by congruence.
      exact Hleaf. }
    congruence.
  - assert (nd' = withContent c3 (withChildren
        (Children (withContent c2 (withChildren (Children nd1 ++ extra2) nd1)) ++ extra3)
        (withContent c2 (withChildren (Children nd1 ++ extra2) nd1)))) as -> by congruence.
    simpl in Hc. rewrite <- app_assoc in Hc.
    apply elem_of_app in Hc as [Hc|Hc].
    + assert (Hcl : clean (heap p3) c).
      { eapply clean_grows; [exact Hb2|exact Hg3| |auto].
        pose proof (Hb1 _ _ _ Hnd1 Hc). lia. }
      apply (Hcl m ndm Hr Hm Hleaf).
    + assert (Hge : length (heap p1) <= c).
      { apply elem_of_app in Hc as [Hc|Hc].
        - specialize (He2 _ Hc). lia.
        - specialize (He3 _ Hc). lia. }
      assert (Hg13 : grows p1 p3) by (eapply grows_trans; eauto).
      apply (reach_new _ _ _ _ Hg13 Hge) in Hr. subst m.
      destruct Hg13 as (_ & _ & _ & _ & Hnew).
      destruct (Hnew _ _ Hge Hm) as [k Hk]. rewrite Hk in Hleaf. discriminate.
Qed.

End InlineWalk.
Section ParseFacts.

Variable inlineEngine : Z -> bytes -> list nat.

Lemma inlinePhase_Ok p :
  wf p ->
  exists p', inlinePhase inlineEngine p = Ok tt p' /\ grows p p' /\
             clean (heap p') 0.
Proof.
  intros (Hh & Hd & _ & _). unfold inlinePhase, mbind, M_bind, gets. rewrite Hd.
  unfold Walk, mbind, M_bind, gets.
  destruct Hh as [Hc _ [d0 Hd0]].
  assert (Hlen : 0 < length (heap p)) by (eapply lookup_lt_Some; eauto).
  destruct (walk_spec inlineEngine (length (heap p)) (S (length (heap p))) 0 p)
    as (p' & Hw & Hg & Hcl); try lia.
  - exact Hc.
  - intros m nd Hm Hnd. apply lookup_lt_Some in Hnd. lia.
  - rewrite Hw. eauto.
Qed.

Lemma blockPhase_Ok fuel input p p1 :
  wf p -> is_Some (tip p) -> blockPhase fuel input p = Ok tt p1 ->
  wf p1 /\ tip p1 = None /\ sameScalars p p1 /\
  parentsKept (heap p) (heap p1) /\
  exists d, heap p1 !! 0 = Some d /\ open d = false.
Proof.
  intros Hwf Ht H. unfold blockPhase in H.
  apply bind_Ok in H as ([] & p0 & H0 & H).
  apply pres_block in H0 as (Hwf0 & Ht0 & Hs0 & Hpk0); [|assumption..].
  apply bind_Ok in H as (h & p0' & H1 & H). apply gets_Ok in H1 as [-> ->].
  apply finishLoop_Ok in H as (Hwf1 & Ht1 & Hs1 & Ho1 & Hd1); [|assumption].
  split; [assumption|]. split; [assumption|].
  split; [eapply sameScalars_trans; eauto|]. split; [|auto].
  eapply parentsKept_trans; [exact Hpk0|]. destruct Ho1 as [Hl Ho1].
  split; [lia|]. intros j nd Hj. destruct (Ho1 _ _ Hj) as [b Hb].
  eexists. split; [exact Hb|]. auto.
Qed.

(** [Parse] is the block phase followed by the inline pass, and the inline
    pass always completes on the tree the block phase leaves. *)
Lemma Parse_phases fuel input p p1 :
  wf p -> is_Some (tip p) -> blockPhase fuel input p = Ok tt p1 ->
  exists p', Parse inlineEngine fuel input p = Ok (Some 0) p' /\
             grows p1 p' /\ clean (heap p') 0.
Proof.
  intros Hwf Ht H. destruct (blockPhase_Ok _ _ _ _ Hwf Ht H) as (Hwf1 & _).
  destruct (inlinePhase_Ok p1 Hwf1) as (p' & Hi & Hg & Hc).
  exists p'. split; [|auto]. unfold Parse, mbind, M_bind. rewrite H, Hi.
  unfold gets. destruct Hg as (_ & Hs & _). destruct Hs as (_&_&_&_&Hd&_).
  rewrite Hd. destruct Hwf1 as (_ & -> & _). reflexivity.
Qed.

Lemma Parse_Ok fuel input p d p' :
  wf p -> is_Some (tip p) -> Parse inlineEngine fuel input p = Ok d p' ->
  exists p1, blockPhase fuel input p = Ok tt p1 /\ d = Some 0 /\
             grows p1 p' /\ clean (heap p') 0.
Proof.
  intros Hwf Ht H. pose proof H as H'. unfold Parse in H'.
  apply bind_Ok in H' as ([] & p1 & H1 & _).
  destruct (Parse_phases _ _ _ _ Hwf Ht H1) as (p'' & HP & Hg & Hc).
  rewrite H in HP. injection HP as -> ->. eauto.
Qed.

Lemma grows_node p p' m nd :
  grows p p' -> heap p !! m = Some nd -> leafTarget (Type_ nd) = false ->
  heap p' !! m = Some nd.
Proof.
  intros (_ & _ & _ & Ho & _) Hm Hleaf.
  destruct (Ho _ _ Hm) as (extra & c' & Hm' & _ & _ & Hl).
  destruct (Hl Hleaf) as [-> ->]. now rewrite node_same in Hm'.
Qed.

Lemma grows_leaf p p' m nd :
  grows p p' -> heap p !! m = Some nd ->
  exists nd', heap p' !! m = Some nd' /\ Type_ nd' = Type_ nd /\
    Parent nd' = Parent nd /\ open nd' = open nd /\ Tight nd' = Tight nd /\
    ListFlags nd' = ListFlags nd /\ IsHeader nd' = IsHeader nd /\
    Align nd' = Align nd.
Proof.
  intros (_ & _ & _ & Ho & _) Hm.
  destruct (Ho _ _ Hm) as (extra & c' & Hm' & _ & _ & Hl).
  eexists. split; [exact Hm'|]. repeat split.
Qed.

End ParseFacts.
(** ** More fuel changes nothing

    A routine that returned keeps its result when the recursive call and the
    fuel are replaced by ones that return at least as often. *)

Definition refines {A} (m1 m2 : M A) : Prop :=
  forall p a p', m1 p = Ok a p' -> m2 p = Ok a p'.

Lemma refines_refl {A} (m : M A) : refines m m.
Proof. intros p a p' H. exact H. Qed.

Lemma refines_bind {A B} (m1 m2 : M A) (f1 f2 : A -> M B) :
  refines m1 m2 -> (forall a, refines (f1 a) (f2 a)) ->
  refines (m1 ≫= f1) (m2 ≫= f2).
Proof.
  intros Hm Hf p b p2 H. apply bind_Ok in H as (a & p1 & H1 & H2).
  apply bind_Ok. exists a, p1. split; [now apply Hm|now apply Hf].
Qed.

Lemma refines_fail {A} e (m : M A) : refines (fail e) m.
Proof. intros p a p' H. discriminate. Qed.

Create HintDb mono.
#[export] Hint Resolve refines_refl refines_fail : mono.

Ltac mono_go :=
  repeat match goal with
  | |- refines (_ ≫= _) (_ ≫= _) => apply refines_bind; [|intros]
  | |- refines (if ?b then _ else _) (if ?b then _ else _) => destruct b
  | |- refines (match ?x with _ => _ end) (match ?x with _ => _ end) => destruct x
  | |- refines _ _ => solve [auto with mono]
  end.

Section BlockParsersMono.

Variables blockrec1 blockrec2 : bytes -> M unit.
Hypothesis blockrec_mono : forall d, refines (blockrec1 d) (blockrec2 d).

#[local] Hint Resolve blockrec_mono : mono.

Lemma refines_quote data : refines (quote blockrec1 data) (quote blockrec2 data).
Proof. unfold quote. mono_go. Qed.

Lemma refines_listItem data flags :
  refines (listItem blockrec1 data flags) (listItem blockrec2 data flags).
Proof. unfold listItem. mono_go. Qed.
#[local] Hint Resolve refines_quote refines_listItem : mono.

Lemma refines_listLoop data block fuel i flags :
  refines (listLoop blockrec1 data block fuel i flags)
          (listLoop blockrec2 data block fuel i flags).
Proof.
  revert i flags. induction fuel as [|fuel IH]; intros i flags; simpl; mono_go.
Qed.
#[local] Hint Resolve refines_listLoop : mono.

Lemma refines_list data flags :
  refines (list_ blockrec1 data flags) (list_ blockrec2 data flags).
Proof. unfold list_. mono_go. Qed.
#[local] Hint Resolve refines_list : mono.

Lemma refines_paragraphLoop data fuel prev line i :
  refines (paragraphLoop blockrec1 data fuel prev line i)
          (paragraphLoop blockrec2 data fuel prev line i).
Proof.
  revert prev line i. induction fuel as [|fuel IH]; intros prev line i;
    simpl; mono_go.
Qed.

Lemma refines_paragraph data :
  refines (paragraph blockrec1 data) (paragraph blockrec2 data).
Proof. unfold paragraph. apply refines_paragraphLoop. Qed.
#[local] Hint Resolve refines_paragraph : mono.

Lemma refines_blockIter data :
  refines (blockIter blockrec1 data) (blockIter blockrec2 data).
Proof. unfold blockIter. mono_go. Qed.

Lemma refines_blockLoop fuel data :
  refines (blockLoop blockrec1 fuel data) (blockLoop blockrec2 (S fuel) data).
Proof.
  revert data. induction fuel as [|fuel IH]; intros data; destruct data.
  - apply refines_refl.
  - apply refines_fail.
  - apply refines_refl.
  - change (refines (blockIter blockrec1 (a :: data) ≫= blockLoop blockrec1 fuel)
                    (blockIter blockrec2 (a :: data) ≫= blockLoop blockrec2 (S fuel))).
    apply refines_bind; [apply refines_blockIter|apply IH].
Qed.

End BlockParsersMono.

Lemma refines_block_S fuel : forall data, refines (block fuel data) (block (S fuel) data).
Proof.
  induction fuel as [|fuel IH]; intros data.
  - simpl. mono_go.
  - change (block (S fuel) data) with
      (gets nesting ≫= fun n => gets maxNesting ≫= fun mx =>
       if mx <=? n then mret tt
       else modify (setNesting (n + 1)) ≫= fun _ =>
            blockLoop (block fuel) fuel data ≫= fun _ =>
            gets nesting ≫= fun n => modify (setNesting (n - 1))).
    change (block (S (S fuel)) data) with
      (gets nesting ≫= fun n => gets maxNesting ≫= fun mx =>
       if mx <=? n then mret tt
       else modify (setNesting (n + 1)) ≫= fun _ =>
            blockLoop (block (S fuel)) (S fuel) data ≫= fun _ =>
            gets nesting ≫= fun n => modify (setNesting (n - 1))).
    mono_go. apply refines_blockLoop. exact IH.
Qed.

Lemma refines_block fuel k data : refines (block fuel data) (block (fuel + k) data).
Proof.
  induction k as [|k IH].
  - rewrite Nat.add_0_r. apply refines_refl.
  - rewrite Nat.add_succ_r. intros p a p' H. apply refines_block_S. now apply IH.
Qed.

Lemma blockPhase_more_fuel fuel k input p p' :
  blockPhase fuel input p = Ok tt p' -> blockPhase (fuel + k) input p = Ok tt p'.
Proof.
  unfold blockPhase. intros H. apply bind_Ok in H as ([] & p1 & H1 & H).
  apply bind_Ok. exists tt, p1. split; [now apply refines_block|assumption].
Qed.
(** Runs the block phase of a concrete input and brings the result of the
    whole [Parse], for any inline engine and any larger fuel, into the
    context. *)
Lemma Parse_example (inlineEngine : Z -> bytes -> list nat) fuel k input e p1 :
  blockPhase fuel input (New e) = Ok tt p1 ->
  exists p', Parse inlineEngine (fuel + k) input (New e) = Ok (Some 0) p' /\
             grows p1 p'.
Proof.
  intros H. apply (blockPhase_more_fuel _ k) in H.
  destruct (Parse_phases inlineEngine _ _ _ _ (wf_New e)
              (ex_intro _ 0 eq_refl) H) as (p' & HP & Hg & _).
  eauto.
Qed.
(** ** Adding a block where the tip can take it *)

Lemma insert_app_last {A} (h : list A) x y :
  <[length h := y]> (h ++ [x]) = h ++ [y].
Proof.
  replace (length h) with (length h + 0) by lia.
  now rewrite insert_app_r.
Qed.

Lemma lookup_app_last {A} (h : list A) x : (h ++ [x]) !! length h = Some x.
Proof. now rewrite lookup_app_r, Nat.sub_diag by lia. Qed.

(** The state after [addBlock typ c] added node [length (heap p)] below
    [t]. *)
Definition withNewChild (typ : NodeType) (c : option bytes) (t : nat)
  (nt : Node) (p : Markdown) : Markdown :=
  setTip (Some (length (heap p)))
    (setHeap (<[t := withChildren (Children nt ++ [length (heap p)]) nt]>
                (heap p ++ [withContent c (withParent (Some t) (freshNode typ))]))
       p).

Lemma addChild_direct typ off p t nt :
  tip p = Some t -> heap p !! t = Some nt ->
  canContain (Type_ nt) typ = true -> open nt = true ->
  addChild typ off p = Ok (length (heap p)) (withNewChild typ None t nt p).
Proof.
  intros Ht Hnt Hcan Hopen.
  assert (Hlt : t < length (heap p)) by (eapply lookup_lt_Some; eauto).
  unfold addChild, addExistingChild, NewNode.
  unfold mbind at 1, M_bind.
  set (p1 := setHeap (heap p ++ [freshNode typ]) p).
  assert (Hk1 : heap p1 !! length (heap p) = Some (freshNode typ))
    by apply lookup_app_last.
  assert (Ht1 : heap p1 !! t = Some nt) by (unfold p1; st_simpl; now apply lookup_app_l_Some).
  unfold mbind at 1, M_bind, deref. rewrite Hk1.
  unfold mbind at 1, M_bind, gets.
  unfold mbind at 1, M_bind.
  rewrite (climb_stop _ _ p1 t nt Ht Ht1 Hcan).
  unfold mbind at 1, M_bind, gets. change (tip p1) with (tip p). rewrite Ht.
  unfold mbind at 1, M_bind.
  rewrite (AppendChild_fresh t (length (heap p)) p1 nt (freshNode typ))
    by (auto; lia).
  rewrite Hopen. unfold mbind, M_bind, modify, mret, M_ret.
  unfold withNewChild, p1. st_simpl. rewrite insert_app_last.
  reflexivity.
Qed.

(** The new node, its parent and the other nodes after [withNewChild]. *)
Lemma withNewChild_new typ c t nt p :
  t < length (heap p) ->
  heap (withNewChild typ c t nt p) !! length (heap p)
  = Some (withContent c (withParent (Some t) (freshNode typ))).
Proof.
  intros Hlt. unfold withNewChild. st_simpl.
  rewrite list_lookup_insert_ne by lia. apply lookup_app_last.
Qed.

Lemma withNewChild_parent typ c t nt p :
  t < length (heap p) ->
  heap (withNewChild typ c t nt p) !! t
  = Some (withChildren (Children nt ++ [length (heap p)]) nt).
Proof.
  intros Hlt. unfold withNewChild. st_simpl.
  apply list_lookup_insert_eq. rewrite length_app. lia.
Qed.

Lemma withNewChild_other typ c t nt p j :
  j <> t -> j < length (heap p) ->
  heap (withNewChild typ c t nt p) !! j = heap p !! j.
Proof.
  intros Hne Hlt. unfold withNewChild. st_simpl.
  rewrite list_lookup_insert_ne by auto. now apply lookup_app_l.
Qed.

Lemma closeUnmatchedBlocks_closed p :
  allClosed p = true -> closeUnmatchedBlocks p = Ok tt p.
Proof.
  intros Ha. unfold closeUnmatchedBlocks, mbind, M_bind, gets. now rewrite Ha.
Qed.

Lemma addBlock_direct typ c p t nt :
  allClosed p = true -> tip p = Some t -> heap p !! t = Some nt ->
  canContain (Type_ nt) typ = true -> open nt = true ->
  addBlock typ c p = Ok (length (heap p)) (withNewChild typ c t nt p).
Proof.
  intros Ha Ht Hnt Hcan Hopen.
  assert (Hlt : t < length (heap p)) by (eapply lookup_lt_Some; eauto).
  unfold addBlock, mbind, M_bind.
  rewrite (closeUnmatchedBlocks_closed p Ha).
  rewrite (addChild_direct typ 0 p t nt Ht Hnt Hcan Hopen).
  unfold update, deref, modify, mret, M_ret, mbind, M_bind.
  rewrite withNewChild_new by assumption.
  unfold withNewChild. st_simpl. f_equal.
  unfold setTip, setHeap; simpl. f_equal.
  rewrite list_insert_insert_ne by lia. rewrite insert_app_last. reflexivity.
Qed.

Lemma withNewChild_length typ c t nt p :
  length (heap (withNewChild typ c t nt p)) = S (length (heap p)).
Proof. unfold withNewChild. st_simpl. rewrite length_insert, length_app. simpl. lia. Qed.
(** ** Slices *)

Lemma get_lookup data i c : data !! i = Some c -> get data i = c.
Proof. intros H. unfold get. rewrite nth_lookup, H. reflexivity. Qed.

Lemma lookup_get data i : i < length data -> data !! i = Some (get data i).
Proof.
  intros H. destruct (lookup_lt_is_Some_2 _ _ H) as [c Hc].
  now rewrite (get_lookup _ _ _ Hc).
Qed.

Lemma slice_Some data a b s :
  slice data a b = Some s <->
  a <= b /\ b <= length data /\ s = take (b - a) (drop a data).
Proof.
  unfold slice. destruct (a <=? b) eqn:E1; destruct (b <=? length data) eqn:E2; simpl;
    try apply Nat.leb_le in E1; try apply Nat.leb_le in E2;
    try apply Nat.leb_gt in E1; try apply Nat.leb_gt in E2;
    (split; [intros [= <-]; auto|intros (? & ? & ->); first [reflexivity|lia]]).
Qed.

Lemma slice_length data a b s : slice data a b = Some s -> length s = b - a.
Proof.
  intros H. apply slice_Some in H as (? & ? & ->).
  rewrite length_take, length_drop. lia.
Qed.

Lemma slice_lookup data a b s k :
  slice data a b = Some s -> k < b - a -> s !! k = Some (get data (a + k)).
Proof.
  intros H Hk. apply slice_Some in H as (? & ? & ->).
  rewrite lookup_take_lt by assumption. rewrite lookup_drop.
  apply lookup_get. lia.
Qed.

Lemma sliceFrom_Some data a s :
  sliceFrom data a = Some s <-> a <= length data /\ s = drop a data.
Proof.
  unfold sliceFrom. destruct (a <=? length data) eqn:E;
    [apply Nat.leb_le in E|apply Nat.leb_gt in E];
    (split; [intros [= <-]; auto|intros (? & ->); first [reflexivity|lia]]).
Qed.

Lemma sliceTo_Some data b s :
  sliceTo data b = Some s <-> b <= length data /\ s = take b data.
Proof.
  unfold sliceTo. destruct (b <=? length data) eqn:E;
    [apply Nat.leb_le in E|apply Nat.leb_gt in E];
    (split; [intros [= <-]; auto|intros (? & ->); first [reflexivity|lia]]).
Qed.

Lemma isc_true c x : isc c x = true <-> c = x.
Proof. apply Ascii.eqb_eq. Qed.

Lemma isc_false c x : isc c x = false <-> c <> x.
Proof. apply Ascii.eqb_neq. Qed.

Lemma notc_true c x : notc c x = true <-> c <> x.
Proof. unfold notc. rewrite negb_true_iff. apply Ascii.eqb_neq. Qed.

Lemma notc_false c x : notc c x = false <-> c = x.
Proof. unfold notc. rewrite negb_false_iff. apply Ascii.eqb_eq. Qed.

Lemma inb_true data i : inb data i = true <-> i < length data.
Proof. apply Nat.ltb_lt. Qed.

Lemma inb_false data i : inb data i = false <-> length data <= i.
Proof. apply Nat.ltb_ge. Qed.

(** ** The cells of a table row *)

Lemma trimEnd_le data s fuel e : trimEnd data s fuel e <= e.
Proof.
  revert e. induction fuel as [|f IH]; intros e; simpl; [lia|].
  destruct (_ && _); [|lia]. specialize (IH (e - 1)). lia.
Qed.

Lemma trimEnd_ge data s fuel e : s <= e -> s <= trimEnd data s fuel e.
Proof.
  revert e. induction fuel as [|f IH]; intros e He; simpl; [lia|].
  destruct ((s <? e) && inb data (e - 1) && isc " " (get data (e - 1))) eqn:E; [|lia].
  apply IH. apply andb_true_iff in E as [E _]. apply andb_true_iff in E as [E _].
  apply Nat.ltb_lt in E. lia.
Qed.

Lemma trimEnd_stop data s fuel e :
  e <= fuel -> s < trimEnd data s fuel e ->
  trimEnd data s fuel e - 1 < length data ->
  get data (trimEnd data s fuel e - 1) <> " ".
Proof.
  revert e. induction fuel as [|f IH]; intros e Hf; simpl.
  - intros Hs. lia.
  - destruct ((s <? e) && inb data (e - 1) && isc " " (get data (e - 1))) eqn:E.
    + apply IH. lia.
    + intros Hs Hl. apply Nat.ltb_lt in Hs as Hs'. rewrite Hs' in E.
      apply inb_true in Hl. rewrite Hl in E. simpl in E.
      apply isc_false in E. congruence.
Qed.

Lemma cellEndFrom_ge data i : i <= cellEndFrom data i.
Proof. apply advance_ge. Qed.

Lemma cellEndFrom_le data i : i <= length data -> cellEndFrom data i <= length data.
Proof. intros H. unfold cellEndFrom. etransitivity; [apply advance_le|lia]. Qed.

Lemma cellEndFrom_stop data i :
  cellEndFrom data i < length data ->
  get data (cellEndFrom data i) = NL \/
  (get data (cellEndFrom data i) = "|" /\
   isBackslashEscaped data (cellEndFrom data i) = false).
Proof.
  intros H. unfold cellEndFrom in *.
  set (cond := fun j => inb data j
                        && (notc "|" (get data j) || isBackslashEscaped data j)
                        && notc NL (get data j)) in *.
  pose proof (advance_ge cond (length data - i) i).
  assert (Hs : advance cond (length data - i) i < i + (length data - i)) by lia.
  apply advance_stop in Hs. unfold cond in Hs at 1.
  apply inb_true in H. rewrite H in Hs. simpl in Hs.
  apply andb_false_iff in Hs as [Hs|Hs].
  - apply orb_false_iff in Hs as [Hs1 Hs2]. apply notc_false in Hs1. auto.
  - apply notc_false in Hs. auto.
Qed.

Lemma cellEndFrom_inside data i k :
  i <= k < cellEndFrom data i ->
  get data k <> NL /\ (get data k = "|" -> isBackslashEscaped data k = true).
Proof.
  intros H. apply advance_all in H.
  apply andb_true_iff in H as [H H2]. apply andb_true_iff in H as [_ H1].
  apply notc_true in H2. split; [congruence|].
  intros Hp. apply orb_true_iff in H1 as [H1|H1]; [|assumption].
  apply notc_true in H1. congruence.
Qed.

(** Raw text without a space at either end ([nil] included). *)
Definition trimmed (c : option bytes) : Prop :=
  forall s, c = Some s -> head s <> Some " " /\ last s <> Some " ".

Lemma cell_trimmed data i s :
  let cellStart := skipWhile (isc " ") data i in
  let cellEnd := cellEndFrom data cellStart in
  slice data cellStart (trimEnd data cellStart cellEnd cellEnd) = Some s ->
  trimmed (Some s).
Proof.
  intros cellStart cellEnd H s' [= <-].
  pose proof (slice_length _ _ _ _ H) as Hlen.
  pose proof H as H'. apply slice_Some in H' as (Hle & Hl & _).
  destruct s as [|c s]; [split; discriminate|].
  simpl in Hlen. split.
  - pose proof (slice_lookup _ _ _ _ 0 H ltac:(lia)) as H0.
    simpl in H0. injection H0 as ->. rewrite Nat.add_0_r.
    intros [= Heq]. assert (Hlt : cellStart < length data) by lia.
    apply skipWhile_stop in Hlt. fold cellStart in Hlt.
    apply isc_false in Hlt. congruence.
  - rewrite last_lookup.
    pose proof (slice_lookup _ _ _ _ (Init.Nat.pred (length (c :: s))) H) as Hk.
    rewrite Hk by (simpl; lia). simpl. intros [= Heq].
    assert (Hidx : cellStart + length s
                   = trimEnd data cellStart cellEnd cellEnd - 1) by lia.
    rewrite Hidx in Heq.
    eapply trimEnd_stop; [reflexivity| | |exact Heq]; lia.
Qed.
(** [addBlock] where the tip [c] cannot take the block and its parent [t]
    can: [c] is closed and the block goes below [t]. *)
Lemma addBlock_direct_up typ cont p c nc t nt :
  allClosed p = true -> tip p = Some c -> heap p !! c = Some nc ->
  canContain (Type_ nc) typ = false -> Parent nc = Some t -> t <> c ->
  heap p !! t = Some nt -> canContain (Type_ nt) typ = true -> open nt = true ->
  addBlock typ cont p
  = Ok (length (heap p))
       (withNewChild typ cont t nt
          (setHeap (<[c := withOpen false nc]> (heap p)) p)).
Proof.
  intros Ha Ht Hnc Hno Hpar Hne Hnt Hcan Hopen.
  assert (Hlc : c < length (heap p)) by (eapply lookup_lt_Some; eauto).
  assert (Hlt : t < length (heap p)) by (eapply lookup_lt_Some; eauto).
  unfold addBlock, mbind, M_bind.
  rewrite (closeUnmatchedBlocks_closed p Ha).
  unfold addChild, addExistingChild, NewNode, mbind, M_bind.
  set (p1 := setHeap (heap p ++ [freshNode typ]) p).
  assert (Hk1 : heap p1 !! length (heap p) = Some (freshNode typ))
    by apply lookup_app_last.
  unfold deref at 1. rewrite Hk1. unfold gets at 1.
  assert (Hc1 : heap p1 !! c = Some nc)
    by (unfold p1; st_simpl; now apply lookup_app_l_Some).
  rewrite (climb_step _ _ p1 c nc Ht Hc1 Hno). rewrite Hpar.
  set (p2 := setTip (Some t) (setHeap (<[c := withOpen false nc]> (heap p1)) p1)).
  assert (Ht2 : heap p2 !! t = Some nt).
  { unfold p2, p1. st_simpl. rewrite list_lookup_insert_ne by auto.
    now apply lookup_app_l_Some. }
  assert (Hlen : length (heap p1) = S (length (heap p)))
    by (unfold p1; st_simpl; rewrite length_app; simpl; lia).
  rewrite Hlen. rewrite (climb_stop _ _ p2 t nt eq_refl Ht2 Hcan).
  unfold gets. change (tip p2) with (Some t).
  assert (Hk2 : heap p2 !! length (heap p) = Some (freshNode typ)).
  { unfold p2. st_simpl. rewrite list_lookup_insert_ne by lia. exact Hk1. }
  rewrite (AppendChild_fresh t (length (heap p)) p2 nt (freshNode typ))
    by (auto; lia).
  rewrite Hopen. unfold modify, update, deref, mret, M_ret, mbind, M_bind.
  st_simpl.
  rewrite list_lookup_insert_ne by lia.
  rewrite list_lookup_insert_eq
    by (unfold p2, p1; st_simpl; rewrite length_insert, length_app; simpl; lia).
  unfold withNewChild, p2, p1. st_simpl. rewrite length_insert.
  f_equal. unfold setTip, setHeap; simpl. f_equal.
  rewrite list_insert_insert_ne by lia. rewrite list_insert_insert_eq.
  f_equal. simpl.
  rewrite <- (insert_app_l (heap p) [_] c) by assumption.
  rewrite (list_insert_insert_ne _ (length (heap p)) c) by lia.
  rewrite insert_app_last. rewrite insert_app_l by assumption. reflexivity.
Qed.
(** What holds of the [i]-th cell [c] of row [r]. *)
Definition rowCellOk (p : Markdown) (r : nat) (header : bool)
  (columns : list Z) (i c : nat) : Prop :=
  exists nc, heap p !! c = Some nc /\ Type_ nc = TableCell /\
    Parent nc = Some r /\ Children nc = [] /\ IsHeader nc = header /\
    columns !! i = Some (Align nc) /\ trimmed (content nc).

(** The state of [tableRow] between two cells: the row [r] is open, its
    children are the cells [cs] made so far, and the tip is the last of
    them (or the row). *)
Definition RowInv (p : Markdown) (r : nat) (header : bool) (columns : list Z)
  (cs : list nat) : Prop :=
  allClosed p = true /\ r < length (heap p) /\
  (exists nr, heap p !! r = Some nr /\ Type_ nr = TableRow /\
              open nr = true /\ Children nr = cs) /\
  tip p = Some (default r (last cs)) /\
  forall i c, cs !! i = Some c ->
    r < c < length (heap p) /\ rowCellOk p r header columns i c.

Lemma row_add_cell p r header columns cs cont al :
  RowInv p r header columns cs -> columns !! length cs = Some al ->
  trimmed cont ->
  exists p',
    (addBlock TableCell cont ≫= fun cell =>
     lift (columns !! length cs) ≫= fun al =>
     update (Some cell) (withCell header al)) p = Ok tt p' /\
    RowInv p' r header columns (cs ++ [length (heap p)]).
Proof.
  intros (Ha & Hr & (nr & Hnr & Hty & Hopen & Hcs) & Htip & Hcells) Hal Htrim.
  (* the block is added below the row, from the row or from the last cell *)
  assert (Hadd : exists p0,
    addBlock TableCell cont p
    = Ok (length (heap p)) (withNewChild TableCell cont r nr p0) /\
    length (heap p0) = length (heap p) /\ allClosed p0 = true /\
    forall j nd, heap p !! j = Some nd ->
      exists b, heap p0 !! j = Some (withOpen b nd) /\ (j = r -> b = open nd)).
  { destruct (last cs) as [c|] eqn:Hlast; simpl in Htip.
    - apply last_Some in Hlast as [cs' ->].
      destruct (Hcells (length cs') c) as [[Hrc Hcl] (nc & Hnc & Htc & Hpc & _)].
      { rewrite lookup_app_r, Nat.sub_diag by lia. reflexivity. }
      exists (setHeap (<[c := withOpen false nc]> (heap p)) p).
      split; [|split; [apply length_insert|split; [exact Ha|]]].
      + apply addBlock_direct_up; auto; try lia.
        * rewrite Htc. reflexivity.
        * rewrite Hty. reflexivity.
      + intros j nd Hj. st_simpl. destruct (decide (j = c)) as [->|Hne].
        * exists false. rewrite list_lookup_insert_eq by lia.
          split; [congruence|lia].
        * exists (open nd). rewrite list_lookup_insert_ne by auto.
          rewrite withOpen_id. auto.
    - exists p. split; [|split; [reflexivity|split; [exact Ha|]]].
      + apply addBlock_direct; auto. rewrite Hty. reflexivity.
      + intros j nd Hj. exists (open nd). rewrite withOpen_id. auto. }
  destruct Hadd as (p0 & Hadd & Hlen0 & Ha0 & Hfr0).
  unfold mbind, M_bind. rewrite Hadd, Hal. unfold lift, mret, M_ret.
  set (p1 := withNewChild TableCell cont r nr p0).
  assert (Hr0 : r < length (heap p0)) by lia.
  assert (Hk1 : heap p1 !! length (heap p)
                = Some (withContent cont (withParent (Some r) (freshNode TableCell)))).
  { unfold p1. rewrite <- Hlen0. now apply withNewChild_new. }
  assert (Hu : update (Some (length (heap p))) (withCell header al) p1
               = Ok tt (setHeap (<[length (heap p) := withCell header al
                   (withContent cont (withParent (Some r) (freshNode TableCell)))]>
                   (heap p1)) p1)).
  { apply update_Ok. eauto. }
  rewrite Hu. eexists. split; [reflexivity|].
  assert (Hl1 : length (heap p1) = S (length (heap p)))
    by (unfold p1; rewrite withNewChild_length; lia).
  split; [exact Ha0|]. st_simpl. rewrite length_insert, Hl1.
  split; [lia|]. split; [|split].
  - exists (withChildren (Children nr ++ [length (heap p0)]) nr).
    rewrite list_lookup_insert_ne by lia. unfold p1.
    rewrite withNewChild_parent by assumption.
    split; [reflexivity|]. split; [exact Hty|]. split; [exact Hopen|].
    simpl. now rewrite Hcs, Hlen0.
  - unfold p1, withNewChild. st_simpl. rewrite last_snoc. simpl. now rewrite Hlen0.
  - intros i c Hic. apply lookup_app_Some in Hic as [Hic|[Hge Hic]].
    + destruct (Hcells _ _ Hic) as [[Hrc Hcl] (nc & Hnc & Htc & Hpc & Hcc & Hhc & Hac & Htr)].
      split; [lia|]. destruct (Hfr0 _ _ Hnc) as (b & Hb & _).
      unfold rowCellOk. st_simpl.
      exists (withOpen b nc). rewrite list_lookup_insert_ne by lia.
      unfold p1. rewrite withNewChild_other by lia.
      split; [exact Hb|]. simpl.
      split; [exact Htc|]. split; [exact Hpc|]. split; [exact Hcc|].
      split; [exact Hhc|]. split; [exact Hac|exact Htr].
    + apply list_lookup_singleton_Some in Hic as [Hi <-].
      assert (i = length cs) as -> by lia.
      split; [lia|]. unfold rowCellOk. st_simpl.
      eexists. rewrite list_lookup_insert_eq by lia.
      split; [reflexivity|]. simpl. repeat (split; [reflexivity|]).
      split; [exact Hal|exact Htrim].
Qed.

Lemma rowCells_inv data columns header r : forall fuel col i p cs col' p',
  RowInv p r header columns cs -> length cs = col ->
  rowCells data columns header fuel col i p = Ok col' p' ->
  exists cs', RowInv p' r header columns cs' /\ length cs' = col' /\
              (col <= length columns -> col' <= length columns).
Proof.
  induction fuel as [|fuel IH]; intros col i p cs col' p' Hinv Hlen H; simpl in H.
  - apply ret_Ok in H as [<- <-]. eauto.
  - destruct (col <? length columns) eqn:Hcol; simpl in H;
      [|apply ret_Ok in H as [<- <-]; eauto].
    destruct (inb data i); simpl in H; [|apply ret_Ok in H as [<- <-]; eauto].
    apply Nat.ltb_lt in Hcol.
    apply bind_Ok in H as (c & p0 & H0 & H). apply lift_Ok in H0 as [Hsl ->].
    destruct (lookup_lt_is_Some_2 _ _ Hcol) as [al Hal].
    destruct (row_add_cell p r header columns cs (Some c) al Hinv) as (p1 & Hp1 & Hinv1).
    { now rewrite Hlen. }
    { eapply cell_trimmed. exact Hsl. }
    rewrite Hlen in Hp1.
    assert (H' : (addBlock TableCell (Some c) ≫= fun cell =>
                  lift (columns !! col) ≫= fun al =>
                  update (Some cell) (withCell header al)) p = Ok tt p1 ->
                 exists p1', p1' = p1 /\
                 rowCells data columns header fuel (S col)
                   (cellEndFrom data (skipWhile (isc " ") data i) + 1) p1' = Ok col' p').
    { intros Hq. exists p1. split; [reflexivity|].
      revert H Hq. unfold mbind, M_bind.
      destruct (addBlock TableCell (Some c) p) as [cell pa|]; [|discriminate].
      destruct (lift (columns !! col) pa) as [al' pb|]; [|discriminate].
      destruct (update (Some cell) (withCell header al') pb) as [[] pc|]; [|discriminate].
      intros H [= <-]. exact H. }
    destruct (H' Hp1) as (? & -> & Hrest).
    assert (Hlen1 : length (cs ++ [length (heap p)]) = S col)
      by (rewrite length_app; simpl; lia).
    destruct (IH _ _ _ _ _ _ Hinv1 Hlen1 Hrest) as (cs' & Hinv' & Hlen' & Hle').
    exists cs'. split; [assumption|]. split; [assumption|]. intros _. apply Hle'. lia.
Qed.

Lemma padCells_inv columns header r : forall fuel col p cs p',
  RowInv p r header columns cs -> length cs = col ->
  length columns - col <= fuel ->
  padCells columns header fuel col p = Ok tt p' ->
  exists cs', RowInv p' r header columns cs' /\
              length cs' = Nat.max col (length columns).
Proof.
  induction fuel as [|fuel IH]; intros col p cs p' Hinv Hlen Hf H; simpl in H.
  - apply ret_Ok in H as [_ <-]. exists cs. split; [assumption|]. lia.
  - destruct (col <? length columns) eqn:Hcol; simpl in H.
    2:{ apply ret_Ok in H as [_ <-]. exists cs. split; [assumption|].
        apply Nat.ltb_ge in Hcol. lia. }
    apply Nat.ltb_lt in Hcol.
    destruct (lookup_lt_is_Some_2 _ _ Hcol) as [al Hal].
    destruct (row_add_cell p r header columns cs None al Hinv) as (p1 & Hp1 & Hinv1).
    { now rewrite Hlen. }
    { intros s [=]. }
    rewrite Hlen in Hp1.
    assert (Hrest : padCells columns header fuel (S col) p1 = Ok tt p').
    { revert H Hp1. unfold mbind, M_bind.
      destruct (addBlock TableCell None p) as [cell pa|]; [|discriminate].
      destruct (lift (columns !! col) pa) as [al' pb|]; [|discriminate].
      destruct (update (Some cell) (withCell header al') pb) as [[] pc|]; [|discriminate].
      intros H [= <-]. exact H. }
    assert (Hlen1 : length (cs ++ [length (heap p)]) = S col)
      by (rewrite length_app; simpl; lia).
    assert (Hf1 : length columns - S col <= fuel) by lia.
    destruct (IH _ _ _ _ Hinv1 Hlen1 Hf1 Hrest) as (cs' & Hinv' & Hlen').
    exists cs'. split; [assumption|]. lia.
Qed.

Lemma tableRow_inv data columns header p u p' :
  wf p -> tableRow data columns header p = Ok u p' ->
  exists cs, RowInv p' (length (heap p)) header columns cs /\
             length cs = length columns.
Proof.
  intros Hwf H. destruct u. unfold tableRow in H.
  apply bind_Ok in H as (r & p1 & H1 & H).
  apply addBlock_Ok in H1 as (Hwf1 & t & Hadd & Hk); [|assumption].
  destruct Hadd as (-> & Hlen1 & Htip1 & _ & Hlt & _).
  apply bind_Ok in H as (c0 & p1' & H0 & H). apply lift_Ok in H0 as [_ ->].
  apply bind_Ok in H as (col & p2 & H2 & H).
  assert (Hinv1 : RowInv p1 (length (heap p)) header columns []).
  { split; [apply Hwf1|]. split; [lia|]. split; [|split].
    - eexists. split; [exact Hk|]. repeat split.
    - simpl. exact Htip1.
    - intros i c Hc. discriminate. }
  destruct (rowCells_inv _ _ _ _ _ _ _ _ _ _ _ Hinv1 eq_refl H2)
    as (cs & Hinv2 & Hlen2 & Hle2).
  destruct (padCells_inv _ _ _ _ _ _ _ _ Hinv2 Hlen2 (Nat.le_refl _) H)
    as (cs' & Hinv3 & Hlen3).
  exists cs'. split; [assumption|].
  assert (Hz : 0 <= length columns) by lia. specialize (Hle2 Hz). lia.
Qed.
(** ** Reading concrete results *)

(** The raw contents of the children of node [n]. *)
Definition childContents (p : Markdown) (n : nat) : option (list (option bytes)) :=
  nd ← heap p !! n;
  mapM (fun c => content <$> heap p !! c) (Children nd).

(** The cells [tableRow] makes of [data] for [n] left-aligned columns, in a
    fresh document. *)
Definition rowCellsOf (data : bytes) (n : nat) : option (list (option bytes)) :=
  match tableRow data (replicate n 0%Z) false (New Tables) with
  | Ok _ p => childContents p 1
  | Err _ => None
  end.
(** ** A table attempt that fails *)

Lemma tableHeader_fail data i cols hdr p :
  tableHeaderScan data = Some (false, i, cols, hdr) ->
  tableHeader data p = Ok (0, cols) p.
Proof.
  intros H. unfold tableHeader, mbind, M_bind, lift. rewrite H. reflexivity.
Qed.

Lemma filter_ne_id (l : list nat) k :
  (forall c, c ∈ l -> c <> k) -> filter (fun c => c ≠ k) l = l.
Proof.
  induction l as [|x l IH]; intros H; [reflexivity|].
  rewrite filter_cons. destruct (decide (x ≠ k)) as [Hx|Hx].
  - f_equal. apply IH. intros c Hc. apply H. now right.
  - exfalso. apply Hx, H. now left.
Qed.

Lemma filter_ne_snoc (l : list nat) k :
  (forall c, c ∈ l -> c <> k) -> filter (fun c => c ≠ k) (l ++ [k]) = l.
Proof.
  intros H. rewrite filter_app, (filter_ne_id l k H).
  rewrite filter_cons. destruct (decide (k ≠ k)); [congruence|].
  rewrite filter_nil. apply app_nil_r.
Qed.

Lemma reach_below h k n m :
  (forall j nd c, j < k -> h !! j = Some nd -> c ∈ Children nd -> c < k) ->
  n < k -> reach h n m -> m < k.
Proof.
  intros Hb Hn Hr. induction Hr as [|n nd c m Hnd Hc Hr IH]; [assumption|].
  apply IH. eapply Hb; eauto.
Qed.

Lemma table_fail_Ok data i cols hdr p k p1 :
  wf p -> tableHeaderScan data = Some (false, i, cols, hdr) ->
  addBlock Table None p = Ok k p1 ->
  exists p' t,
    table data p = Ok 0 p' /\ wf p' /\ k = length (heap p) /\
    heap p1 !! k = Some (withContent None (withParent (Some t) (freshNode Table))) /\
    tip p' = Some t /\ t < k /\
    length (heap p') = S k /\ heap p' !! k = Some (freshNode Table) /\
    (forall j nd, heap p !! j = Some nd ->
       exists b, heap p' !! j = Some (withOpen b nd)) /\
    ~ reach (heap p') 0 k.
Proof.
  intros Hwf Hscan Hadd.
  pose proof Hadd as Hadd'.
  apply addBlock_Ok in Hadd' as (Hwf1 & t & Hadded & Hk); [|assumption].
  destruct Hadded as (-> & Hlen & Htip1 & Hs1 & Hlt & _ & (nt & Hnt & _) & Hfr).
  destruct (Hfr _ _ Hnt) as [bt Hbt]. rewrite decide_True in Hbt by reflexivity.
  set (k := length (heap p)) in *.
  set (nk := withContent None (withParent (Some t) (freshNode Table))) in *.
  set (nt1 := withChildren (Children nt ++ [k]) (withOpen bt nt)) in *.
  assert (Hun : Unlink (Some k) (setTip (Some t) p1)
                = Ok tt (setHeap (<[k := withParent None nk]>
                    (<[t := withChildren (filter (fun c => c ≠ k) (Children nt1)) nt1]>
                       (heap p1))) (setTip (Some t) p1))).
  { rewrite (Unlink_linked k (setTip (Some t) p1) nk t nt1);
      st_simpl; first [reflexivity|assumption|lia]. }
  assert (Htable : table data p = Ok 0 (setHeap (<[k := withParent None nk]>
                    (<[t := withChildren (filter (fun c => c ≠ k) (Children nt1)) nt1]>
                       (heap p1))) (setTip (Some t) p1))).
  { unfold table, mbind, M_bind. rewrite Hadd.
    rewrite (tableHeader_fail _ _ _ _ _ Hscan). simpl.
    unfold deref. rewrite Hk. unfold modify. change (Parent nk) with (Some t).
    rewrite Hun. reflexivity. }
  assert (Hwfp : wf p) by assumption.
  destruct Hwf as (Hh & Hd & Ha & Htipp).
  assert (Hfilter : filter (fun c => c ≠ k) (Children nt1) = Children nt).
  { unfold nt1. simpl. apply filter_ne_snoc. intros c Hc.
    pose proof (wf_children _ Hh _ _ _ Hnt Hc). unfold k. lia. }
  eexists _, t. split; [exact Htable|].
  split.
  { eapply (pres_table data p 0); [exact Hwfp| |exact Htable].
    destruct (tip p) eqn:E; [eauto|].
    (* the tip of a state in which addBlock succeeded is not nil *)
    exfalso. unfold addBlock in Hadd.
    apply bind_Ok in Hadd as ([] & p0 & H0 & Hadd).
    rewrite (closeUnmatchedBlocks_closed p Ha) in H0. injection H0 as <-.
    apply bind_Ok in Hadd as (k0 & p2 & H2 & _).
    unfold addChild, addExistingChild in H2.
    apply bind_Ok in H2 as (n0 & p3 & H3 & H2). apply NewNode_Ok in H3 as [-> ->].
    apply bind_Ok in H2 as (nd0 & p4 & H4 & H2). apply deref_Ok in H4 as [_ ->].
    apply bind_Ok in H2 as (h0 & p4 & H4 & H2). apply gets_Ok in H4 as [-> ->].
    apply bind_Ok in H2 as ([] & p5 & H5 & _).
    apply climb_tip in H5 as [? H5]. st_simpl. congruence. }
  split; [reflexivity|]. split; [exact Hk|]. split; [reflexivity|].
  split; [assumption|]. st_simpl. rewrite !length_insert.
  split; [assumption|]. split.
  { rewrite list_lookup_insert_eq by (rewrite length_insert; lia). reflexivity. }
  assert (Hold : forall j nd, heap p !! j = Some nd ->
     exists b, <[k := withParent None nk]>
       (<[t := withChildren (filter (fun c => c ≠ k) (Children nt1)) nt1]> (heap p1)) !! j
     = Some (withOpen b nd)).
  { intros j nd Hj. assert (j < k) by (eapply lookup_lt_Some; eauto).
    rewrite list_lookup_insert_ne by lia.
    destruct (decide (j = t)) as [->|Hne].
    - exists bt. rewrite list_lookup_insert_eq by lia. rewrite Hfilter.
      assert (nd = nt) as -> by congruence. unfold nt1. now destruct nt.
    - rewrite list_lookup_insert_ne by auto.
      destruct (Hfr _ _ Hj) as [b Hb]. rewrite decide_False in Hb by assumption.
      exists b. rewrite Hb. now destruct nd. }
  split; [exact Hold|].
  intros Hr. destruct Hh as [Hc _ [d0 Hd0]].
  assert (0 < k) by (eapply lookup_lt_Some; eauto).
  apply (reach_below _ k) in Hr; [lia| |assumption].
  intros j nd c Hj Hnd Hin.
  destruct (lookup_lt_is_Some_2 (heap p) j Hj) as [nd0 Hnd0].
  destruct (Hold _ _ Hnd0) as [b Hb].
  assert (nd = withOpen b nd0) as -> by congruence.
  simpl in Hin. apply (Hc _ _ _ Hnd0 Hin).
Qed.
(** ** Buffers read through a suffix *)

Lemma drop_get data i s k c :
  drop i data = s -> s !! k = Some c ->
  i + k < length data /\ get data (i + k) = c.
Proof.
  intros <- H. rewrite lookup_drop in H. split.
  - now apply lookup_lt_Some in H.
  - now apply get_lookup.
Qed.

Lemma skipWhile_eq P data i j :
  i <= j <= length data ->
  (forall k, i <= k < j -> P (get data k) = true) ->
  (j < length data -> P (get data j) = false) ->
  skipWhile P data i = j.
Proof.
  intros [Hij Hj] Hall Hstop.
  pose proof (skipWhile_ge P data i) as Hge.
  pose proof (skipWhile_le P data i ltac:(lia)) as Hle.
  destruct (Nat.lt_trichotomy (skipWhile P data i) j) as [Hlt | [Heq | Hgt]].
  - pose proof (skipWhile_stop P data i ltac:(lia)) as Hs.
    rewrite Hall in Hs by lia. discriminate.
  - exact Heq.
  - destruct (skipWhile_all P data i j ltac:(lia)) as [Hl Hp].
    rewrite Hstop in Hp by assumption. discriminate.
Qed.

Lemma skipWhile_none P data i :
  i < length data -> P (get data i) = false -> skipWhile P data i = i.
Proof. intros Hi Hp. apply skipWhile_eq; [lia|intros; lia|auto]. Qed.

Lemma backslashRun_none data i fuel :
  (0 < i -> get data (i - 1) <> "\") -> backslashRun data i fuel 0 = 0.
Proof.
  intros H. destruct fuel as [|f]; [reflexivity|]. simpl.
  destruct i as [|i]; [reflexivity|].
  replace (S i - 0 - 1) with (S i - 1) by lia.
  destruct (isc "\" (get data (S i - 1))) eqn:E.
  - apply isc_true in E. exfalso. apply H; [lia|]. now symmetry.
  - now rewrite andb_false_r.
Qed.

Lemma isBackslashEscaped_none data i :
  (0 < i -> get data (i - 1) <> "\") -> isBackslashEscaped data i = false.
Proof. intros H. unfold isBackslashEscaped. now rewrite backslashRun_none. Qed.
Lemma skipWhile_upto P data i j :
  i <= j -> j < length data -> P (get data j) = false -> skipWhile P data i <= j.
Proof.
  intros Hij Hj Hp. destruct (Nat.le_gt_cases (skipWhile P data i) j) as [H|H]; [exact H|].
  destruct (skipWhile_all P data i j ltac:(lia)) as [_ Hq]. congruence.
Qed.

Lemma underline_short data colCount f i col columns m :
  col < length columns -> i + m < length data -> m < 3 ->
  get data (i + m) <> ":" -> get data (i + m) <> "-" ->
  exists b i' col' columns',
    underlineLoop data colCount (S f) i col columns
    = Some (b, i', col', columns') /\
    (b = true -> col' = col).
Proof.
  intros Hcol Him Hm Hc Hd.
  destruct (lookup_lt_is_Some_2 columns col Hcol) as [c0 Hc0].
  assert (Hdash : isc "-" (get data (i + m)) = false) by now apply isc_false.
  cbn [underlineLoop].
  destruct (inb data i && notc NL (get data i)); [|eauto 10].
  destruct (isc ":" (get data i)) eqn:EA.
  - apply isc_true in EA.
    assert (1 <= m) by (destruct m; [rewrite Nat.add_0_r in Hc; congruence|lia]).
    rewrite Hc0. cbn [mbind option_bind].
    pose proof (skipWhile_upto (isc "-") data (i + 1) (i + m) ltac:(lia) Him Hdash) as Hu.
    pose proof (skipWhile_ge (isc "-") data (i + 1)) as Hg.
    set (i2 := skipWhile (isc "-") data (i + 1)) in *.
    destruct (inb data i2 && isc ":" (get data i2)) eqn:EB.
    + apply andb_true_iff in EB as [_ EB]. apply isc_true in EB.
      assert (i2 <> i + m) by (intros ->; congruence).
      rewrite list_lookup_insert_eq by assumption. cbn [mbind option_bind].
      destruct (_ =? length data); [eauto 10|].
      replace (0 + 1 + (i2 - (i + 1)) + 1 <? 3) with true
        by (symmetry; apply Nat.ltb_lt; lia).
      eauto 10.
    + cbn [mbind option_bind].
      destruct (_ =? length data); [eauto 10|].
      replace (0 + 1 + (i2 - (i + 1)) <? 3) with true
        by (symmetry; apply Nat.ltb_lt; lia).
      eauto 10.
  - cbn [mbind option_bind].
    pose proof (skipWhile_upto (isc "-") data i (i + m) ltac:(lia) Him Hdash) as Hu.
    pose proof (skipWhile_ge (isc "-") data i) as Hg.
    set (i2 := skipWhile (isc "-") data i) in *.
    destruct (inb data i2 && isc ":" (get data i2)) eqn:EB.
    + apply andb_true_iff in EB as [_ EB]. apply isc_true in EB.
      assert (i2 <> i + m) by (intros ->; congruence).
      rewrite Hc0. cbn [mbind option_bind].
      destruct (_ =? length data); [eauto 10|].
      replace (0 + (i2 - i) + 1 <? 3) with true
        by (symmetry; apply Nat.ltb_lt; lia).
      eauto 10.
    + cbn [mbind option_bind].
      destruct (_ =? length data); [eauto 10|].
      replace (0 + (i2 - i) <? 3) with true
        by (symmetry; apply Nat.ltb_lt; lia).
      eauto 10.
Qed.
(** ** The underline of a table header, column by column

    A column of the underline is described by its left colon, the number of
    its dashes and its right colon. *)

Definition ucol : Type := bool * nat * bool.

Definition colText (c : ucol) : bytes :=
  let '(l, n, r) := c in
  (if l then [":"] else []) ++ replicate n "-" ++ (if r then [":"] else []).

Definition colWidth (c : ucol) : nat :=
  let '(l, n, r) := c in Nat.b2n l + n + Nat.b2n r.

Definition colOk (c : ucol) : bool := 3 <=? colWidth c.

Definition colAlign (c : ucol) : Z :=
  let '(l, n, r) := c in
  Z.lor (if l then TableAlignmentLeft else 0%Z)
        (if r then TableAlignmentRight else 0%Z).

Fixpoint joinPipe (l : list bytes) : bytes :=
  match l with
  | [] => []
  | [x] => x
  | x :: l' => x ++ "|" :: joinPipe l'
  end.

Lemma colText_length c : length (colText c) = colWidth c.
Proof.
  destruct c as [[l n] r]. unfold colText, colWidth.
  rewrite !length_app, length_replicate. destruct l, r; simpl; lia.
Qed.

Lemma colText_chars c x : x ∈ colText c -> x = ":" \/ x = "-".
Proof.
  destruct c as [[l n] r]. unfold colText. rewrite !elem_of_app.
  intros [H | [H | H]].
  - destruct l; [apply list_elem_of_singleton in H; auto|inversion H].
  - apply elem_of_replicate in H as [-> _]. auto.
  - destruct r; [apply list_elem_of_singleton in H; auto|inversion H].
Qed.

Lemma underline_col data colCount f i col columns l n r t rest :
  drop i data = colText (l, n, r) ++ t :: rest ->
  3 <= colWidth (l, n, r) ->
  t <> ":" -> t <> "-" -> t <> " " ->
  columns !! col = Some 0%Z ->
  underlineLoop data colCount (S f) i col columns
  = let i3 := i + colWidth (l, n, r) in
    let columns' := <[col := colAlign (l, n, r)]> columns in
    if isc "|" t && negb (isBackslashEscaped data i3) then
      let i' := skipWhile (isc " ") data (i3 + 1) in
      if (colCount <=? col + 1) && inb data i' && notc NL (get data i')
      then Some (false, i', col + 1, columns')
      else underlineLoop data colCount f i' (col + 1) columns'
    else if (notc "|" t || isBackslashEscaped data i3) && (col + 1 <? colCount)
    then Some (false, i3, col, columns')
    else if isc NL t then underlineLoop data colCount f i3 (col + 1) columns'
    else Some (false, i3, col, columns').
Proof.
  intros Hd Hw Htc Htd Hts Hc0.
  assert (Hcol : col < length columns) by now apply lookup_lt_Some in Hc0.
  remember (Nat.b2n l) as a eqn:Ha. remember (Nat.b2n r) as b eqn:Hb.
  assert (Hw' : 3 <= a + n + b) by (subst a b; exact Hw).
  assert (Hn : 1 <= n) by (destruct l, r; simpl in *; lia).
  assert (HlenA : length (if l then [":"] else [] : bytes) = a)
    by (subst a; now destruct l).
  assert (HlenB : length (if r then [":"] else [] : bytes) = b)
    by (subst b; now destruct r).
  (* the bytes of the column *)
  assert (Hat : forall k c, (colText (l, n, r) ++ t :: rest) !! k = Some c ->
                  i + k < length data /\ get data (i + k) = c)
    by (intros k c; apply drop_get; exact Hd).
  assert (Hl : l = true -> get data i = ":").
  { intros ->. destruct (Hat 0 ":" eq_refl) as [_ H]. now rewrite Nat.add_0_r in H. }
  assert (Hdash : forall k, a <= k < a + n -> i + k < length data /\ get data (i + k) = "-").
  { intros k Hk. apply Hat. unfold colText.
    rewrite lookup_app_l by (rewrite !length_app, length_replicate, HlenA; lia).
    rewrite lookup_app_r by (rewrite HlenA; lia).
    rewrite lookup_app_l by (rewrite length_replicate, HlenA; lia).
    apply lookup_replicate_2. rewrite HlenA. lia. }
  assert (Hr : r = true -> i + (a + n) < length data /\ get data (i + (a + n)) = ":").
  { intros ->. apply Hat. unfold colText.
    rewrite lookup_app_l by (rewrite !length_app, length_replicate, HlenA; simpl; lia).
    rewrite lookup_app_r by (rewrite HlenA; lia).
    rewrite lookup_app_r by (rewrite length_replicate, HlenA; lia).
    rewrite length_replicate, HlenA.
    replace (a + n - a - n) with 0 by lia. reflexivity. }
  assert (Ht : i + (a + n + b) < length data /\ get data (i + (a + n + b)) = t).
  { apply Hat. rewrite lookup_app_r by (rewrite colText_length; unfold colWidth; subst a b; lia).
    rewrite colText_length. unfold colWidth. rewrite <- Ha, <- Hb.
    now rewrite Nat.sub_diag. }
  assert (H0 : inb data i && notc NL (get data i) = true).
  { destruct (Hdash a ltac:(lia)) as [Hlt Hg].
    assert (i < length data) by lia.
    replace (inb data i) with true by (symmetry; now apply inb_true).
    apply notc_true. destruct l.
    - rewrite Hl by reflexivity. discriminate.
    - simpl in Ha. subst a. rewrite Nat.add_0_r in Hg. rewrite Hg. discriminate. }
  cbn [underlineLoop]. rewrite H0. clear H0.
  (* the left colon *)
  assert (HA : (if isc ":" (get data i)
                then c ← columns !! col;
                     Some (i + 1, 0 + 1, <[col := Z.lor c TableAlignmentLeft]> columns)
                else Some (i, 0, columns))
               = Some (i + a, a, <[col := if l then TableAlignmentLeft else 0%Z]> columns)).
  { destruct l; simpl in Ha; subst a.
    - rewrite Hl by reflexivity. replace (isc ":" ":") with true by reflexivity.
      rewrite Hc0. reflexivity.
    - destruct (Hdash 0 ltac:(simpl; lia)) as [_ Hg]. rewrite Nat.add_0_r in Hg |- *.
      rewrite Hg. replace (isc ":" "-") with false by reflexivity.
      now rewrite list_insert_id. }
  rewrite HA. clear HA. cbn [mbind option_bind].
  (* the dashes *)
  assert (HB : skipWhile (isc "-") data (i + a) = i + (a + n)).
  { apply skipWhile_eq.
    - destruct (Hdash a ltac:(lia)). destruct r.
      + destruct (Hr eq_refl). lia.
      + destruct Ht. lia.
    - intros k Hk. destruct (Hdash (k - i) ltac:(lia)) as [_ Hg].
      replace (i + (k - i)) with k in Hg by lia. rewrite Hg. reflexivity.
    - intros _. apply isc_false. destruct r.
      + destruct (Hr eq_refl) as [_ ->]. discriminate.
      + destruct Ht as [_ Hg]. simpl in Hb. subst b.
        rewrite Nat.add_0_r in Hg. rewrite Hg. congruence. }
  rewrite HB. clear HB.
  (* the right colon *)
  set (cols1 := <[col := if l then TableAlignmentLeft else 0%Z]> columns).
  assert (HC : (if inb data (i + (a + n)) && isc ":" (get data (i + (a + n)))
                then c ← cols1 !! col;
                     Some (i + (a + n) + 1, a + (i + (a + n) - (i + a)) + 1,
                           <[col := Z.lor c TableAlignmentRight]> cols1)
                else Some (i + (a + n), a + (i + (a + n) - (i + a)), cols1))
               = Some (i + (a + n + b), a + n + b,
                       <[col := colAlign (l, n, r)]> columns)).
  { destruct r; simpl in Hb; subst b.
    - destruct (Hr eq_refl) as [Hlt ->].
      replace (inb data (i + (a + n))) with true by (symmetry; now apply inb_true).
      replace (isc ":" ":") with true by reflexivity. cbn [andb].
      unfold cols1. rewrite list_lookup_insert_eq by assumption.
      cbn [mbind option_bind]. rewrite list_insert_insert_eq.
      replace (i + (a + n) + 1) with (i + (a + n + 1)) by lia.
      replace (a + (i + (a + n) - (i + a)) + 1) with (a + n + 1) by lia.
      reflexivity.
    - destruct Ht as [Hlt Hg]. rewrite Nat.add_0_r in Hg.
      rewrite Hg. replace (isc ":" t) with false by (symmetry; now apply isc_false).
      rewrite andb_false_r. unfold cols1, colAlign. rewrite Z.lor_0_r.
      replace (a + (i + (a + n) - (i + a))) with (a + n + 0) by lia.
      now rewrite !Nat.add_0_r. }
  rewrite HC. clear HC. cbn [mbind option_bind].
  (* the spaces and the end of the column *)
  destruct Ht as [Hlt Hg].
  assert (HD : skipWhile (isc " ") data (i + (a + n + b)) = i + (a + n + b)).
  { apply skipWhile_none; [assumption|]. rewrite Hg. now apply isc_false. }
  rewrite HD.
  replace (i + (a + n + b) =? length data) with false
    by (symmetry; apply Nat.eqb_neq; lia).
  replace (a + n + b <? 3) with false
    by (symmetry; apply Nat.ltb_ge; lia).
  rewrite Hg. unfold colWidth. rewrite <- Ha, <- Hb. reflexivity.
Qed.
Lemma underline_head cs post x rest :
  joinPipe (map colText cs) ++ NL :: post = x :: rest ->
  x = ":" \/ x = "-" \/ x = "|" \/ x = NL.
Proof.
  destruct cs as [|c cs]; [simpl; intros [= <- _]; auto|].
  assert (H : exists tl, joinPipe (map colText (c :: cs)) ++ NL :: post
                         = colText c ++ tl /\ (exists y tl', tl = y :: tl' /\ (y = "|" \/ y = NL))).
  { destruct cs as [|c' cs].
    - exists (NL :: post). split; [reflexivity|eauto].
    - exists ("|" :: joinPipe (map colText (c' :: cs)) ++ NL :: post).
      split; [|eauto]. cbn [map joinPipe]. now rewrite <- app_assoc. }
  destruct H as (tl & -> & y & tl' & -> & Hy).
  destruct (colText c) as [|z zs] eqn:E.
  - simpl. intros [= <- _]. tauto.
  - simpl. intros [= <- _].
    destruct (colText_chars c z) as [-> | ->]; [rewrite E; apply list_elem_of_here|auto|auto].
Qed.

Lemma underlineLoop_cols cs : forall data colCount fuel i col done post,
  cs <> [] ->
  drop i data = joinPipe (map colText cs) ++ NL :: post ->
  length done = col -> col + length cs <= colCount ->
  length data - i <= fuel ->
  exists b i' col' columns',
    underlineLoop data colCount fuel i col
      (done ++ replicate (colCount - col) 0%Z)
    = Some (b, i', col', columns') /\
    b && (col' =? colCount)
    = forallb colOk cs && (col + length cs =? colCount) /\
    (b && (col' =? colCount) = true ->
     i' = i + length (joinPipe (map colText cs)) /\
     columns' = done ++ map colAlign cs).
Proof.
  induction cs as [|c cs IH]; intros data colCount fuel i col done post
    Hne Hd Hlen Hcol Hfuel; [congruence|].
  clear Hne. cbn [length] in Hcol.
  assert (Hsplit : exists t rest,
            joinPipe (map colText (c :: cs)) = colText c ++ (if cs is [] then [] else "|" :: joinPipe (map colText cs)) /\
            drop i data = colText c ++ t :: rest /\
            ((cs = [] /\ t = NL /\ rest = post) \/
             (cs <> [] /\ t = "|" /\ rest = joinPipe (map colText cs) ++ NL :: post))).
  { destruct cs as [|c' cs].
    - exists NL, post. cbn [map joinPipe]. rewrite app_nil_r. split; [reflexivity|].
      split; [exact Hd|]. now left.
    - exists "|", (joinPipe (map colText (c' :: cs)) ++ NL :: post).
      split; [reflexivity|]. split; [|right; split; [discriminate|auto]].
      rewrite Hd. cbn [map joinPipe]. now rewrite <- app_assoc. }
  destruct Hsplit as (t & rest & Hjoin & Hd' & Hcase).
  assert (Htc : t <> ":" /\ t <> "-" /\ t <> " ")
    by (destruct Hcase as [(_ & -> & _) | (_ & -> & _)]; repeat split; discriminate).
  destruct Htc as (Htc & Htd & Hts).
  assert (Hi : i + colWidth c < length data /\ get data (i + colWidth c) = t).
  { apply (drop_get data i _ (colWidth c) t Hd').
    rewrite lookup_app_r by (rewrite colText_length; lia).
    now rewrite colText_length, Nat.sub_diag. }
  destruct Hi as [Hi Hgt].
  destruct fuel as [|f]; [lia|].
  assert (Hc0 : (done ++ replicate (colCount - col) 0%Z) !! col = Some 0%Z).
  { rewrite lookup_app_r by lia. apply lookup_replicate_2. lia. }
  assert (Hcols : <[col := colAlign c]> (done ++ replicate (colCount - col) 0%Z)
                  = (done ++ [colAlign c]) ++ replicate (colCount - (col + 1)) 0%Z).
  { rewrite insert_app_r_alt by lia. rewrite Hlen, Nat.sub_diag.
    replace (colCount - col) with (S (colCount - (col + 1))) by lia.
    cbn [replicate]. now rewrite <- app_assoc. }
  destruct (colOk c) eqn:Hok.
  - (* the column is accepted *)
    pose proof Hok as Hok'. apply Nat.leb_le in Hok. destruct c as [[l n] r].
    rewrite (underline_col data colCount f i col _ l n r t rest Hd' Hok Htc Htd Hts Hc0).
    cbv zeta. rewrite Hcols.
    destruct Hcase as [(-> & -> & ->) | (Hne & -> & ->)].
    + (* the last column: a newline follows *)
      replace (isc "|" NL) with false by reflexivity.
      replace (notc "|" NL) with true by reflexivity.
      replace (isc NL NL) with true by reflexivity.
      cbn [andb orb length forallb map app]. rewrite Hok'.
      destruct (col + 1 <? colCount) eqn:E.
      * apply Nat.ltb_lt in E. eexists _, _, _, _. split; [reflexivity|].
        replace (col + 1 =? colCount) with false by (symmetry; apply Nat.eqb_neq; lia).
        rewrite andb_false_r. split; [reflexivity|discriminate].
      * apply Nat.ltb_ge in E. assert (col + 1 = colCount) by lia.
        exists true, (i + colWidth (l, n, r)), (col + 1),
          ((done ++ [colAlign (l, n, r)]) ++ replicate (colCount - (col + 1)) 0%Z).
        split.
        { destruct f as [|f]; [reflexivity|]. cbn [underlineLoop].
          rewrite Hgt. replace (notc NL NL) with false by reflexivity.
          now rewrite andb_false_r. }
        replace (col + 1 =? colCount) with true by (symmetry; apply Nat.eqb_eq; lia).
        split; [reflexivity|]. intros _. cbn [joinPipe]. rewrite colText_length.
        split; [reflexivity|].
        replace (colCount - (col + 1)) with 0 by lia. now rewrite app_nil_r.
    + (* a pipe and the next column follow *)
      replace (isc "|" "|") with true by reflexivity.
      assert (Hesc : isBackslashEscaped data (i + colWidth (l, n, r)) = false).
      { apply isBackslashEscaped_none. intros _.
        destruct (lookup_lt_is_Some_2 (colText (l, n, r)) (colWidth (l, n, r) - 1))
          as [x Hx]; [rewrite colText_length; lia|].
        destruct (drop_get data i _ (colWidth (l, n, r) - 1) x Hd') as [_ Hg].
        { rewrite lookup_app_l by (rewrite colText_length; lia). exact Hx. }
        replace (i + colWidth (l, n, r) - 1) with (i + (colWidth (l, n, r) - 1)) by lia.
        rewrite Hg. apply list_elem_of_lookup_2 in Hx.
        destruct (colText_chars _ _ Hx) as [-> | ->]; discriminate. }
      rewrite Hesc. cbn [negb andb].
      (* no space follows the pipe *)
      destruct (joinPipe (map colText cs) ++ NL :: post) as [|y tl] eqn:Erest;
        [now destruct (joinPipe (map colText cs))|].
      assert (Hy : i + colWidth (l, n, r) + 1 < length data /\
                   get data (i + colWidth (l, n, r) + 1) = y).
      { replace (i + colWidth (l, n, r) + 1) with (i + (colWidth (l, n, r) + 1)) by lia.
        apply (drop_get data i _ _ y Hd').
        rewrite lookup_app_r by (rewrite colText_length; lia).
        rewrite colText_length.
        now replace (colWidth (l, n, r) + 1 - colWidth (l, n, r)) with 1 by lia. }
      destruct Hy as [Hylt Hy].
      rewrite skipWhile_none;
        [|assumption
         |rewrite Hy; apply isc_false;
          destruct (underline_head _ _ _ _ Erest) as [-> | [-> | [-> | ->]]];
          discriminate].
      replace (colCount <=? col + 1) with false
        by (symmetry; apply Nat.leb_gt; destruct cs; [congruence|simpl in Hcol; lia]).
      cbn [andb].
      destruct (IH data colCount f (i + colWidth (l, n, r) + 1) (col + 1)
                  (done ++ [colAlign (l, n, r)]) post Hne)
        as (b & i' & col' & columns' & Hrun & Hb & Hres).
      { rewrite Erest.
        replace (i + colWidth (l, n, r) + 1) with (i + (colWidth (l, n, r) + 1)) by lia.
        rewrite <- drop_drop, Hd'. rewrite <- (colText_length (l, n, r)).
        rewrite <- Nat.add_1_r. rewrite <- drop_drop. rewrite drop_app_length.
        reflexivity. }
      { rewrite length_app. simpl. lia. }
      { lia. }
      { lia. }
      exists b, i', col', columns'. split; [exact Hrun|].
      cbn [forallb length]. rewrite Hok'. cbn [andb].
      replace (col + S (length cs)) with (col + 1 + length cs) by lia.
      split; [exact Hb|]. intros Ht. destruct (Hres Ht) as [-> ->].
      split.
      * rewrite Hjoin. destruct cs; [congruence|].
        rewrite length_app, colText_length. cbn [length]. lia.
      * now rewrite <- app_assoc.
  - (* the column is too short *)
    apply Nat.leb_gt in Hok.
    destruct (underline_short data colCount f i col
                (done ++ replicate (colCount - col) 0%Z) (colWidth c))
      as (b & i' & col' & columns' & Hrun & Hb).
    { rewrite length_app, length_replicate. lia. }
    { exact Hi. }
    { exact Hok. }
    { now rewrite Hgt. }
    { now rewrite Hgt. }
    exists b, i', col', columns'. split; [exact Hrun|].
    cbn [forallb andb]. replace (colOk c) with false
      by (symmetry; apply Nat.leb_gt; exact Hok).
    cbn [andb].
    assert (b && (col' =? colCount) = false) as ->.
    { destruct b; [|reflexivity]. rewrite (Hb eq_refl).
      apply Nat.eqb_neq. lia. }
    split; [reflexivity|discriminate].
Qed.
(** The number of occurrences of a byte. *)
Fixpoint countc (c : ascii) (s : bytes) : nat :=
  match s with
  | [] => 0
  | x :: s' => (if isc c x then 1 else 0) + countc c s'
  end.

Lemma headerPipes_run s : forall data fuel i colCount rest,
  drop i data = s ++ NL :: rest -> NL ∉ s ->
  (forall k, k < length s -> 0 < i + k -> get data (i + k - 1) <> "\") ->
  length s < fuel ->
  headerPipes data fuel i colCount = (i + length s, colCount + countc "|" s).
Proof.
  induction s as [|x s IH]; intros data fuel i colCount rest Hd Hnl Hbs Hf;
    (destruct fuel as [|f]; [simpl in Hf; lia|]); cbn [headerPipes].
  - destruct (drop_get data i _ 0 NL Hd eq_refl) as [Hlt Hg].
    rewrite Nat.add_0_r in Hg. rewrite Hg.
    replace (notc NL NL) with false by reflexivity.
    rewrite andb_false_r. simpl. now rewrite !Nat.add_0_r.
  - destruct (drop_get data i _ 0 x Hd eq_refl) as [Hlt Hg].
    rewrite Nat.add_0_r in Hlt, Hg. rewrite Hg.
    replace (inb data i) with true by (symmetry; now apply inb_true).
    replace (notc NL x) with true
      by (symmetry; apply notc_true; intros <-; apply Hnl, list_elem_of_here).
    cbn [andb].
    rewrite isBackslashEscaped_none
      by (intros Hi; specialize (Hbs 0); rewrite Nat.add_0_r in Hbs;
          apply Hbs; [simpl; lia|exact Hi]).
    cbn [negb]. rewrite andb_true_r.
    rewrite (IH data f (S i) _ rest).
    + cbn [length countc]. f_equal; [lia|]. destruct (isc "|" x); lia.
    + rewrite <- Nat.add_1_r, <- drop_drop, Hd. reflexivity.
    + intros H. apply Hnl. now apply list_elem_of_further.
    + intros k Hk _. replace (S i + k - 1) with (i + S k - 1) by lia.
      apply Hbs; [simpl; lia|lia].
    + simpl in Hf. lia.
Qed.
Lemma tableHeaderScan_underline hdr cs post :
  NL ∉ hdr -> "\"%char ∉ hdr -> head hdr <> Some "|" -> last hdr <> Some "|" ->
  1 <= countc "|" hdr -> length cs = S (countc "|" hdr) ->
  exists b i columns header,
    tableHeaderScan (hdr ++ NL :: joinPipe (map colText cs) ++ NL :: post)
    = Some (b, i, columns, header) /\
    b = forallb colOk cs /\
    (b = true ->
     i = length hdr + 1 + length (joinPipe (map colText cs)) /\
     columns = map colAlign cs /\ header = hdr ++ [NL]).
Proof.
  intros Hnl Hbs Hhd Hlast Hpipes Hlen.
  set (under := joinPipe (map colText cs) ++ NL :: post).
  set (data := hdr ++ NL :: under).
  assert (Hdl : length data = length hdr + S (length under))
    by (unfold data; rewrite length_app; reflexivity).
  assert (Hul : 1 <= length under)
    by (unfold under; rewrite length_app; simpl; lia).
  assert (Hget : forall k c, hdr !! k = Some c -> get data k = c).
  { intros k c Hk. apply get_lookup. unfold data.
    rewrite lookup_app_l by (now apply lookup_lt_Some in Hk). exact Hk. }
  assert (Hdrop : drop (length hdr + 1) data = under).
  { unfold data. rewrite <- drop_drop, drop_app_length. reflexivity. }
  assert (Hhl : 1 <= length hdr) by (destruct hdr; [simpl in Hpipes; lia|simpl; lia]).
  unfold tableHeaderScan.
  rewrite (headerPipes_run hdr data (length data) 0 1 under); [| reflexivity | assumption | | lia].
  2:{ intros k Hk Hpos. simpl.
      destruct (lookup_lt_is_Some_2 hdr (k - 1) ltac:(lia)) as [c Hc].
      rewrite (Hget _ _ Hc). intros ->. apply Hbs.
      now apply list_elem_of_lookup_2 in Hc. }
  cbn [Nat.add].
  replace (S (countc "|" hdr) =? 1) with false by (symmetry; apply Nat.eqb_neq; lia).
  assert (Hnlat : get data (length hdr) = NL)
    by (apply get_lookup; unfold data; now rewrite list_lookup_middle).
  assert (Hpast : pastNewline data (length hdr) = length hdr + 1).
  { unfold pastNewline. rewrite Hnlat.
    replace (inb data (length hdr)) with true by (symmetry; apply inb_true; lia).
    reflexivity. }
  rewrite Hpast.
  assert (Hslice : sliceTo data (length hdr + 1) = Some (hdr ++ [NL])).
  { apply sliceTo_Some. split; [lia|]. unfold data.
    change (hdr ++ NL :: under) with (hdr ++ [NL] ++ under). rewrite app_assoc.
    symmetry. apply take_app_length'. rewrite length_app. reflexivity. }
  rewrite Hslice. cbn [mbind option_bind].
  destruct (lookup_lt_is_Some_2 hdr 0 ltac:(lia)) as [c0 Hc0'].
  assert (Hc0 : idx data 0 = Some c0)
    by (unfold idx, data; rewrite lookup_app_l by lia; exact Hc0').
  rewrite Hc0. cbn [mbind option_bind].
  replace (isc "|" c0) with false
    by (symmetry; apply isc_false; intros <-; apply Hhd; now rewrite head_lookup).
  assert (Hlastc : isc "|" (get data (length hdr - 1)) = false).
  { apply isc_false. intros E. apply Hlast. rewrite last_lookup.
    replace (Init.Nat.pred (length hdr)) with (length hdr - 1) by lia.
    destruct (lookup_lt_is_Some_2 hdr (length hdr - 1) ltac:(lia)) as [c Hc].
    rewrite Hc. f_equal. rewrite (Hget _ _ Hc) in E. now symmetry. }
  rewrite Hlastc, andb_false_r. cbn [andb].
  replace (length data <=? length hdr + 1) with false
    by (symmetry; apply Nat.leb_gt; lia).
  assert (Hesc : isBackslashEscaped data (length hdr + 1) = false).
  { apply isBackslashEscaped_none. intros _.
    replace (length hdr + 1 - 1) with (length hdr) by lia. rewrite Hnlat. discriminate. }
  rewrite Hesc. cbn [negb]. rewrite andb_true_r.
  (* the final test of the header *)
  assert (Hfin : forall i2 cs2,
    cs2 <> [] -> drop i2 data = joinPipe (map colText cs2) ++ NL :: post ->
    length cs2 <= S (countc "|" hdr) ->
    skipChar data i2 " " = i2 ->
    exists b i columns header,
      underlineLoop data (S (countc "|" hdr)) (length data - skipChar data i2 " ")
        (skipChar data i2 " ") 0 (replicate (S (countc "|" hdr)) 0%Z)
      ≫= (λ '(ok, i0, col, columns0),
            if negb ok then Some (false, i0, columns0, hdr ++ [NL])
            else if negb (col =? S (countc "|" hdr))
                 then Some (false, i0, columns0, hdr ++ [NL])
                 else Some (true, i0, columns0, hdr ++ [NL]))
      = Some (b, i, columns, header) /\
      b = forallb colOk cs2 && (length cs2 =? S (countc "|" hdr)) /\
      (b = true -> i = i2 + length (joinPipe (map colText cs2)) /\
                   columns = map colAlign cs2 /\ header = hdr ++ [NL])).
  { intros i2 cs2 Hne Hd2 Hl2 Hskip. rewrite Hskip.
    destruct (underlineLoop_cols cs2 data (S (countc "|" hdr)) (length data - i2) i2 0 [] post
                Hne Hd2 eq_refl ltac:(simpl; lia) ltac:(lia))
      as (b & i' & col' & columns' & Hrun & Hb & Hres).
    rewrite Nat.sub_0_r in Hrun. cbn [app] in Hrun. rewrite Hrun.
    cbn [mbind option_bind]. cbn [Nat.add] in Hb.
    destruct b; cbn [negb andb] in *.
    - destruct (col' =? S (countc "|" hdr)); cbn [negb].
      + eexists _, _, _, _. split; [reflexivity|]. split; [exact Hb|].
        intros _. destruct (Hres eq_refl) as [-> ->]. auto.
      + eexists _, _, _, _. split; [reflexivity|]. split; [exact Hb|discriminate].
    - eexists _, _, _, _. split; [reflexivity|]. split; [exact Hb|discriminate]. }
  destruct cs as [|c cs']; [simpl in Hlen; lia|].
  destruct cs' as [|c' cs']; [simpl in Hlen; lia|].
  assert (Hunder : under = colText c ++ "|" :: joinPipe (map colText (c' :: cs')) ++ NL :: post)
    by (unfold under; cbn [map joinPipe]; now rewrite <- app_assoc).
  destruct (colText c) as [|z zs] eqn:Etext.
  - (* an empty first column: its pipe is taken for a leading pipe *)
    assert (Hy : get data (length hdr + 1) = "|").
    { destruct (drop_get data _ _ 0 "|" Hdrop) as [_ Hg];
        [now rewrite Hunder|]. now rewrite Nat.add_0_r in Hg. }
    rewrite Hy. replace (isc "|" "|") with true by reflexivity.
    assert (Hd2 : drop (length hdr + 1 + 1) data
                  = joinPipe (map colText (c' :: cs')) ++ NL :: post).
    { rewrite <- drop_drop, Hdrop, Hunder. reflexivity. }
    destruct (Hfin (length hdr + 1 + 1) (c' :: cs') ltac:(discriminate) Hd2
                ltac:(simpl in *; lia))
      as (b & i & columns & header & Hrun & Hb & Hres).
    { unfold skipChar.
      destruct (joinPipe (map colText (c' :: cs')) ++ NL :: post) as [|y tl] eqn:E;
        [now destruct (joinPipe (map colText (c' :: cs')))|].
      destruct (drop_get data _ _ 0 y Hd2 eq_refl) as [Hlt Hg].
      rewrite Nat.add_0_r in Hlt, Hg.
      apply skipWhile_none; [exact Hlt|]. rewrite Hg. apply isc_false.
      destruct (underline_head _ _ _ _ E) as [-> | [-> | [-> | ->]]]; discriminate. }
    exists b, i, columns, header. split; [exact Hrun|].
    assert (b = false) as ->.
    { rewrite Hb. replace (length (c' :: cs') =? S (countc "|" hdr)) with false
        by (symmetry; apply Nat.eqb_neq; simpl in *; lia).
      apply andb_false_r. }
    split; [|discriminate]. cbn [forallb].
    replace (colOk c) with false; [reflexivity|].
    symmetry. unfold colOk. rewrite <- colText_length, Etext. reflexivity.
  - (* the underline starts with its first column *)
    assert (Hy : length hdr + 1 < length data /\ get data (length hdr + 1) = z).
    { destruct (drop_get data _ _ 0 z Hdrop) as [Hlt Hg];
        [now rewrite Hunder|]. now rewrite Nat.add_0_r in Hlt, Hg. }
    destruct Hy as [Hylt Hy]. rewrite Hy.
    assert (Hz : z = ":" \/ z = "-")
      by (apply (colText_chars c); rewrite Etext; apply list_elem_of_here).
    replace (isc "|" z) with false
      by (symmetry; apply isc_false; destruct Hz as [-> | ->]; discriminate).
    destruct (Hfin (length hdr + 1) (c :: c' :: cs') ltac:(discriminate))
      as (b & i & columns & header & Hrun & Hb & Hres).
    { rewrite Hdrop. reflexivity. }
    { lia. }
    { unfold skipChar. apply skipWhile_none; [exact Hylt|]. rewrite Hy.
      apply isc_false. destruct Hz as [-> | ->]; discriminate. }
    exists b, i, columns, header. split; [exact Hrun|].
    rewrite Hlen, Nat.eqb_refl, andb_true_r in Hb. split; [exact Hb|exact Hres].
Qed.
(** ** Buffers that end with a newline

    "This function and many that it calls assume that the input buffer ends
    with a newline": [ntl] is that assumption; an empty buffer satisfies
    it. *)

Definition ntl (d : bytes) : Prop := d = [] \/ last d = Some NL.

Lemma ntl_nil : ntl [].
Proof. now left. Qed.

Lemma ntl_get d : ntl d -> d <> [] -> get d (length d - 1) = NL.
Proof.
  intros [-> | H] Hne; [congruence|]. apply get_lookup.
  rewrite last_lookup in H.
  now replace (length d - 1) with (Init.Nat.pred (length d)) by lia.
Qed.

Lemma ntl_intro d : 0 < length d -> get d (length d - 1) = NL -> ntl d.
Proof.
  intros Hl Hg. right. rewrite last_lookup.
  replace (Init.Nat.pred (length d)) with (length d - 1) by lia.
  rewrite lookup_get by lia. now rewrite Hg.
Qed.

Lemma get_drop d n k : get (drop n d) k = get d (n + k).
Proof.
  unfold get. destruct (decide (n + k < length d)) as [H|H].
  - apply get_lookup. rewrite lookup_drop. apply lookup_get. exact H.
  - rewrite !nth_overflow; [reflexivity|lia|rewrite length_drop; lia].
Qed.

Lemma get_take d n k : k < n -> get (take n d) k = get d k.
Proof.
  intros Hk. unfold get. destruct (decide (k < length d)) as [H|H].
  - apply get_lookup. rewrite lookup_take_lt by assumption. apply lookup_get. exact H.
  - rewrite !nth_overflow; [reflexivity|lia|rewrite length_take; lia].
Qed.

Lemma get_app_l a b k : k < length a -> get (a ++ b) k = get a k.
Proof. intros H. unfold get. now rewrite app_nth1. Qed.

Lemma get_app_r a b k : length a <= k -> get (a ++ b) k = get b (k - length a).
Proof. intros H. unfold get. now rewrite app_nth2. Qed.

Lemma ntl_drop d n : ntl d -> ntl (drop n d).
Proof.
  intros H. destruct (decide (n < length d)) as [Hn|Hn].
  - apply ntl_intro; rewrite length_drop; [lia|].
    rewrite get_drop. replace (n + (length d - n - 1)) with (length d - 1) by lia.
    apply ntl_get; [exact H|]. intros ->. simpl in Hn. lia.
  - left. apply drop_ge. lia.
Qed.

Lemma ntl_app a b : ntl a -> ntl b -> ntl (a ++ b).
Proof.
  intros Ha [-> | Hb]; [now rewrite app_nil_r|].
  right. destruct b as [|x b]; [discriminate|].
  rewrite last_app. now rewrite Hb.
Qed.

Lemma ntl_snoc a : ntl (a ++ [NL]).
Proof. right. now rewrite last_snoc. Qed.

(** A slice that ends just after a newline. *)
Lemma ntl_slice d a b s :
  slice d a b = Some s -> a < b -> get d (b - 1) = NL -> ntl s.
Proof.
  intros H Hab Hg. pose proof (slice_length _ _ _ _ H) as Hl.
  apply slice_Some in H as (_ & Hb & ->).
  apply ntl_intro; [lia|]. rewrite Hl.
  rewrite get_take by lia. rewrite get_drop.
  now replace (a + (b - a - 1)) with (b - 1) by lia.
Qed.

(** In a buffer that ends with a newline every line has its newline. *)
Lemma toNewline_lt d i :
  ntl d -> i < length d ->
  toNewline d i < length d /\ get d (toNewline d i) = NL.
Proof.
  intros Hn Hi. unfold toNewline.
  assert (Hlast : get d (length d - 1) = NL)
    by (apply ntl_get; [exact Hn|intros ->; simpl in Hi; lia]).
  assert (Hle : skipWhile (notc NL) d i <= length d - 1).
  { apply skipWhile_upto; [lia|lia|]. rewrite Hlast. reflexivity. }
  split; [lia|].
  pose proof (skipWhile_stop (notc NL) d i ltac:(lia)) as Hs.
  now apply notc_false in Hs.
Qed.

Lemma toNewline_ge d i : i <= toNewline d i.
Proof. apply skipWhile_ge. Qed.

Lemma toNewline_le d i : i <= length d -> toNewline d i <= length d.
Proof. apply skipWhile_le. Qed.

Lemma pastNewline_ntl d i :
  ntl d -> i < length d ->
  pastNewline d (toNewline d i) = toNewline d i + 1 /\
  toNewline d i + 1 <= length d.
Proof.
  intros Hn Hi. destruct (toNewline_lt d i Hn Hi) as [Hlt Hg].
  unfold pastNewline. rewrite Hg.
  replace (inb d (toNewline d i)) with true by (symmetry; now apply inb_true).
  split; [reflexivity|lia].
Qed.

(** ** The scanners stay inside a buffer that ends with a newline *)

Lemma skip3_Some d : forall fuel i,
  i < length d -> (exists j, i <= j < length d /\ get d j <> " ") ->
  exists i', skip3 d fuel i = Some i' /\ i <= i' < length d /\ i' <= i + fuel.
Proof.
  induction fuel as [|f IH]; intros i Hi (j & Hj & Hne).
  - exists i. split; [reflexivity|lia].
  - cbn [skip3]. unfold idx. rewrite lookup_get by assumption.
    cbn [mbind option_bind].
    destruct (isc " " (get d i)) eqn:E.
    + apply isc_true in E.
      assert (i <> j) by (intros ->; congruence).
      destruct (IH (S i) ltac:(lia)) as (i' & -> & H1 & H2);
        [exists j; split; [lia|exact Hne]|].
      exists i'. split; [reflexivity|lia].
    + exists i. split; [reflexivity|lia].
Qed.

Lemma ntl_nonspace d :
  ntl d -> d <> [] -> exists j, 0 <= j < length d /\ get d j <> " ".
Proof.
  intros Hn Hne. exists (length d - 1).
  assert (0 < length d) by (destruct d; [congruence|simpl; lia]).
  split; [lia|]. rewrite ntl_get by assumption. discriminate.
Qed.

Lemma isHRule_Some d : ntl d -> d <> [] -> exists b, isHRule d = Some b.
Proof.
  intros Hn Hne. unfold isHRule.
  assert (0 < length d) by (destruct d; [congruence|simpl; lia]).
  destruct (skip3_Some d 3 0 ltac:(lia) (ntl_nonspace d Hn Hne))
    as (i & -> & Hi & _).
  cbn [mbind option_bind]. unfold idx. rewrite lookup_get by lia.
  cbn [mbind option_bind]. destruct (_ && _); eauto.
Qed.

Lemma isEmptyLoop_le d : forall fuel i r,
  i <= length d -> isEmptyLoop d fuel i = Some r -> i <= r <= length d.
Proof.
  induction fuel as [|f IH]; intros i r Hi H; cbn [isEmptyLoop] in H.
  - injection H as <-. lia.
  - destruct (inb d i && notc NL (get d i)) eqn:E.
    + apply andb_true_iff in E as [E _]. apply inb_true in E.
      destruct (_ && _); [discriminate|].
      apply IH in H; lia.
    + injection H as <-. lia.
Qed.

Lemma isEmpty_le d : isEmpty d <= length d.
Proof.
  unfold isEmpty. destruct (length d =? 0); [lia|].
  destruct (isEmptyLoop d (length d) 0) as [r|] eqn:E; [|lia].
  apply isEmptyLoop_le in E; [|lia].
  destruct (inb d r && isc NL (get d r)) eqn:E2; [|lia].
  apply andb_true_iff in E2 as [E2 _]. apply inb_true in E2. lia.
Qed.
(** ** Routines that never index out of range

    [inBounds m Q]: from every state, [m] returns a value that satisfies [Q]
    or stops with an error other than [OutOfRange].  (Whether a byte index is
    in range never depends on the tree, so the state is arbitrary.) *)

Definition inBounds {A} (m : M A) (Q : A -> Prop) : Prop :=
  forall p, match m p with Ok a _ => Q a | Err e => e <> OutOfRange end.

Lemma ib_ret {A} (a : A) (Q : A -> Prop) : Q a -> inBounds (mret a : M A) Q.
Proof. intros H p. exact H. Qed.

Lemma ib_bind {A B} (m : M A) (f : A -> M B) (Q : A -> Prop) (R : B -> Prop) :
  inBounds m Q -> (forall a, Q a -> inBounds (f a) R) -> inBounds (m ≫= f) R.
Proof.
  intros Hm Hf p. unfold mbind, M_bind. specialize (Hm p).
  destruct (m p) as [a p1|e]; [apply (Hf a Hm)|exact Hm].
Qed.

Lemma ib_weaken {A} (m : M A) (Q R : A -> Prop) :
  inBounds m Q -> (forall a, Q a -> R a) -> inBounds m R.
Proof. intros Hm H p. specialize (Hm p). destruct (m p); auto. Qed.

Lemma ib_gets {A} (f : Markdown -> A) : inBounds (gets f) (fun _ => True).
Proof. intros p. exact I. Qed.

Lemma ib_modify f : inBounds (modify f) (fun _ => True).
Proof. intros p. exact I. Qed.

Lemma ib_fail {A} (e : error) (Q : A -> Prop) :
  e <> OutOfRange -> inBounds (fail e : M A) Q.
Proof. intros H p. exact H. Qed.

Lemma ib_lift {A} (o : option A) (a : A) (Q : A -> Prop) :
  o = Some a -> Q a -> inBounds (lift o) Q.
Proof. intros -> H p. exact H. Qed.

Lemma ib_deref n : inBounds (deref n) (fun _ => True).
Proof.
  intros p. unfold deref. destruct n as [k|]; [|discriminate].
  destruct (heap p !! k); [exact I|discriminate].
Qed.

Create HintDb ib.
#[export] Hint Resolve ib_gets ib_modify ib_deref : ib.
#[export] Hint Extern 1 (inBounds (mret _) _) => apply ib_ret; exact I : ib.
#[export] Hint Extern 1 (inBounds (fail _) _) => apply ib_fail; discriminate : ib.

(** Splits a goal about a routine of the tree along its structure. *)
Ltac ib_go :=
  repeat match goal with
  | |- inBounds (_ ≫= _) _ =>
      eapply (ib_bind _ _ (fun _ => True)); [|intros ? _]
  | |- inBounds (if ?b then _ else _) _ => destruct b
  | |- inBounds (match ?x with _ => _ end) _ => destruct x
  | |- inBounds _ _ => solve [auto with ib]
  end.

Lemma ib_update n f : inBounds (update n f) (fun _ => True).
Proof. unfold update. ib_go. Qed.
#[export] Hint Resolve ib_update : ib.

Lemma ib_Unlink n : inBounds (Unlink n) (fun _ => True).
Proof. unfold Unlink. ib_go. Qed.
#[export] Hint Resolve ib_Unlink : ib.

Lemma ib_AppendChild n c : inBounds (AppendChild n c) (fun _ => True).
Proof. unfold AppendChild. ib_go. Qed.

Lemma ib_finalize b : inBounds (finalize b) (fun _ => True).
Proof. unfold finalize. ib_go. Qed.
#[export] Hint Resolve ib_AppendChild ib_finalize : ib.

Lemma ib_climb fuel typ : inBounds (climb fuel typ) (fun _ => True).
Proof. induction fuel as [|f IH]; simpl; ib_go. Qed.
#[export] Hint Resolve ib_climb : ib.

Lemma ib_addChild typ off : inBounds (addChild typ off) (fun _ => True).
Proof.
  unfold addChild, addExistingChild. ib_go.
  intros p. exact I.
Qed.
#[export] Hint Resolve ib_addChild : ib.

Lemma ib_closeLoop fuel : inBounds (closeLoop fuel) (fun _ => True).
Proof. induction fuel as [|f IH]; simpl; ib_go. Qed.
#[export] Hint Resolve ib_closeLoop : ib.

Lemma ib_addBlock typ c : inBounds (addBlock typ c) (fun _ => True).
Proof. unfold addBlock, closeUnmatchedBlocks. ib_go. Qed.
#[export] Hint Resolve ib_addBlock : ib.

Lemma ib_endsWithBlankLine fuel b :
  inBounds (endsWithBlankLine fuel b) (fun _ => True).
Proof. revert b. induction fuel as [|f IH]; intros b; simpl; ib_go. Qed.
#[export] Hint Resolve ib_endsWithBlankLine : ib.

Lemma ib_endsBlank b : inBounds (endsBlank b) (fun _ => True).
Proof. unfold endsBlank. ib_go. Qed.
#[export] Hint Resolve ib_endsBlank : ib.

Lemma ib_subItems b hasNext l : inBounds (subItems b hasNext l) (fun _ => True).
Proof. induction l as [|x l IH]; simpl; ib_go. Qed.
#[export] Hint Resolve ib_subItems : ib.

Lemma ib_items b l : inBounds (items b l) (fun _ => True).
Proof. induction l as [|x l IH]; simpl; ib_go. Qed.
#[export] Hint Resolve ib_items : ib.

Lemma ib_finalizeList b : inBounds (finalizeList b) (fun _ => True).
Proof. unfold finalizeList. ib_go. Qed.
#[export] Hint Resolve ib_finalizeList : ib.
Lemma skipSpaces_Some d : forall fuel i,
  i < length d -> (exists j, i <= j < length d /\ get d j <> " ") ->
  length d - i < fuel ->
  exists b, skipSpaces d fuel i = Some b /\ i <= b < length d.
Proof.
  induction fuel as [|f IH]; intros i Hi (j & Hj & Hne) Hf; [lia|].
  cbn [skipSpaces]. unfold idx. rewrite lookup_get by assumption.
  cbn [mbind option_bind].
  destruct (isc " " (get d i)) eqn:E.
  - apply isc_true in E. assert (i <> j) by (intros ->; congruence).
    destruct (IH (S i) ltac:(lia)) as (b & -> & Hb);
      [exists j; split; [lia|exact Hne]|lia|].
    exists b. split; [reflexivity|lia].
  - exists i. split; [reflexivity|lia].
Qed.

Lemma trimSpaces_Some d beg : forall fuel e,
  e <= length d ->
  exists e', trimSpaces d beg fuel e = Some e' /\ e' <= e /\ (beg <= e -> beg <= e').
Proof.
  induction fuel as [|f IH]; intros e He; cbn [trimSpaces].
  - exists e. split; [reflexivity|lia].
  - destruct (beg <? e) eqn:E.
    + apply Nat.ltb_lt in E. unfold idx. rewrite lookup_get by lia.
      cbn [mbind option_bind]. destruct (isc " " (get d (e - 1))).
      * destruct (IH (e - 1) ltac:(lia)) as (e' & -> & H1 & H2).
        exists e'. split; [reflexivity|lia].
      * exists e. split; [reflexivity|lia].
    + exists e. split; [reflexivity|lia].
Qed.

Lemma paragraphBounds_Some d :
  ntl d -> d <> [] ->
  exists beg e, paragraphBounds d = Some (beg, e) /\ beg <= e <= length d.
Proof.
  intros Hn Hne.
  assert (Hl : 0 < length d) by (destruct d; [congruence|simpl; lia]).
  unfold paragraphBounds.
  destruct (skipSpaces_Some d (S (length d)) 0 Hl (ntl_nonspace d Hn Hne) ltac:(lia))
    as (beg & -> & Hb).
  cbn [mbind option_bind]. unfold idx. rewrite lookup_get by lia.
  cbn [mbind option_bind]. rewrite ntl_get by assumption.
  replace (isc NL NL) with true by reflexivity.
  destruct (trimSpaces_Some d beg (length d - 1) (length d - 1) ltac:(lia))
    as (e & -> & H1 & H2).
  cbn [mbind option_bind]. exists beg, e. split; [reflexivity|lia].
Qed.

Lemma slice_ok d a b : a <= b -> b <= length d -> exists s, slice d a b = Some s.
Proof. intros H1 H2. eexists. apply slice_Some. eauto. Qed.

Lemma ib_renderParagraph d : ntl d -> inBounds (renderParagraph d) (fun _ => True).
Proof.
  intros Hn. unfold renderParagraph.
  destruct (length d =? 0) eqn:E; [auto with ib|].
  apply Nat.eqb_neq in E.
  assert (Hne : d <> []) by (intros ->; simpl in E; lia).
  destruct (paragraphBounds_Some d Hn Hne) as (beg & e & Hb & Hle).
  eapply ib_bind; [apply (ib_lift _ _ (fun r => r = (beg, e)) Hb eq_refl)|].
  intros r ->.
  destruct (slice_ok d beg e) as [s Hs]; [lia|lia|].
  eapply ib_bind; [apply (ib_lift _ _ (fun _ => True) Hs I)|].
  intros c _. ib_go.
Qed.

(** *** Table rows *)

Lemma ib_rowCells data columns header : forall fuel col i,
  inBounds (rowCells data columns header fuel col i) (fun _ => True).
Proof.
  induction fuel as [|f IH]; intros col i; cbn [rowCells]; [auto with ib|].
  destruct ((col <? length columns) && inb data i) eqn:E; [|auto with ib].
  apply andb_true_iff in E as [Ec Ei]. apply Nat.ltb_lt in Ec. apply inb_true in Ei.
  cbv zeta.
  set (cellStart := skipWhile (isc " ") data i).
  set (cellEnd := cellEndFrom data cellStart).
  assert (Hs : i <= cellStart <= length data)
    by (split; [apply skipWhile_ge|apply skipWhile_le; lia]).
  assert (He : cellStart <= cellEnd <= length data)
    by (split; [apply cellEndFrom_ge|apply cellEndFrom_le; lia]).
  destruct (slice_ok data cellStart (trimEnd data cellStart cellEnd cellEnd)) as [s Hsl].
  { apply trimEnd_ge. lia. }
  { pose proof (trimEnd_le data cellStart cellEnd cellEnd). lia. }
  eapply ib_bind; [apply (ib_lift _ _ (fun _ => True) Hsl I)|]. intros c _.
  eapply ib_bind; [apply ib_addBlock|]. intros cell _.
  destruct (lookup_lt_is_Some_2 columns col Ec) as [al Hal].
  eapply ib_bind; [apply (ib_lift _ _ (fun _ => True) Hal I)|]. intros al' _.
  eapply ib_bind; [apply ib_update|]. intros _ _. apply IH.
Qed.

Lemma ib_padCells columns header : forall fuel col,
  inBounds (padCells columns header fuel col) (fun _ => True).
Proof.
  induction fuel as [|f IH]; intros col; cbn [padCells]; [auto with ib|].
  destruct (col <? length columns) eqn:Ec; [|auto with ib].
  apply Nat.ltb_lt in Ec.
  eapply ib_bind; [apply ib_addBlock|]. intros cell _.
  destruct (lookup_lt_is_Some_2 columns col Ec) as [al Hal].
  eapply ib_bind; [apply (ib_lift _ _ (fun _ => True) Hal I)|]. intros al' _.
  eapply ib_bind; [apply ib_update|]. intros _ _. apply IH.
Qed.

Lemma ib_tableRow data columns header :
  data <> [] -> inBounds (tableRow data columns header) (fun _ => True).
Proof.
  intros Hne. unfold tableRow.
  eapply ib_bind; [apply ib_addBlock|]. intros _ _.
  destruct data as [|c0 data']; [congruence|].
  eapply ib_bind; [apply (ib_lift _ c0 (fun _ => True) eq_refl I)|]. intros c _.
  eapply ib_bind; [apply ib_rowCells|]. intros col _. apply ib_padCells.
Qed.
(** *** The table header *)

Definition unescapedPipe (data : bytes) (j : nat) : bool :=
  isc "|" (get data j) && negb (isBackslashEscaped data j).

Lemma headerPipes_bounds data : forall fuel i c i' c',
  headerPipes data fuel i c = (i', c') ->
  i <= i' /\ c <= c' /\ (i <= length data -> i' <= length data).
Proof.
  induction fuel as [|f IH]; intros i c i' c' H; cbn [headerPipes] in H.
  - injection H as <- <-. lia.
  - destruct (inb data i && notc NL (get data i)) eqn:E.
    + apply andb_true_iff in E as [E _]. apply inb_true in E.
      apply IH in H. destruct (_ && _); lia.
    + injection H as <- <-. lia.
Qed.

Lemma headerPipes_one data : forall fuel i c i' c' j,
  headerPipes data fuel i c = (i', c') ->
  i <= j < i' -> unescapedPipe data j = true -> c + 1 <= c'.
Proof.
  induction fuel as [|f IH]; intros i c i' c' j H Hj Hp; cbn [headerPipes] in H.
  - injection H as <- <-. lia.
  - destruct (inb data i && notc NL (get data i)) eqn:E.
    + destruct (decide (i = j)) as [->|Hne].
      * fold (unescapedPipe data j) in H. rewrite Hp in H.
        apply headerPipes_bounds in H. lia.
      * apply (IH _ _ _ _ j) in H; [|lia|exact Hp].
        destruct (isc "|" (get data i) && negb (isBackslashEscaped data i)); lia.
    + injection H as <- <-. lia.
Qed.

Lemma headerPipes_two data : forall fuel i c i' c' j1 j2,
  headerPipes data fuel i c = (i', c') ->
  i <= j1 -> j1 < j2 -> j2 < i' ->
  unescapedPipe data j1 = true -> unescapedPipe data j2 = true -> c + 2 <= c'.
Proof.
  induction fuel as [|f IH]; intros i c i' c' j1 j2 H H1 H12 H2 Hp1 Hp2;
    cbn [headerPipes] in H.
  - injection H as <- <-. lia.
  - destruct (inb data i && notc NL (get data i)) eqn:E.
    + destruct (decide (i = j1)) as [->|Hne].
      * fold (unescapedPipe data j1) in H. rewrite Hp1 in H.
        apply (headerPipes_one _ _ _ _ _ _ j2) in H; [lia|lia|exact Hp2].
      * apply (IH _ _ _ _ j1 j2) in H; try assumption; [|lia].
        destruct (isc "|" (get data i) && negb (isBackslashEscaped data i)); lia.
    + injection H as <- <-. lia.
Qed.

Lemma underlineLoop_Some data colCount : forall fuel i col columns,
  i <= length data -> length columns = colCount ->
  (inb data i && notc NL (get data i) = true -> col < colCount) ->
  exists b i' col' columns',
    underlineLoop data colCount fuel i col columns = Some (b, i', col', columns') /\
    i' <= length data.
Proof.
  induction fuel as [|f IH]; intros i col columns Hi Hlen Hcol; cbn [underlineLoop].
  - eauto 10.
  - destruct (inb data i && notc NL (get data i)) eqn:E; [|eauto 10].
    specialize (Hcol eq_refl).
    apply andb_true_iff in E as [Ei _]. apply inb_true in Ei.
    destruct (lookup_lt_is_Some_2 columns col ltac:(lia)) as [c0 Hc0].
    assert (HA : exists iA dA colsA,
      (if isc ":" (get data i)
       then c ← columns !! col;
            Some (i + 1, 0 + 1, <[col := Z.lor c TableAlignmentLeft]> columns)
       else Some (i, 0, columns)) = Some (iA, dA, colsA) /\
      iA <= length data /\ length colsA = colCount).
    { destruct (isc ":" (get data i)).
      - rewrite Hc0. cbn [mbind option_bind]. eexists _, _, _.
        split; [reflexivity|]. rewrite length_insert. lia.
      - eexists _, _, _. split; [reflexivity|]. lia. }
    destruct HA as (iA & dA & colsA & -> & HiA & HlA).
    cbn [mbind option_bind].
    pose proof (skipWhile_le (isc "-") data iA HiA) as Hi2.
    set (i2 := skipWhile (isc "-") data iA) in *.
    destruct (lookup_lt_is_Some_2 colsA col ltac:(lia)) as [c1 Hc1].
    assert (HB : exists iB dB colsB,
      (if inb data i2 && isc ":" (get data i2)
       then c ← colsA !! col;
            Some (i2 + 1, dA + (i2 - iA) + 1,
                  <[col := Z.lor c TableAlignmentRight]> colsA)
       else Some (i2, dA + (i2 - iA), colsA)) = Some (iB, dB, colsB) /\
      iB <= length data /\ length colsB = colCount).
    { destruct (inb data i2 && isc ":" (get data i2)) eqn:E2.
      - apply andb_true_iff in E2 as [E2 _]. apply inb_true in E2.
        rewrite Hc1. cbn [mbind option_bind]. eexists _, _, _.
        split; [reflexivity|]. rewrite length_insert. lia.
      - eexists _, _, _. split; [reflexivity|]. lia. }
    destruct HB as (iB & dB & colsB & -> & HiB & HlB).
    cbn [mbind option_bind].
    pose proof (skipWhile_le (isc " ") data iB HiB) as Hi3.
    set (i3 := skipWhile (isc " ") data iB) in *.
    destruct (i3 =? length data) eqn:E3; [eauto 10|].
    apply Nat.eqb_neq in E3.
    destruct (dB <? 3); [eauto 10|].
    destruct (isc "|" (get data i3) && negb (isBackslashEscaped data i3)).
    + pose proof (skipWhile_le (isc " ") data (i3 + 1) ltac:(lia)) as Hi4.
      set (i4 := skipWhile (isc " ") data (i3 + 1)) in *.
      destruct ((colCount <=? col + 1) && inb data i4 && notc NL (get data i4)) eqn:E4;
        [eauto 10|].
      apply (IH i4 (col + 1) colsB Hi4 HlB).
      intros E5. rewrite <- andb_assoc, E5, andb_true_r in E4.
      apply Nat.leb_gt in E4. lia.
    + destruct ((notc "|" (get data i3) || isBackslashEscaped data i3)
                && (col + 1 <? colCount)); [eauto 10|].
      destruct (isc NL (get data i3)) eqn:E5; [|eauto 10].
      apply (IH i3 (col + 1) colsB Hi3 HlB).
      intros E6. apply andb_true_iff in E6 as [_ E6].
      apply isc_true in E5. apply notc_true in E6. congruence.
Qed.

Lemma tableHeaderScan_Some data :
  data <> [] ->
  exists ok i columns header,
    tableHeaderScan data = Some (ok, i, columns, header) /\
    (ok = true -> i <= length data /\ header <> []).
Proof.
  intros Hne.
  assert (Hl : 0 < length data) by (destruct data; [congruence|simpl; lia]).
  unfold tableHeaderScan.
  destruct (headerPipes data (length data) 0 1) as [i cc] eqn:Ehp.
  destruct (headerPipes_bounds _ _ _ _ _ _ Ehp) as (_ & Hcc & Hi).
  specialize (Hi ltac:(lia)).
  destruct (cc =? 1) eqn:Ecc; [eexists _, _, _, _; split; [reflexivity|discriminate]|].
  apply Nat.eqb_neq in Ecc.
  pose proof (pastNewline_le data i Hi) as Hj.
  pose proof (pastNewline_ge data i) as Hj'.
  replace (sliceTo data (pastNewline data i))
    with (Some (take (pastNewline data i) data))
    by (symmetry; apply sliceTo_Some; auto).
  cbn [mbind option_bind]. unfold idx. rewrite lookup_get by lia.
  cbn [mbind option_bind].
  set (cc1 := if isc "|" (get data 0) then cc - 1 else cc).
  set (cc2 := if (2 <? i) && isc "|" (get data (i - 1))
                 && negb (isBackslashEscaped data (i - 1))
              then cc1 - 1 else cc1).
  assert (Hipos : 0 < i).
  { destruct i; [|lia]. destruct (length data); [lia|].
    cbn [headerPipes] in Ehp.
    destruct (inb data 0 && notc NL (get data 0)).
    - apply headerPipes_bounds in Ehp. lia.
    - injection Ehp as <-. congruence. }
  assert (Hcc2 : 1 <= cc2).
  { unfold cc2, cc1.
    destruct (isc "|" (get data 0)) eqn:E0;
      destruct ((2 <? i) && isc "|" (get data (i - 1))
                && negb (isBackslashEscaped data (i - 1))) eqn:E1; try lia.
    apply andb_true_iff in E1 as [E1 E1c]. apply andb_true_iff in E1 as [E1a E1b].
    apply Nat.ltb_lt in E1a.
      pose proof (headerPipes_two data _ _ _ _ _ 0 (i - 1) Ehp
                    ltac:(lia) ltac:(lia) ltac:(lia)) as H2.
      unfold unescapedPipe in H2. rewrite E0, E1b, E1c in H2.
      specialize (H2 eq_refl eq_refl). lia. }
  assert (Hhdr : take (pastNewline data i) data <> []).
  { intros E. apply (f_equal length) in E. rewrite length_take in E.
    cbn [length] in E. lia. }
  destruct (length data <=? i + 1) eqn:El;
    [eexists _, _, _, _; split; [reflexivity|discriminate]|].
  apply Nat.leb_gt in El.
  set (i1 := if isc "|" (get data (i + 1)) && negb (isBackslashEscaped data (i + 1))
             then i + 1 + 1 else i + 1).
  assert (Hi1 : i1 <= length data)
    by (unfold i1;
        destruct (isc "|" (get data (i + 1))
                  && negb (isBackslashEscaped data (i + 1))); lia).
  pose proof (skipWhile_le (isc " ") data i1 Hi1) as Hi2.
  unfold skipChar. set (i2 := skipWhile (isc " ") data i1) in *.
  destruct (underlineLoop_Some data cc2 (length data - i2) i2 0 (replicate cc2 0%Z)
              Hi2 (length_replicate _ _) ltac:(intros _; lia))
    as (b & i' & col' & columns' & -> & Hi').
  cbn [mbind option_bind].
  destruct (negb b); [eexists _, _, _, _; split; [reflexivity|discriminate]|].
  destruct (negb (col' =? cc2)); [eexists _, _, _, _; split; [reflexivity|discriminate]|].
  eexists _, _, _, _. split; [reflexivity|]. intros _. split; assumption.
Qed.

Lemma ib_tableHeader data :
  data <> [] -> inBounds (tableHeader data) (fun r => fst r <= length data).
Proof.
  intros Hne. unfold tableHeader.
  destruct (tableHeaderScan_Some data Hne) as (ok & i & columns & header & Hs & Hok).
  eapply ib_bind;
    [apply (ib_lift _ _ (fun r => r = (ok, i, columns, header)) Hs eq_refl)|].
  intros r ->. destruct ok.
  - destruct (Hok eq_refl) as [Hi Hh].
    eapply ib_bind; [apply ib_addBlock|]. intros _ _.
    eapply ib_bind; [apply (ib_tableRow _ _ _ Hh)|]. intros _ _.
    apply ib_ret. cbn [fst]. now apply pastNewline_le.
  - apply ib_ret. cbn [fst]. lia.
Qed.

Lemma rowPipes_bounds data : forall fuel i n i' n',
  rowPipes data fuel i n = (i', n') ->
  i <= i' /\ (i <= length data -> i' <= length data) /\ (n < n' -> i < i').
Proof.
  induction fuel as [|f IH]; intros i n i' n' H; cbn [rowPipes] in H.
  - injection H as <- <-. lia.
  - destruct (inb data i && notc NL (get data i)) eqn:E.
    + apply andb_true_iff in E as [E _]. apply inb_true in E.
      apply IH in H. lia.
    + injection H as <- <-. lia.
Qed.

Lemma ib_tableRows data columns : forall fuel i,
  i <= length data ->
  inBounds (tableRows data columns fuel i) (fun r => r <= length data).
Proof.
  induction fuel as [|f IH]; intros i Hi; cbn [tableRows]; [now apply ib_ret|].
  destruct (inb data i); [|now apply ib_ret].
  destruct (rowPipes data (length data - i) i 0) as [i' pipes] eqn:E.
  destruct (rowPipes_bounds _ _ _ _ _ _ E) as (H1 & H2 & H3). specialize (H2 Hi).
  destruct (pipes =? 0) eqn:Ep; [now apply ib_ret|].
  apply Nat.eqb_neq in Ep. specialize (H3 ltac:(lia)).
  pose proof (pastNewline_ge data i'). pose proof (pastNewline_le data i' H2).
  destruct (slice_ok data i (pastNewline data i')) as [row Hrow]; [lia|lia|].
  eapply ib_bind; [apply (ib_lift _ _ (fun r => r = row) Hrow eq_refl)|].
  intros r ->.
  eapply ib_bind; [apply ib_tableRow|].
  { intros ->. apply slice_length in Hrow. simpl in Hrow. lia. }
  intros _ _. now apply IH.
Qed.

Lemma ib_table data :
  data <> [] -> inBounds (table data) (fun r => r <= length data).
Proof.
  intros Hne. unfold table.
  eapply ib_bind; [apply ib_addBlock|]. intros t _.
  eapply ib_bind; [apply (ib_tableHeader _ Hne)|]. intros [i columns] Hi.
  cbn [fst] in Hi. destruct (i =? 0).
  - eapply ib_bind; [apply ib_deref|]. intros nd _.
    eapply ib_bind; [apply ib_modify|]. intros _ _.
    eapply ib_bind; [apply ib_Unlink|]. intros _ _. apply ib_ret. lia.
  - eapply ib_bind; [apply ib_addBlock|]. intros _ _. now apply ib_tableRows.
Qed.
(** *** Block quotes *)

Lemma skipWhile_lower P data i j :
  i <= j -> (forall k, i <= k < j -> k < length data /\ P (get data k) = true) ->
  j <= skipWhile P data i.
Proof.
  intros Hij Hall.
  destruct (Nat.le_gt_cases j (skipWhile P data i)) as [H|H]; [exact H|].
  pose proof (skipWhile_ge P data i) as Hge.
  destruct (Hall (skipWhile P data i) ltac:(lia)) as [Hlt Hp].
  pose proof (skipWhile_stop P data i Hlt). congruence.
Qed.

Lemma skip3g_spaces d k : k < skip3g d -> k < length d /\ get d k = " ".
Proof.
  intros Hk. unfold skip3g in Hk.
  pose proof (advance_all _ 3 0 k ltac:(split; [lia|exact Hk])) as H.
  cbv beta in H. apply andb_true_iff in H as [H Hc].
  apply andb_true_iff in H as [_ Hi].
  apply inb_true in Hi. apply isc_true in Hc. auto.
Qed.

Lemma skip3g_le d : skip3g d <= 3.
Proof. unfold skip3g. pose proof (advance_le (fun j => (j <? 3) && inb d j && isc " " (get d j)) 3 0). lia. Qed.

(** The bytes of a block-quote prefix are inside the buffer, and none is a
    newline. *)
Lemma quotePrefix_line d k :
  k < quotePrefix d -> k < length d /\ get d k <> NL.
Proof.
  unfold quotePrefix. set (i := skip3g d).
  destruct (inb d i && isc ">" (get d i)) eqn:E; [|lia].
  apply andb_true_iff in E as [Ei Ec]. apply inb_true in Ei. apply isc_true in Ec.
  assert (Hbefore : k < i -> k < length d /\ get d k <> NL).
  { intros H. destruct (skip3g_spaces d k H) as [H1 H2]. rewrite H2.
    split; [exact H1|discriminate]. }
  assert (Hat : k = i -> k < length d /\ get d k <> NL).
  { intros ->. rewrite <- Ec. split; [exact Ei|discriminate]. }
  destruct (inb d (i + 1) && isc " " (get d (i + 1))) eqn:E2; intros Hk.
  - apply andb_true_iff in E2 as [E2 E2c]. apply inb_true in E2. apply isc_true in E2c.
    destruct (decide (k < i)); [auto|]. destruct (decide (k = i)); [auto|].
    assert (k = i + 1) as -> by lia. rewrite <- E2c. split; [exact E2|discriminate].
  - destruct (decide (k < i)); [auto|]. apply Hat. lia.
Qed.

Lemma quotePrefix_toNewline data beg :
  beg <= length data ->
  beg + quotePrefix (drop beg data) <= toNewline data beg.
Proof.
  intros Hb. unfold toNewline. apply skipWhile_lower; [lia|].
  intros k Hk. destruct (quotePrefix_line (drop beg data) (k - beg) ltac:(lia)) as [H1 H2].
  rewrite length_drop in H1. rewrite get_drop in H2.
  replace (beg + (k - beg)) with k in H2 by lia.
  split; [lia|]. now apply notc_true.
Qed.

Lemma sliceFrom_ok d a : a <= length d -> sliceFrom d a = Some (drop a d).
Proof. intros H. apply sliceFrom_Some. auto. Qed.

Lemma terminateBlockquote_Some data beg end_ :
  beg <= length data -> end_ <= length data ->
  exists t, terminateBlockquote data beg end_ = Some t.
Proof.
  intros Hb He. unfold terminateBlockquote.
  rewrite (sliceFrom_ok data beg Hb), (sliceFrom_ok data end_ He).
  cbn [mbind option_bind].
  destruct (isEmpty (drop beg data) <=? 0); [eexists; reflexivity|].
  destruct (length data <=? end_); eexists; reflexivity.
Qed.

Lemma quoteLoop_Some data :
  ntl data -> forall fuel beg end_ raw,
  beg <= length data -> end_ <= length data -> ntl raw ->
  exists raw' e',
    quoteLoop data fuel beg end_ raw = Some (raw', e') /\
    ntl raw' /\ e' <= length data.
Proof.
  intros Hn. induction fuel as [|f IH]; intros beg end_ raw Hb He Hr;
    cbn [quoteLoop]; [eauto|].
  destruct (beg <? length data) eqn:E; [|eauto].
  apply Nat.ltb_lt in E.
  destruct (toNewline_lt data beg Hn E) as [Hlt Hnl].
  destruct (pastNewline_ntl data beg Hn E) as [-> Hend].
  pose proof (toNewline_ge data beg) as Hge.
  rewrite (sliceFrom_ok data beg) by lia. cbn [mbind option_bind].
  pose proof (quotePrefix_toNewline data beg ltac:(lia)) as Hpre.
  assert (Hline : forall a, beg <= a <= toNewline data beg ->
            exists ln, slice data a (toNewline data beg + 1) = Some ln /\ ntl ln).
  { intros a Ha. destruct (slice_ok data a (toNewline data beg + 1)) as [ln Hln];
      [lia|lia|].
    exists ln. split; [exact Hln|]. apply (ntl_slice _ _ _ _ Hln); [lia|].
    now replace (toNewline data beg + 1 - 1) with (toNewline data beg) by lia. }
  destruct (0 <? quotePrefix (drop beg data)).
  - destruct (Hline (beg + quotePrefix (drop beg data)) ltac:(lia)) as (ln & -> & Hln).
    cbn [mbind option_bind]. apply IH; [lia|lia|now apply ntl_app].
  - destruct (terminateBlockquote_Some data beg (toNewline data beg + 1)) as [t ->];
      [lia|lia|].
    cbn [mbind option_bind]. destruct t; [eauto|].
    destruct (Hline beg ltac:(lia)) as (ln & -> & Hln).
    cbn [mbind option_bind]. apply IH; [lia|lia|now apply ntl_app].
Qed.

Section InBounds.

Variable blockrec : bytes -> M unit.
Hypothesis blockrec_ib : forall d, ntl d -> inBounds (blockrec d) (fun _ => True).

Lemma ib_quote data :
  ntl data -> inBounds (quote blockrec data) (fun r => r <= length data).
Proof.
  intros Hn. unfold quote.
  eapply ib_bind; [apply ib_addBlock|]. intros b _.
  destruct (quoteLoop_Some data Hn (length data) 0 0 [] ltac:(lia) ltac:(lia) ntl_nil)
    as (raw & e & Hq & Hraw & He).
  eapply ib_bind; [apply (ib_lift _ _ (fun r => r = (raw, e)) Hq eq_refl)|].
  intros r ->.
  eapply ib_bind; [apply (blockrec_ib _ Hraw)|]. intros _ _.
  eapply ib_bind; [apply ib_finalize|]. intros _ _. now apply ib_ret.
Qed.

End InBounds.
(** *** List items *)

Lemma lineEnd_spec data line :
  ntl data -> line < length data ->
  let i2 := advance (fun j => inb data j && notc NL (get data (j - 1)))
                    (length data - (line + 1)) (line + 1) in
  line < i2 <= length data /\ get data (i2 - 1) = NL.
Proof.
  intros Hn Hl i2.
  pose proof (advance_ge (fun j => inb data j && notc NL (get data (j - 1)))
                (length data - (line + 1)) (line + 1)) as Hge.
  pose proof (advance_le (fun j => inb data j && notc NL (get data (j - 1)))
                (length data - (line + 1)) (line + 1)) as Hle.
  fold i2 in Hge, Hle. split; [lia|].
  destruct (decide (i2 < length data)) as [H|H].
  - pose proof (advance_stop (fun j => inb data j && notc NL (get data (j - 1)))
                  (length data - (line + 1)) (line + 1) ltac:(fold i2; lia)) as Hs.
    fold i2 in Hs. cbv beta in Hs.
    replace (inb data i2) with true in Hs by (symmetry; now apply inb_true).
    now apply notc_false in Hs.
  - replace i2 with (length data) by lia. apply ntl_get; [exact Hn|].
    intros ->. simpl in Hl. lia.
Qed.

Lemma lineIndent_Some data line i2 :
  line < i2 <= length data -> get data (i2 - 1) = NL ->
  exists indent indentIndex,
    lineIndent data line i2 = Some (indent, indentIndex) /\
    line + indentIndex < i2.
Proof.
  intros Hl Hnl. unfold lineIndent, idx. rewrite lookup_get by lia.
  cbn [mbind option_bind].
  destruct (isc TAB (get data line)) eqn:E.
  - apply isc_true in E. exists 4, 1. split; [reflexivity|].
    assert (line <> i2 - 1) by (intros ->; rewrite Hnl in E; discriminate E). lia.
  - set (cond := fun k => (k <? 4) && (line + k <? i2) && isc " " (get data (line + k))).
    set (k := advance cond 4 0). exists k, k. split; [reflexivity|].
    destruct k as [|k'] eqn:Ek; [lia|].
    pose proof (advance_all cond 4 0 k' ltac:(fold k; lia)) as H.
    unfold cond in H. apply andb_true_iff in H as [H Hc].
    apply andb_true_iff in H as [_ Hi]. apply Nat.ltb_lt in Hi. apply isc_true in Hc.
    assert (line + k' <> i2 - 1)
      by (intros Heq; rewrite Heq, Hnl in Hc; discriminate Hc).
    lia.
Qed.

Lemma advance_below cond B : forall fuel i,
  i < B -> (forall j, cond j = true -> S j < B) -> advance cond fuel i < B.
Proof.
  induction fuel as [|f IH]; intros i Hi Hc; cbn [advance]; [exact Hi|].
  destruct (cond i) eqn:E; [|exact Hi]. apply IH; [now apply Hc|exact Hc].
Qed.

Lemma afterBlank_Some data i flags :
  ntl data -> i <= length data -> exists fl, afterBlank data i flags = Some fl.
Proof.
  intros Hn Hi. unfold afterBlank.
  destruct (has flags ListTypeDefinition && (i + 1 <? length data)) eqn:E;
    [|eexists; reflexivity].
  apply andb_true_iff in E as [_ E]. rewrite E. apply Nat.ltb_lt in E.
  unfold idx. rewrite (lookup_get data i) by lia. cbn [mbind option_bind].
  destruct (notc ":" (get data i)); [|eexists; reflexivity].
  destruct (toNewline_lt data i Hn ltac:(lia)) as [Hlt _].
  set (next := advance _ _ _).
  assert (Hnext : next < length data).
  { apply advance_below; [exact Hlt|]. intros j Hj.
    apply andb_true_iff in Hj as [Hj _]. apply Nat.ltb_lt in Hj. lia. }
  rewrite (lookup_get data next Hnext). cbn [mbind option_bind].
  destruct (notc ":" (get data next)); eexists; reflexivity.
Qed.

Lemma ntl_nl : ntl [NL].
Proof. apply (ntl_snoc []). Qed.

(** What [gatherLines] keeps true of the text it collects: it ends with a
    newline, and so does the part before the first nested item. *)
Definition rawOk (raw : bytes) (sublist : nat) : Prop :=
  ntl raw /\ sublist <= length raw /\ ntl (take sublist raw).

Lemma rawOk_app raw sublist x :
  rawOk raw sublist -> ntl x -> rawOk (raw ++ x) sublist.
Proof.
  intros (H1 & H2 & H3) Hx. split; [now apply ntl_app|].
  split; [rewrite length_app; lia|]. now rewrite take_app_le.
Qed.

Lemma rawOk_mark raw sublist x :
  rawOk raw sublist -> ntl x ->
  rawOk (raw ++ x) (if sublist =? 0 then length raw else sublist).
Proof.
  intros H Hx. destruct (sublist =? 0); [|now apply rawOk_app].
  destruct H as (H1 & _ & _). split; [now apply ntl_app|].
  split; [rewrite length_app; lia|]. now rewrite take_app_length.
Qed.

Lemma gatherLines_Some data itemIndent :
  ntl data -> forall fuel line raw cbl sublist flags,
  line <= length data -> rawOk raw sublist ->
  exists line' raw' sublist' flags',
    gatherLines data itemIndent fuel line line raw cbl sublist flags
    = Some (line', raw', sublist', flags') /\
    line' <= length data /\ rawOk raw' sublist'.
Proof.
  intros Hn. induction fuel as [|f IH]; intros line raw cbl sublist flags Hl Hr;
    cbn [gatherLines]; [eauto 10|].
  destruct (line <? length data) eqn:E; [|eauto 10].
  apply Nat.ltb_lt in E.
  destruct (lineEnd_spec data line Hn E) as [Hi2 Hnl].
  set (i2 := advance (fun j => inb data j && notc NL (get data (j - 1)))
                     (length data - (line + 1)) (line + 1)) in *.
  destruct (slice_ok data line i2) as [ln Hln]; [lia|lia|].
  rewrite Hln. cbn [mbind option_bind].
  destruct (0 <? isEmpty ln); [apply IH; [lia|exact Hr]|].
  destruct (lineIndent_Some data line i2 Hi2 Hnl) as (indent & ii & -> & Hii).
  cbn [mbind option_bind].
  destruct (slice_ok data (line + ii) i2) as [chunk Hchunk]; [lia|lia|].
  rewrite Hchunk. cbn [mbind option_bind].
  assert (Hcn : ntl chunk) by (apply (ntl_slice _ _ _ _ Hchunk); [lia|exact Hnl]).
  assert (Hcne : chunk <> []).
  { intros ->. apply slice_length in Hchunk. simpl in Hchunk. lia. }
  destruct (isHRule_Some chunk Hcn Hcne) as [hr Hhr].
  assert (Hnested : exists nested,
    (if 0 <? uliPrefix chunk
     then hr ← isHRule chunk;
          Some (negb hr || (0 <? oliPrefix chunk) || (0 <? dliPrefix chunk))
     else Some ((0 <? oliPrefix chunk) || (0 <? dliPrefix chunk))) = Some nested).
  { destruct (0 <? uliPrefix chunk); [rewrite Hhr|]; eexists; reflexivity. }
  destruct Hnested as [nested ->]. cbn [mbind option_bind].
  assert (Hcont : forall raw0 sublist0 flags0,
    rawOk raw0 sublist0 ->
    exists line' raw' sublist' flags',
      gatherLines data itemIndent f i2 i2 (raw0 ++ chunk) false sublist0 flags0
      = Some (line', raw', sublist', flags') /\
      line' <= length data /\ rawOk raw' sublist').
  { intros raw0 sublist0 flags0 H0. apply IH; [lia|]. now apply rawOk_app. }
  assert (Hnl1 : rawOk (raw ++ [NL]) sublist) by (apply rawOk_app; [exact Hr|apply ntl_nl]).
  destruct nested.
  - destruct (indent <=? itemIndent); [eauto 10|].
    destruct cbl.
    + apply IH; [lia|].
      destruct (sublist =? 0) eqn:Es.
      * destruct Hr as (H1 & _ & _).
        split; [apply ntl_app; [apply ntl_snoc|exact Hcn]|].
        split; [rewrite !length_app; lia|].
        rewrite <- app_assoc. now rewrite take_app_length.
      * now apply rawOk_app.
    + apply IH; [lia|]. now apply rawOk_mark.
  - destruct cbl; cbn [andb].
    + destruct (indent <? 4).
      * destruct (afterBlank_Some data i2 flags Hn ltac:(lia)) as [fl ->].
        cbn [mbind option_bind]. eauto 10.
      * apply IH; [lia|]. apply rawOk_app; [|exact Hcn].
        apply rawOk_app; [exact Hnl1|apply ntl_nl].
    + apply IH; [lia|]. now apply rawOk_app.
Qed.
Lemma uliPrefix_le d : 0 < uliPrefix d -> 2 <= uliPrefix d <= length d.
Proof.
  unfold uliPrefix. destruct (length d <=? skip3g d + 1) eqn:E; [lia|].
  apply Nat.leb_gt in E. destruct (_ || _); lia.
Qed.

Lemma oliPrefix_le d : oliPrefix d <= length d.
Proof.
  unfold oliPrefix.
  destruct ((skip3g d =? skipWhile isdigit d (skip3g d))
            || (length d <=? skipWhile isdigit d (skip3g d) + 1)) eqn:E; [lia|].
  apply orb_false_iff in E as [_ E]. apply Nat.leb_gt in E.
  destruct (_ || _); lia.
Qed.

Lemma dliPrefix_le d : dliPrefix d <= length d.
Proof.
  unfold dliPrefix. destruct (length d <? 2) eqn:E; [lia|].
  apply Nat.ltb_ge in E.
  destruct (notc ":" (get d 0)) eqn:E0; cbn [orb]; [lia|].
  destruct (negb _); [lia|].
  apply notc_false in E0.
  rewrite skipWhile_none; [lia|lia|]. rewrite <- E0. reflexivity.
Qed.

Lemma listItemScan_Some data flags :
  ntl data -> data <> [] ->
  exists r, listItemScan data flags = Some r /\
    match r with
    | None => True
    | Some (_, line, raw, sublist, _) => line <= length data /\ rawOk raw sublist
    end.
Proof.
  intros Hn Hne.
  assert (Hl : 0 < length data) by (destruct data; [congruence|simpl; lia]).
  unfold listItemScan, idx. rewrite (lookup_get data 0 Hl).
  cbn [mbind option_bind].
  assert (Hind : exists itemIndent,
    (if isc TAB (get data 0) then Some 4 else skip3 data 3 0) = Some itemIndent).
  { destruct (isc TAB (get data 0)); [eauto|].
    destruct (skip3_Some data 3 0 Hl (ntl_nonspace data Hn Hne)) as (i & -> & _). eauto. }
  destruct Hind as [itemIndent ->]. cbn [mbind option_bind].
  assert (Hpre : exists i bulletChar,
    (if uliPrefix data =? 0 then Some (oliPrefix data, "*")
     else b ← data !! (uliPrefix data - 2); Some (uliPrefix data, b))
    = Some (i, bulletChar) /\ i <= length data).
  { destruct (uliPrefix data =? 0) eqn:E.
    - eexists _, _. split; [reflexivity|apply oliPrefix_le].
    - apply Nat.eqb_neq in E. pose proof (uliPrefix_le data ltac:(lia)).
      rewrite lookup_get by lia. cbn [mbind option_bind].
      eexists _, _. split; [reflexivity|lia]. }
  destruct Hpre as (i & bulletChar & -> & Hi). cbn [mbind option_bind].
  set (r1 := if i =? 0
             then (dliPrefix data,
                   if 0 <? dliPrefix data then clearf flags ListTypeTerm else flags)
             else (i, flags)).
  assert (Hi1 : fst r1 <= length data).
  { unfold r1. destruct (i =? 0); cbn [fst]; [apply dliPrefix_le|exact Hi]. }
  destruct r1 as [i1 flags1]. cbn [fst] in Hi1.
  destruct ((i1 =? 0) && negb (has flags1 ListTypeDefinition));
    [exists None; split; [reflexivity|exact I]|].
  pose proof (skipWhile_le (isc " ") data i1 Hi1) as Hs.
  set (line := skipWhile (isc " ") data i1) in *.
  set (cond := fun j => (0 <? j) && inb data j && notc NL (get data (j - 1))).
  pose proof (advance_ge cond (length data - line) line) as Hge.
  pose proof (advance_le cond (length data - line) line) as Hle.
  set (i2 := advance cond (length data - line) line) in *.
  destruct (slice_ok data line i2) as [ln Hln]; [lia|lia|].
  rewrite Hln. cbn [mbind option_bind].
  assert (Hraw : rawOk ln 0).
  { split; [|split; [lia|rewrite take_0; apply ntl_nil]].
    destruct (decide (line < i2)) as [Hlt|Hge'].
    - apply (ntl_slice _ _ _ _ Hln Hlt).
      destruct (decide (i2 < length data)) as [H|H].
      + pose proof (advance_stop cond (length data - line) line ltac:(fold i2; lia)) as Hst.
        fold i2 in Hst. unfold cond in Hst.
        replace (0 <? i2) with true in Hst by (symmetry; apply Nat.ltb_lt; lia).
        replace (inb data i2) with true in Hst by (symmetry; now apply inb_true).
        now apply notc_false in Hst.
      + replace i2 with (length data) by lia. now apply ntl_get.
    - apply slice_length in Hln. left. apply nil_length_inv. lia. }
  destruct (gatherLines_Some data itemIndent Hn (length data - i2) i2 ln false 0
              (if i1 =? 0 then setf flags1 ListTypeTerm else flags1) ltac:(lia) Hraw)
    as (line' & raw' & sublist' & flags' & -> & Hl' & Hr').
  cbn [mbind option_bind]. eexists. split; [reflexivity|]. split; assumption.
Qed.

Section InBoundsLists.

Variable blockrec : bytes -> M unit.
Hypothesis blockrec_ib : forall d, ntl d -> inBounds (blockrec d) (fun _ => True).

Lemma ib_listItem data flags :
  ntl data -> data <> [] ->
  inBounds (listItem blockrec data flags) (fun r => fst r <= length data).
Proof.
  intros Hn Hne. unfold listItem.
  destruct (listItemScan_Some data flags Hn Hne) as (r & Hr & Hpost).
  eapply ib_bind; [apply (ib_lift _ _ (fun x => x = r) Hr eq_refl)|].
  intros x ->. destruct r as [[[[[bulletChar line] raw] sublist] flags']|];
    [|apply ib_ret; cbn [fst]; lia].
  destruct Hpost as (Hline & Hraw & Hsub & Htake).
  eapply ib_bind; [apply ib_addBlock|]. intros b _.
  eapply ib_bind; [apply ib_update|]. intros _ _.
  eapply ib_bind; [apply ib_update|]. intros _ _.
  eapply ib_bind; [apply ib_update|]. intros _ _.
  assert (Ha : sliceTo raw sublist = Some (take sublist raw))
    by (apply sliceTo_Some; auto).
  assert (Hb : sliceFrom raw sublist = Some (drop sublist raw))
    by (apply sliceFrom_Some; auto).
  eapply (ib_bind _ _ (fun _ => True)); [|intros _ _; now apply ib_ret].
  destruct (has flags' ListItemContainsBlock && negb (has flags' ListTypeTerm)).
  - destruct (0 <? sublist).
    + eapply ib_bind; [apply (ib_lift _ _ (fun x => ntl x) Ha Htake)|]. intros a Hna.
      eapply ib_bind; [apply (blockrec_ib _ Hna)|]. intros _ _.
      eapply ib_bind; [apply (ib_lift _ _ (fun x => ntl x) Hb (ntl_drop _ _ Hraw))|].
      intros b' Hnb. apply (blockrec_ib _ Hnb).
    + apply (blockrec_ib _ Hraw).
  - destruct (0 <? sublist).
    + eapply ib_bind; [apply ib_addChild|]. intros child _.
      eapply ib_bind; [apply (ib_lift _ _ (fun _ => True) Ha I)|]. intros a _.
      eapply ib_bind; [apply ib_update|]. intros _ _.
      eapply ib_bind; [apply (ib_lift _ _ (fun x => ntl x) Hb (ntl_drop _ _ Hraw))|].
      intros b' Hnb. apply (blockrec_ib _ Hnb).
    + eapply ib_bind; [apply ib_addChild|]. intros child _. apply ib_update.
Qed.

Lemma ib_listLoop data block : forall fuel i flags,
  ntl data -> i <= length data ->
  inBounds (listLoop blockrec data block fuel i flags) (fun r => r <= length data).
Proof.
  induction fuel as [|f IH]; intros i flags Hn Hi; cbn [listLoop];
    [now apply ib_ret|].
  destruct (inb data i) eqn:E; [|now apply ib_ret].
  apply inb_true in E.
  eapply ib_bind;
    [apply (ib_lift _ _ (fun x => x = drop i data) (sliceFrom_ok data i Hi) eq_refl)|].
  intros d ->.
  eapply ib_bind; [apply ib_listItem|].
  { now apply ntl_drop. }
  { intros H. apply (f_equal length) in H. rewrite length_drop in H. simpl in H. lia. }
  intros [skip flags'] Hskip. cbn [fst] in Hskip. rewrite length_drop in Hskip.
  eapply (ib_bind _ _ (fun _ => True)); [destruct (has flags' _); auto with ib|].
  intros _ _. destruct (_ || _); [apply ib_ret; lia|]. apply IH; [exact Hn|lia].
Qed.

Lemma ib_list data flags :
  ntl data -> inBounds (list_ blockrec data flags) (fun r => r <= length data).
Proof.
  intros Hn. unfold list_.
  eapply ib_bind; [apply ib_addBlock|]. intros b _.
  eapply ib_bind; [apply ib_update|]. intros _ _.
  eapply ib_bind; [apply ib_update|]. intros _ _.
  eapply ib_bind; [apply (ib_listLoop data b _ 0 _ Hn); lia|]. intros i Hi.
  eapply ib_bind; [apply ib_deref|]. intros nd _.
  eapply ib_bind; [apply ib_finalizeList|]. intros _ _.
  eapply ib_bind; [apply ib_modify|]. intros _ _. now apply ib_ret.
Qed.

End InBoundsLists.
(** *** Paragraphs and the dispatch *)

Lemma IndexByte_Some l c : forall n,
  IndexByte l c = Some n -> n < length l /\ get l n = c.
Proof.
  induction l as [|x l IH]; intros n H; cbn [IndexByte] in H; [discriminate|].
  destruct (isc c x) eqn:E.
  - injection H as <-. apply isc_true in E. split; [simpl; lia|now subst].
  - destruct (IndexByte l c) as [m|]; [|discriminate]. injection H as <-.
    destruct (IH m eq_refl) as [H1 H2]. split; [simpl; lia|exact H2].
Qed.

Lemma ntl_take data i :
  i <= length data -> (i = 0 \/ get data (i - 1) = NL) -> ntl (take i data).
Proof.
  intros Hi [-> | Hg]; [rewrite take_0; apply ntl_nil|].
  destruct (decide (i = 0)) as [->|Hne]; [rewrite take_0; apply ntl_nil|].
  apply ntl_intro; rewrite length_take; [lia|].
  replace (i `min` length data) with i by lia. rewrite get_take by lia. exact Hg.
Qed.

Lemma ib_rest data n :
  ntl data -> n <= length data -> inBounds (lift (sliceFrom data n)) ntl.
Proof.
  intros Hn Hle. apply (ib_lift _ _ _ (sliceFrom_ok data n Hle)). now apply ntl_drop.
Qed.

Lemma drop_nonempty (data : bytes) i : i < length data -> drop i data <> [].
Proof.
  intros Hi H. apply (f_equal length) in H. rewrite length_drop in H.
  simpl in H. lia.
Qed.

Section InBoundsBlocks.

Variable blockrec : bytes -> M unit.
Hypothesis blockrec_ib : forall d, ntl d -> inBounds (blockrec d) (fun _ => True).

Lemma ib_paragraphLoop data :
  ntl data -> forall fuel prev line i,
  line <= i -> i <= length data -> (i = 0 \/ get data (i - 1) = NL) ->
  inBounds (paragraphLoop blockrec data fuel prev line i)
           (fun r => r <= length data).
Proof.
  intros Hn.
  assert (Hdone : forall i, i <= length data -> (i = 0 \/ get data (i - 1) = NL) ->
            inBounds (d ← lift (sliceTo data i); renderParagraph d;; mret i)
                     (fun r => r <= length data)).
  { intros i Hi Hst.
    eapply ib_bind;
      [apply (ib_lift _ (take i data) (fun x => x = take i data));
       [apply sliceTo_Some; auto|reflexivity]|].
    intros d ->.
    eapply ib_bind; [apply ib_renderParagraph; now apply ntl_take|].
    intros _ _. now apply ib_ret. }
  assert (Hlist : forall line, line <= length data ->
            inBounds (d ← lift (sliceFrom data line);
                      list_ blockrec d ListTypeDefinition)
                     (fun r => r <= length data)).
  { intros line Hl.
    eapply ib_bind;
      [apply (ib_lift _ _ (fun x => x = drop line data) (sliceFrom_ok data line Hl) eq_refl)|].
    intros d ->.
    eapply ib_weaken; [apply (ib_list blockrec blockrec_ib); now apply ntl_drop|].
    intros r Hr. rewrite length_drop in Hr. cbv beta. lia. }
  induction fuel as [|f IH]; intros prev line i Hli Hi Hst;
    cbn [paragraphLoop]; [now apply Hdone|].
  destruct (inb data i) eqn:E; [|now apply Hdone].
  apply inb_true in E.
  eapply ib_bind;
    [apply (ib_lift _ _ (fun x => x = drop i data) (sliceFrom_ok data i Hi) eq_refl)|].
  intros current ->.
  eapply ib_bind; [apply ib_gets|]. intros ext _.
  pose proof (isEmpty_le (drop i data)) as Hemp. rewrite length_drop in Hemp.
  destruct (0 <? isEmpty (drop i data)).
  - destruct (_ && _).
    + apply Hlist. lia.
    + eapply ib_bind;
        [apply (ib_lift _ (take i data) (fun x => x = take i data));
         [apply sliceTo_Some; auto|reflexivity]|].
      intros d ->.
      eapply ib_bind; [apply ib_renderParagraph; now apply ntl_take|].
      intros _ _. apply ib_ret. lia.
  - destruct (isHRule_Some (drop i data) (ntl_drop _ _ Hn) (drop_nonempty _ _ E))
      as [hr Hhr].
    eapply ib_bind; [apply (ib_lift _ _ (fun _ => True) Hhr I)|]. intros hr' _.
    destruct hr'; [now apply Hdone|].
    destruct (has ext DefinitionLists && negb (dliPrefix (drop i data) =? 0));
      [apply Hlist; lia|].
    destruct (has ext NoEmptyLineBeforeBlock && _); [now apply Hdone|].
    destruct (IndexByte (drop i data) NL) as [nl|] eqn:Enl.
    + apply IndexByte_Some in Enl as [H1 H2].
      rewrite length_drop in H1. rewrite get_drop in H2.
      apply IH; [lia|lia|]. right.
      now replace (i + (nl + 1) - 1) with (i + nl) by lia.
    + rewrite length_drop. apply IH; [lia|lia|]. right.
      replace (i + (length data - i) - 1) with (length data - 1) by lia.
      apply ntl_get; [exact Hn|]. intros ->. simpl in E. lia.
Qed.

Lemma ib_paragraph data :
  ntl data -> inBounds (paragraph blockrec data) (fun r => r <= length data).
Proof.
  intros Hn. unfold paragraph. apply ib_paragraphLoop; [exact Hn|lia|lia|now left].
Qed.

(** One turn of the loop of [block] leaves a buffer that ends with a
    newline. *)
Lemma ib_blockIter data :
  ntl data -> data <> [] -> inBounds (blockIter blockrec data) ntl.
Proof.
  intros Hn Hne. unfold blockIter.
  destruct (0 <? isEmpty data); [apply ib_rest; [exact Hn|apply isEmpty_le]|].
  destruct (isHRule_Some data Hn Hne) as [hr Hhr].
  eapply ib_bind; [apply (ib_lift _ _ (fun _ => True) Hhr I)|]. intros hr' _.
  destruct hr'.
  { eapply ib_bind; [apply ib_addBlock|]. intros _ _.
    apply ib_rest; [exact Hn|]. apply toNewline_le. lia. }
  destruct (0 <? quotePrefix data).
  { eapply ib_bind; [apply (ib_quote blockrec blockrec_ib data Hn)|].
    intros n Hle. now apply ib_rest. }
  eapply ib_bind; [apply ib_gets|]. intros ext _.
  eapply (ib_bind _ _ (fun i => i <= length data)).
  { destruct (has ext Tables); [now apply ib_table|apply ib_ret; lia]. }
  intros i Hi.
  destruct (0 <? i); [now apply ib_rest|].
  destruct (0 <? uliPrefix data).
  { eapply ib_bind; [apply (ib_list blockrec blockrec_ib data _ Hn)|].
    intros n Hle. now apply ib_rest. }
  destruct (0 <? oliPrefix data).
  { eapply ib_bind; [apply (ib_list blockrec blockrec_ib data _ Hn)|].
    intros n Hle. now apply ib_rest. }
  eapply ib_bind; [apply ib_gets|]. intros ext' _.
  destruct (_ && _).
  { eapply ib_bind; [apply (ib_list blockrec blockrec_ib data _ Hn)|].
    intros n Hle. now apply ib_rest. }
  eapply ib_bind; [apply (ib_paragraph data Hn)|].
  intros n Hle. now apply ib_rest.
Qed.

Lemma ib_blockLoop : forall fuel data,
  ntl data -> inBounds (blockLoop blockrec fuel data) (fun _ => True).
Proof.
  induction fuel as [|f IH]; intros data Hn; destruct data as [|c data'];
    cbn [blockLoop].
  - now apply ib_ret.
  - apply ib_fail. discriminate.
  - now apply ib_ret.
  - eapply ib_bind; [apply (ib_blockIter _ Hn); discriminate|].
    intros d Hd. now apply IH.
Qed.

End InBoundsBlocks.

(** [block] never indexes out of range on a buffer that ends with a
    newline. *)
Lemma ib_block : forall fuel data,
  ntl data -> inBounds (block fuel data) (fun _ => True).
Proof.
  induction fuel as [|f IH]; intros data Hn; cbn [block].
  - eapply ib_bind; [apply ib_gets|]. intros n _.
    eapply ib_bind; [apply ib_gets|]. intros mx _.
    destruct (mx <=? n); [now apply ib_ret|apply ib_fail; discriminate].
  - eapply ib_bind; [apply ib_gets|]. intros n _.
    eapply ib_bind; [apply ib_gets|]. intros mx _.
    destruct (mx <=? n); [now apply ib_ret|].
    eapply ib_bind; [apply ib_modify|]. intros _ _.
    eapply ib_bind; [apply (ib_blockLoop (block f) IH f data Hn)|]. intros _ _.
    eapply ib_bind; [apply ib_gets|]. intros n' _. apply ib_modify.
Qed.
(** ** Single steps with their frame

    What one operation on the tree does to the tip, to the node it touches
    and to the other nodes, when it applies directly. *)

Definition sameCtl (p p1 : Markdown) : Prop :=
  allClosed p1 = allClosed p /\ extensions p1 = extensions p /\
  nesting p1 = nesting p /\ maxNesting p1 = maxNesting p.

Lemma sameCtl_refl p : sameCtl p p.
Proof. repeat split. Qed.

Lemma sameCtl_trans p1 p2 p3 : sameCtl p1 p2 -> sameCtl p2 p3 -> sameCtl p1 p3.
Proof. intros (?&?&?&?) (?&?&?&?). repeat split; congruence. Qed.

Lemma step_update k f p nd :
  heap p !! k = Some nd ->
  exists p1, update (Some k) f p = Ok tt p1 /\ sameCtl p p1 /\ tip p1 = tip p /\
    length (heap p1) = length (heap p) /\ heap p1 !! k = Some (f nd) /\
    forall j, j <> k -> heap p1 !! j = heap p !! j.
Proof.
  intros Hk. exists (setHeap (<[k := f nd]> (heap p)) p).
  split; [apply update_Ok; eauto|]. st_simpl.
  split; [unfold sameCtl; repeat split|]. split; [reflexivity|].
  split; [apply length_insert|].
  split; [apply list_lookup_insert_eq; now apply lookup_lt_Some in Hk|].
  intros j Hj. now apply list_lookup_insert_ne.
Qed.

Lemma step_addChild typ off p t nt :
  tip p = Some t -> heap p !! t = Some nt ->
  canContain (Type_ nt) typ = true -> open nt = true ->
  exists p1, addChild typ off p = Ok (length (heap p)) p1 /\ sameCtl p p1 /\
    tip p1 = Some (length (heap p)) /\
    length (heap p1) = S (length (heap p)) /\
    heap p1 !! length (heap p)
    = Some (withParent (Some t) (freshNode typ)) /\
    heap p1 !! t = Some (withChildren (Children nt ++ [length (heap p)]) nt) /\
    forall j, j <> t -> j < length (heap p) -> heap p1 !! j = heap p !! j.
Proof.
  intros Ht Hnt Hcan Hopen.
  assert (Hlt : t < length (heap p)) by now apply lookup_lt_Some in Hnt.
  exists (withNewChild typ None t nt p).
  split; [now apply addChild_direct|].
  split; [unfold sameCtl; repeat split|]. split; [reflexivity|].
  split; [apply withNewChild_length|].
  split; [now rewrite withNewChild_new|].
  split; [now apply withNewChild_parent|].
  intros j Hj Hjl. now apply withNewChild_other.
Qed.

Lemma step_addBlock typ c p t nt :
  allClosed p = true -> tip p = Some t -> heap p !! t = Some nt ->
  canContain (Type_ nt) typ = true -> open nt = true ->
  exists p1, addBlock typ c p = Ok (length (heap p)) p1 /\ sameCtl p p1 /\
    tip p1 = Some (length (heap p)) /\
    length (heap p1) = S (length (heap p)) /\
    heap p1 !! length (heap p)
    = Some (withContent c (withParent (Some t) (freshNode typ))) /\
    heap p1 !! t = Some (withChildren (Children nt ++ [length (heap p)]) nt) /\
    forall j, j <> t -> j < length (heap p) -> heap p1 !! j = heap p !! j.
Proof.
  intros Ha Ht Hnt Hcan Hopen.
  assert (Hlt : t < length (heap p)) by now apply lookup_lt_Some in Hnt.
  exists (withNewChild typ c t nt p).
  split; [now apply addBlock_direct|].
  split; [unfold sameCtl; repeat split|]. split; [reflexivity|].
  split; [apply withNewChild_length|].
  split; [now apply withNewChild_new|].
  split; [now apply withNewChild_parent|].
  intros j Hj Hjl. now apply withNewChild_other.
Qed.

Lemma deref_direct k p nd : heap p !! k = Some nd -> deref (Some k) p = Ok nd p.
Proof. intros H. unfold deref. now rewrite H. Qed.

(** [endsWithBlankLine] on a node that is neither a list nor an item, and
    on an item whose last child is a paragraph. *)
Lemma endsBlank_leaf k p nd :
  heap p !! k = Some nd ->
  NodeType_eqb (Type_ nd) List || NodeType_eqb (Type_ nd) Item = false ->
  endsBlank (Some k) p = Ok false p.
Proof.
  intros Hk Hty. unfold endsBlank, mbind, M_bind, gets.
  cbn [endsWithBlankLine]. unfold mbind, M_bind.
  rewrite (deref_direct _ _ _ Hk), Hty. reflexivity.
Qed.

Lemma endsBlank_item k p nd c nc :
  heap p !! k = Some nd -> Type_ nd = Item -> LastChild nd = Some c ->
  heap p !! c = Some nc ->
  NodeType_eqb (Type_ nc) List || NodeType_eqb (Type_ nc) Item = false ->
  endsBlank (Some k) p = Ok false p.
Proof.
  intros Hk Hty Hlast Hc Htc. unfold endsBlank, mbind, M_bind, gets.
  assert (Hl : 1 <= length (heap p)) by (apply lookup_lt_Some in Hk; lia).
  destruct (length (heap p)) as [|n]; [lia|].
  cbn [endsWithBlankLine]. unfold mbind, M_bind.
  rewrite (deref_direct _ _ _ Hk), Hty. cbn [NodeType_eqb orb]. rewrite Hlast.
  rewrite (deref_direct _ _ _ Hc), Htc. reflexivity.
Qed.

(** [finalizeList] of a list with one item that holds one paragraph. *)
Lemma step_finalizeList k p nl k1 ni k2 np :
  heap p !! k = Some nl -> Children nl = [k1] ->
  heap p !! k1 = Some ni -> Type_ ni = Item -> Children ni = [k2] ->
  heap p !! k2 = Some np -> Type_ np = Paragraph ->
  k1 <> k -> k2 <> k ->
  exists p1, finalizeList (Some k) p = Ok tt p1 /\ sameCtl p p1 /\
    tip p1 = tip p /\ length (heap p1) = length (heap p) /\
    forall j, j <> k -> heap p1 !! j = heap p !! j.
Proof.
  intros Hk Hcl Hk1 Hti Hci Hk2 Htp Hne1 Hne2.
  destruct (step_update k (withOpen false) p nl Hk)
    as (p1 & Hu & Hctl & Htip & Hlen & Hk' & Hother).
  exists p1. split; [|auto].
  unfold finalizeList, mbind, M_bind. rewrite Hu.
  rewrite (deref_direct _ _ _ Hk'). cbn [Children withOpen]. rewrite Hcl.
  assert (Hk1' : heap p1 !! k1 = Some ni) by (rewrite Hother; auto).
  assert (Hk2' : heap p1 !! k2 = Some np) by (rewrite Hother; auto).
  cbn [items]. unfold mbind, M_bind.
  rewrite (endsBlank_item k1 p1 ni k2 np Hk1' Hti);
    [|unfold LastChild; now rewrite Hci|exact Hk2'|now rewrite Htp].
  cbn [andb]. rewrite (deref_direct _ _ _ Hk1'). rewrite Hci.
  cbn [subItems]. unfold mbind, M_bind.
  rewrite (endsBlank_leaf k2 p1 np Hk2'); [|now rewrite Htp].
  reflexivity.
Qed.

(** ** Equations of the bind *)

Lemma bind_lift {A B} (o : option A) (a : A) (f : A -> M B) p :
  o = Some a -> (lift o ≫= f) p = f a p.
Proof. intros ->. reflexivity. Qed.

Lemma bind_gets {A B} (g : Markdown -> A) (f : A -> M B) p :
  (gets g ≫= f) p = f (g p) p.
Proof. reflexivity. Qed.

Lemma bind_eq {A B} (m : M A) (a : A) p p1 (f : A -> M B) :
  m p = Ok a p1 -> (m ≫= f) p = f a p1.
Proof. intros H. unfold mbind, M_bind. now rewrite H. Qed.

(** * The claims of the specification *)

Local Open Scope string_scope.
Local Open Scope nat_scope.

(** An inline engine that produces one text node for a non-empty run; the
    concrete instances below use it. *)
Definition textEngine (e : Z) (b : bytes) : list nat :=
  match b with [] => [] | _ => [0] end.

(** C1: after [Parse] returns, the returned root is the document, and every
    Paragraph and TableCell node reachable from it has a nil content buffer:
    the inline pass visited it, handed its raw text to the inline engine and
    cleared it.  This holds for every input, every extension set and every
    inline engine. *)
Theorem Parse_leaves_no_raw_content
  (inlineEngine : Z -> bytes -> list nat) (fuel : nat) (input : bytes) (e : Z)
  (d : option nat) (p' : Markdown) :
  Parse inlineEngine fuel input (New e) = Ok d p' ->
  d = Some 0 /\
  forall m nd, reach (heap p') 0 m -> heap p' !! m = Some nd ->
    Type_ nd = Paragraph \/ Type_ nd = TableCell -> content nd = None.
Proof.
  intros H. apply Parse_Ok in H as (p1 & _ & -> & _ & Hc);
    [|apply wf_New|simpl; eauto].
  split; [reflexivity|]. intros m nd Hr Hm Ht. apply (Hc m nd Hr Hm).
  unfold leafTarget. destruct Ht as [-> | ->]; reflexivity.
Qed.

Lemma Parse_leaves_no_raw_content_witness :
  exists d p',
    Parse textEngine 100 (lines ["a|b"; "---|---"; "c|d"; ""; "text"])
      (New MfnStandardExtensions) = Ok d p' /\
    d = Some 0 /\
    forall m nd, reach (heap p') 0 m -> heap p' !! m = Some nd ->
      Type_ nd = Paragraph \/ Type_ nd = TableCell -> content nd = None.
Proof.
  eexists _, _. split; [vm_compute; reflexivity|].
  apply (Parse_leaves_no_raw_content textEngine 100
           (lines ["a|b"; "---|---"; "c|d"; ""; "text"]) MfnStandardExtensions).
  vm_compute. reflexivity.
Defined.

(** C9, as the code has it: after [Parse] returns, the tip pointer is nil and
    the Document root is closed.  (The nodes off the last open path, such as
    the last paragraph of a finished block quote or list, stay open: see the
    counterexample.) *)
Theorem Parse_closes_root
  (inlineEngine : Z -> bytes -> list nat) (fuel : nat) (input : bytes) (e : Z)
  (d : option nat) (p' : Markdown) :
  Parse inlineEngine fuel input (New e) = Ok d p' ->
  d = Some 0 /\ tip p' = None /\
  exists nd, heap p' !! 0 = Some nd /\ Type_ nd = Document /\ open nd = false.
Proof.
  intros H. apply Parse_Ok in H as (p1 & Hb & -> & Hg & _);
    [|apply wf_New|simpl; eauto].
  apply blockPhase_Ok in Hb as (_ & Ht & _ & Hpk & d0 & Hd0 & Hopen);
    [|apply wf_New|simpl; eauto].
  split; [reflexivity|]. split.
  - destruct Hg as (-> & _). exact Ht.
  - destruct (proj2 Hpk 0 (freshNode Document) eq_refl) as (nd' & Hnd' & _ & Hty).
    assert (nd' = d0) as -> by congruence.
    exists d0. split; [|auto]. eapply grows_node; eauto.
    rewrite Hty. reflexivity.
Qed.

Lemma Parse_closes_root_witness :
  exists d p',
    Parse textEngine 100 (lines ["> a"]) (New NoExtensions) = Ok d p' /\
    d = Some 0 /\ tip p' = None /\
    exists nd, heap p' !! 0 = Some nd /\ Type_ nd = Document /\ open nd = false.
Proof.
  eexists _, _. split; [vm_compute; reflexivity|].
  apply (Parse_closes_root textEngine 100 (lines ["> a"]) NoExtensions).
  vm_compute. reflexivity.
Defined.

(** C9 as stated fails: parsing a one-line block quote returns a tree whose
    Paragraph (node 2, below the BlockQuote) is still open. *)
Lemma Parse_leaves_open_node :
  exists p' nd,
    Parse textEngine 100 (lines ["> a"]) (New NoExtensions) = Ok (Some 0) p' /\
    reach (heap p') 0 2 /\ heap p' !! 2 = Some nd /\
    Type_ nd = Paragraph /\ open nd = true.
Proof.
  eexists _, _. split; [vm_compute; reflexivity|].
  split; [|split; [reflexivity|split; reflexivity]].
  eapply reach_step; [reflexivity|apply list_elem_of_here|].
  eapply reach_step; [reflexivity|apply list_elem_of_here|].
  apply reach_refl.
Qed.
(** The returned tree has exactly one node below the document: a List whose
    [Tight] field is [tight]. *)
Definition singleList (p : Markdown) (tight : bool) : Prop :=
  exists d l nd, heap p !! 0 = Some d /\ Children d = [l] /\
    heap p !! l = Some nd /\ Type_ nd = List /\ Tight nd = tight.

Ltac run_example engine k :=
  match goal with
  | |- exists p', Parse _ (?fuel + _) ?input (New ?e) = _ /\ _ =>
      let Hb := fresh "Hb" in
      eassert (Hb : blockPhase fuel input (New e) = Ok tt _)
        by (vm_compute; reflexivity);
      let p' := fresh "p'" in let HP := fresh "HP" in let Hg := fresh "Hg" in
      destruct (Parse_example engine fuel k input e _ Hb) as (p' & HP & Hg);
      clear Hb; exists p'; split; [exact HP|]
  end.

Ltac block_node Hg :=
  eapply (grows_node _ _ _ _ Hg); [vm_compute; reflexivity|reflexivity].

(** C8: with no blank line between the items the list is tight, with a blank
    line it is loose; for every inline engine, with no extensions and with
    the default extensions of [Run], and for every fuel from 20 on. *)
Theorem list_tightness (inlineEngine : Z -> bytes -> list nat) (k : nat) :
  (exists p', Parse inlineEngine (20 + k) (lines ["* a"; "* b"])
                (New NoExtensions) = Ok (Some 0) p' /\ singleList p' true) /\
  (exists p', Parse inlineEngine (20 + k) (lines ["* a"; ""; "* b"])
                (New NoExtensions) = Ok (Some 0) p' /\ singleList p' false) /\
  (exists p', Parse inlineEngine (20 + k) (lines ["* a"; "* b"])
                (New MfnStandardExtensions) = Ok (Some 0) p' /\
              singleList p' true) /\
  (exists p', Parse inlineEngine (20 + k) (lines ["* a"; ""; "* b"])
                (New MfnStandardExtensions) = Ok (Some 0) p' /\
              singleList p' false).
Proof.
  repeat split; run_example inlineEngine k;
    first
      [ eexists _, 1, _; split; [block_node Hg|];
        split; [reflexivity|]; split; [block_node Hg|]; split; reflexivity
      | (* the table attempt of the default extensions left node 1 detached *)
        eexists _, 2, _; split; [block_node Hg|];
        split; [reflexivity|]; split; [block_node Hg|]; split; reflexivity ].
Qed.

(** C7: the row that [tableRow] makes (from a well-formed state) is a
    TableRow with exactly [len(columns)] children; the [i]-th child is a
    childless TableCell below that row, with the header flag and the
    alignment of column [i], and its content has no space at either end.  A
    cell stops only at a newline or at a pipe that is not escaped, and every
    pipe inside it is escaped.  Short rows are padded with nil cells, extra
    cells are dropped, and [\|] stays inside its cell. *)
Theorem tableRow_cell_count data columns header p u p' :
  wf p -> tableRow data columns header p = Ok u p' ->
  (exists nr, heap p' !! length (heap p) = Some nr /\ Type_ nr = TableRow /\
     length (Children nr) = length columns /\
     forall i c, Children nr !! i = Some c ->
       rowCellOk p' (length (heap p)) header columns i c) /\
  (forall d i, cellEndFrom d i < length d ->
     get d (cellEndFrom d i) = NL \/
     (get d (cellEndFrom d i) = "|"%char /\
      isBackslashEscaped d (cellEndFrom d i) = false)) /\
  (forall d i k, i <= k < cellEndFrom d i ->
     get d k <> NL /\ (get d k = "|"%char -> isBackslashEscaped d k = true)) /\
  rowCellsOf (lines ["a"]) 3 = Some [Some (str "a"); None; None] /\
  rowCellsOf (lines ["a | b |c|d"]) 2 = Some [Some (str "a"); Some (str "b")] /\
  rowCellsOf (lines ["x\|y| z "]) 2 = Some [Some (str "x\|y"); Some (str "z")].
Proof.
  intros Hwf H. split; [|split; [|split; [|repeat split]]].
  - destruct (tableRow_inv _ _ _ _ _ _ Hwf H)
      as (cs & (_ & _ & (nr & Hnr & Hty & _ & Hcs) & _ & Hcells) & Hlen).
    exists nr. split; [exact Hnr|]. split; [exact Hty|]. rewrite Hcs.
    split; [exact Hlen|]. intros i c Hc. apply (Hcells i c Hc).
  - apply cellEndFrom_stop.
  - apply cellEndFrom_inside.
Qed.

Lemma tableRow_cell_count_witness :
  exists p',
    tableRow (lines ["a|b|c"]) [0%Z; 0%Z] true (New Tables) = Ok tt p' /\
    exists nr, heap p' !! 1 = Some nr /\ Type_ nr = TableRow /\
      length (Children nr) = 2.
Proof.
  eexists. split; [vm_compute; reflexivity|].
  destruct (tableRow_cell_count (lines ["a|b|c"]) [0%Z; 0%Z] true (New Tables) tt _
              (wf_New Tables) ltac:(vm_compute; reflexivity))
    as ((nr & Hnr & Hty & Hlen & _) & _).
  exists nr. split; [exact Hnr|]. split; [exact Hty|exact Hlen].
Defined.

(** C6: when the header and underline validation fails, [table] returns 0.
    The Table node that was added before the validation (at index [k],
    below [t]) is detached again: the tip is back at [t], the node at [k]
    has no parent, no content and no child, no earlier node lists it as a
    child (earlier nodes differ from before the call at most in [open]),
    so it cannot be reached from the document; and with the Tables
    extension enabled the table grammar reports no match, so that the
    dispatch goes on with the grammars after it. *)
Theorem table_failure_unlinks (blockrec : bytes -> M unit)
  data i cols hdr p k p1 :
  wf p -> tableHeaderScan data = Some (false, i, cols, hdr) ->
  addBlock Table None p = Ok k p1 ->
  exists p' t,
    table data p = Ok 0 p' /\ wf p' /\
    heap p1 !! k
    = Some (withContent None (withParent (Some t) (freshNode Table))) /\
    tip p' = Some t /\
    heap p' !! k = Some (freshNode Table) /\
    ~ reach (heap p') 0 k /\
    (forall j nd, heap p !! j = Some nd ->
       exists b, heap p' !! j = Some (withOpen b nd)) /\
    (has (extensions p) Tables = true -> forall gs,
       firstMatch blockrec (GTable :: gs) data p
       = firstMatch blockrec gs data p').
Proof.
  intros Hwf Hscan Hadd.
  destruct (table_fail_Ok _ _ _ _ _ _ _ Hwf Hscan Hadd)
    as (p' & t & Ht & Hwf' & _ & Hk1 & Htip & _ & _ & Hk & Hold & Hnr).
  exists p', t. repeat (split; [assumption|]).
  intros Hext gs. cbn [firstMatch attempt].
  unfold mbind, M_bind, gets. rewrite Hext.
  fold (@mbind M _). unfold mbind, M_bind. rewrite Ht. reflexivity.
Qed.

Lemma table_failure_unlinks_witness :
  exists p' t,
    table (lines ["a|b"; "x"]) (New Tables) = Ok 0 p' /\ tip p' = Some t /\
    heap p' !! 1 = Some (freshNode Table) /\ ~ reach (heap p') 0 1.
Proof.
  destruct (table_failure_unlinks (fun _ => mret tt) (lines ["a|b"; "x"])
              4 [0%Z; 0%Z] (str "a|b" ++ [NL])%list (New Tables) 1 _
              (wf_New Tables) ltac:(vm_compute; reflexivity)
              ltac:(vm_compute; reflexivity))
    as (p' & t & Ht & _ & _ & Htip & Hk & Hnr & _).
  exists p', t. repeat (split; [assumption|]). exact Hnr.
Defined.

(** The returned tree has exactly one node below the document, of type
    [typ]. *)
Definition singleBlock (p : Markdown) (typ : NodeType) : Prop :=
  exists d l nd, heap p !! 0 = Some d /\ Children d = [l] /\
    heap p !! l = Some nd /\ Type_ nd = typ.

(** C3: one turn of the loop of [block] is the first match among the
    grammars tried in the order blank line, horizontal rule, block quote,
    table, unordered list, ordered list, definition list, paragraph, where
    the table and the definition list are tried only with their extension:
    on every buffer and in every state the turn of the source and the first
    match of the priority list give the same result.  The line [* * *]
    matches the horizontal rule and the unordered-list prefix, and is parsed
    as a HorizontalRule with every extension set. *)
Theorem block_dispatch_priority (blockrec : bytes -> M unit)
  (inlineEngine : Z -> bytes -> list nat) (e : Z) (k : nat) :
  (forall data p,
     blockIter blockrec data p = firstMatch blockrec priority data p) /\
  isHRule (lines ["* * *"]) = Some true /\
  0 < uliPrefix (lines ["* * *"]) /\
  exists p', Parse inlineEngine (20 + k) (lines ["* * *"]) (New e)
             = Ok (Some 0) p' /\ singleBlock p' HorizontalRule.
Proof.
  split; [|split; [reflexivity|split; [vm_compute; lia|]]].
  - intros data p.
    unfold blockIter, priority, firstMatch, attempt, rest.
    unfold mbind, M_bind, lift, gets, mret, M_ret.
    repeat first [reflexivity | assumption | case_match; simplify_eq].
  - run_example inlineEngine k.
    eexists _, 1, _. split; [block_node Hg|].
    split; [reflexivity|]. split; [block_node Hg|reflexivity].
Qed.

(** C4, as the code has it: below a header line [hdr] with [k] columns
    ([k >= 2], no backslash, no pipe at either end), an underline of [k]
    columns of the form [:?-*:?] separated by pipes is accepted exactly when
    every column has at least 3 bytes, colons included: the code counts a
    colon as a dash.  (A column of 3 dashes or more passes, and so does
    [:-:]: see the counterexample.) *)
Theorem tableHeader_column_width (hdr : bytes) (cs : list ucol) (post : bytes) :
  NL ∉ hdr -> "\"%char ∉ hdr -> head hdr <> Some "|"%char ->
  last hdr <> Some "|"%char ->
  1 <= countc "|" hdr -> length cs = S (countc "|" hdr) ->
  exists b i columns header,
    tableHeaderScan (hdr ++ NL :: joinPipe (map colText cs) ++ NL :: post)%list
    = Some (b, i, columns, header) /\
    (b = true <->
     forall l n r, (l, n, r) ∈ cs -> 3 <= Nat.b2n l + n + Nat.b2n r).
Proof.
  intros Hnl Hbs Hhd Hlast Hpipes Hlen.
  destruct (tableHeaderScan_underline hdr cs post Hnl Hbs Hhd Hlast Hpipes Hlen)
    as (b & i & columns & header & Hrun & -> & _).
  exists (forallb colOk cs), i, columns, header. split; [exact Hrun|].
  rewrite forallb_forall. split.
  - intros H l n r Hin. apply Nat.leb_le.
    apply (H (l, n, r)). now apply list_elem_of_In.
  - intros H [[l n] r] Hin. apply Nat.leb_le. apply H. now apply list_elem_of_In.
Qed.

Lemma tableHeader_column_width_witness :
  exists b i columns header,
    tableHeaderScan (lines ["A|B"; ":--|-"; "c|d"]) = Some (b, i, columns, header) /\
    (b = true <->
     forall l n r, (l, n, r) ∈ [(true, 2, false); (false, 1, false)] ->
                   3 <= Nat.b2n l + n + Nat.b2n r).
Proof.
  apply (tableHeader_column_width (str "A|B")
           [(true, 2, false); (false, 1, false)] (lines ["c|d"])).
  - intros H. apply list_elem_of_In in H. simpl in H.
    repeat (destruct H as [H | H]; [discriminate|]). exact H.
  - intros H. apply list_elem_of_In in H. simpl in H.
    repeat (destruct H as [H | H]; [discriminate|]). exact H.
  - discriminate.
  - discriminate.
  - vm_compute. lia.
  - reflexivity.
Defined.

(** C4 as stated fails: the underline [:-:|:-:], whose columns have one dash
    each, passes the validation, and [table] reports a match of the 12
    bytes of the two lines. *)
Lemma table_accepts_single_dash :
  exists p',
    tableHeaderScan (lines ["A|B"; ":-:|:-:"])
    = Some (true, 11, [TableAlignmentCenter; TableAlignmentCenter],
            lines ["A|B"]) /\
    table (lines ["A|B"; ":-:|:-:"]) (New Tables) = Ok 12 p' /\
    treeOf 5 (heap p') 1
    = Some (T Table false None true
              [T TableHead false None false
                 [T TableRow false None false
                    [T TableCell false (Some (str "A")) false [];
                     T TableCell false (Some (str "B")) false []]];
               T TableBody false None true []]).
Proof.
  eexists. split; [vm_compute; reflexivity|].
  split; vm_compute; reflexivity.
Qed.

(** C5: when the underline is accepted, the alignment of column [j] is the
    bitwise or of [TableAlignmentLeft], present exactly when the column
    begins with a colon, and of [TableAlignmentRight], present exactly when
    it ends with one; both together are [TableAlignmentCenter].  So
    [:--|--:] gives a left and a right column, and [:-:] a centered one, and
    the cells of the table carry the alignment of their column. *)
Theorem tableHeader_alignment (hdr : bytes) (cs : list ucol) (post : bytes) :
  NL ∉ hdr -> "\"%char ∉ hdr -> head hdr <> Some "|"%char ->
  last hdr <> Some "|"%char ->
  1 <= countc "|" hdr -> length cs = S (countc "|" hdr) ->
  forallb colOk cs = true ->
  (exists i columns,
     tableHeaderScan (hdr ++ NL :: joinPipe (map colText cs) ++ NL :: post)%list
     = Some (true, i, columns, (hdr ++ [NL])%list) /\
     length columns = length cs /\
     forall (j : nat) (l : bool) (n : nat) (r : bool), cs !! j = Some (l, n, r) ->
       exists a, columns !! j = Some a /\
         a = Z.lor (if l then TableAlignmentLeft else 0%Z)
                   (if r then TableAlignmentRight else 0%Z) /\
         has a TableAlignmentLeft = l /\ has a TableAlignmentRight = r /\
         (l = true -> r = true -> a = TableAlignmentCenter)) /\
  tableHeaderScan (lines ["A|B"; ":--|--:"])
  = Some (true, 11, [TableAlignmentLeft; TableAlignmentRight], lines ["A|B"]) /\
  tableHeaderScan (lines ["|A"; ":-:"])
  = Some (true, 6, [TableAlignmentCenter], lines ["|A"]) /\
  exists p',
    table (lines ["A|B"; ":--|--:"; "c|d"]) (New Tables) = Ok 16 p' /\
    omap (fun nd => match Type_ nd with
                    | TableCell => Some (Align nd)
                    | _ => None
                    end) (heap p')
    = [TableAlignmentLeft; TableAlignmentRight;
       TableAlignmentLeft; TableAlignmentRight].
Proof.
  intros Hnl Hbs Hhd Hlast Hpipes Hlen Hok.
  split; [|split; [vm_compute; reflexivity|split; [vm_compute; reflexivity|]]].
  - destruct (tableHeaderScan_underline hdr cs post Hnl Hbs Hhd Hlast Hpipes Hlen)
      as (b & i & columns & header & Hrun & -> & Hres).
    destruct (Hres Hok) as (_ & -> & ->). rewrite Hok in Hrun.
    exists i, (map colAlign cs). split; [exact Hrun|].
    split; [apply length_map|].
    intros j l n r Hj. exists (colAlign (l, n, r)).
    split; [change (map colAlign cs) with (colAlign <$> cs);
            rewrite list_lookup_fmap; exact (f_equal (fmap colAlign) Hj)|].
    split; [reflexivity|]. destruct l, r; repeat split; try reflexivity; discriminate.
  - eexists. split; vm_compute; reflexivity.
Qed.

Lemma tableHeader_alignment_witness :
  exists i columns,
    tableHeaderScan (lines ["A|B|C"; ":--|--:|:-:"; "c|d"])
    = Some (true, i, columns, lines ["A|B|C"]) /\
    columns !! 0 = Some TableAlignmentLeft /\
    columns !! 1 = Some TableAlignmentRight /\
    columns !! 2 = Some TableAlignmentCenter.
Proof.
  destruct (tableHeader_alignment (str "A|B|C")
              [(true, 2, false); (false, 2, true); (true, 1, true)]
              (lines ["c|d"])) as ((i & columns & Hrun & _ & Hcols) & _).
  - intros H. apply list_elem_of_In in H. simpl in H.
    repeat (destruct H as [H | H]; [discriminate|]). exact H.
  - intros H. apply list_elem_of_In in H. simpl in H.
    repeat (destruct H as [H | H]; [discriminate|]). exact H.
  - discriminate.
  - discriminate.
  - vm_compute. lia.
  - reflexivity.
  - reflexivity.
  - exists i, columns. split; [exact Hrun|].
    destruct (Hcols 0 _ _ _ eq_refl) as (a0 & H0 & -> & _).
    destruct (Hcols 1 _ _ _ eq_refl) as (a1 & H1 & -> & _).
    destruct (Hcols 2 _ _ _ eq_refl) as (a2 & H2 & -> & _).
    split; [exact H0|]. split; [exact H1|exact H2].
Defined.


(** The input of the divergence: a line that starts with a tab and holds a
    list bullet, followed by a definition. *)
Definition tabTerm : bytes := (TAB :: lines ["* a"; ": d"])%list.

(** The state at the head of the loop of [block]: the tip is the open
    document. *)
Definition atDocument (p : Markdown) : Prop :=
  allClosed p = true /\ tip p = Some 0 /\
  exists nd, heap p !! 0 = Some nd /\ Type_ nd = Document /\ open nd = true.

Section Diverges.

Variable blockrec : bytes -> M unit.

Lemma list_tabTerm_step p :
  atDocument p ->
  exists p', list_ blockrec tabTerm ListTypeDefinition p = Ok 0 p' /\
             atDocument p' /\ extensions p' = extensions p.
Proof.
  intros (Ha & Ht & nd0 & H0 & Hty0 & Hop0).
  assert (Hl0 : 0 < length (heap p)) by now apply lookup_lt_Some in H0.
  set (k := length (heap p)).
  unfold list_.
  (* the list *)
  destruct (step_addBlock List None p 0 nd0 Ha Ht H0 ltac:(now rewrite Hty0) Hop0)
    as (p1 & E1 & C1 & T1 & L1 & K1 & Z1 & _).
  fold k in E1, T1, L1, K1, Z1.
  destruct (step_update k (withListFlags (setf ListTypeDefinition ListItemBeginningOfList))
              p1 _ K1) as (p2 & E2 & C2 & T2 & L2 & K2 & O2).
  destruct (step_update k (withTight true) p2 _ K2)
    as (p3 & E3 & C3 & T3 & L3 & K3 & O3).
  unfold mbind at 1, M_bind. rewrite E1.
  unfold mbind at 1, M_bind. rewrite E2.
  unfold mbind at 1, M_bind. rewrite E3.
  (* the item *)
  assert (Ha3 : allClosed p3 = true).
  { assert (Hc : sameCtl p p3)
      by (repeat (eapply sameCtl_trans; [eassumption|]); apply sameCtl_refl).
    destruct Hc as (-> & _). exact Ha. }
  assert (Ht3 : tip p3 = Some k) by congruence.
  assert (Hlen3 : length (heap p3) = S k) by congruence.
  set (nl := withTight true
               (withListFlags (setf ListTypeDefinition ListItemBeginningOfList)
                  (withContent None (withParent (Some 0) (freshNode List))))) in *.
  destruct (step_addBlock Item None p3 k nl Ha3 Ht3 K3 eq_refl eq_refl)
    as (p4 & E4 & C4 & T4 & L4 & K4 & Z4 & O4).
  rewrite Hlen3 in E4, T4, L4, K4, Z4, O4.
  destruct (step_update (S k) (withListFlags 54%Z) p4 _ K4)
    as (p5 & E5 & C5 & T5 & L5 & K5 & O5).
  destruct (step_update (S k) (withTight false) p5 _ K5)
    as (p6 & E6 & C6 & T6 & L6 & K6 & O6).
  destruct (step_update (S k) (withBullet "*" ".") p6 _ K6)
    as (p7 & E7 & C7 & T7 & L7 & K7 & O7).
  set (ni := withBullet "*" "."
               (withTight false
                  (withListFlags 54%Z
                     (withContent None (withParent (Some k) (freshNode Item)))))) in *.
  assert (Ht7 : tip p7 = Some (S k)) by congruence.
  assert (Hlen7 : length (heap p7) = S (S k)) by congruence.
  destruct (step_addChild Paragraph 0 p7 (S k) ni Ht7 K7 eq_refl eq_refl)
    as (p8 & E8 & C8 & T8 & L8 & K8 & Z8 & O8).
  rewrite Hlen7 in E8, T8, L8, K8, Z8, O8.
  destruct (step_update (S (S k)) (withContent (bufBytes [])) p8 _ K8)
    as (p9 & E9 & C9 & T9 & L9 & K9 & O9).
  assert (Hitem : listItem blockrec tabTerm
                    (setf ListTypeDefinition ListItemBeginningOfList) p3
                  = Ok (0, 54%Z) p9).
  { unfold listItem.
    replace (listItemScan tabTerm (setf ListTypeDefinition ListItemBeginningOfList))
      with (Some (Some ("*"%char, 0, @nil ascii, 0, 54%Z)))
      by (vm_compute; reflexivity).
    unfold mbind at 1, M_bind. cbn [lift].
    change ((mret (Some ("*"%char, 0, @nil ascii, 0, 54%Z)) : M _) p3)
      with (Ok (Some ("*"%char, 0, @nil ascii, 0, 54%Z)) p3).
    cbv iota beta.
    unfold mbind at 1, M_bind. rewrite E4.
    unfold mbind at 1, M_bind. rewrite E5.
    unfold mbind at 1, M_bind. rewrite E6.
    unfold mbind at 1, M_bind. rewrite E7.
    unfold mbind at 1, M_bind.
    replace (has 54 ListItemContainsBlock && negb (has 54 ListTypeTerm))
      with false by (vm_compute; reflexivity).
    cbn [Nat.ltb Nat.leb]. cbv iota.
    unfold mbind at 1, M_bind. rewrite E8. rewrite E9. reflexivity. }
  (* the loop of the list stops: the item took no byte *)
  assert (Hloop : listLoop blockrec tabTerm k (length tabTerm - 0) 0
                    (setf ListTypeDefinition ListItemBeginningOfList) p3
                  = Ok 0 p9).
  { change (length tabTerm - 0) with 9. cbn [listLoop].
    change (inb tabTerm 0) with true. cbv iota.
    unfold mbind at 1, M_bind. change (lift (sliceFrom tabTerm 0) p3) with (Ok tabTerm p3).
    unfold mbind at 1, M_bind. rewrite Hitem.
    replace (has 54 ListItemContainsBlock) with false by (vm_compute; reflexivity).
    reflexivity. }
  unfold mbind at 1, M_bind. rewrite Hloop.
  (* the list is finished and the tip goes back to the document *)
  assert (Hk9 : exists nl9, heap p9 !! k = Some nl9 /\ Children nl9 = [S k] /\
                            Parent nl9 = Some 0).
  { exists (withChildren (Children nl ++ [S k]) nl).
    rewrite O9, O8, O7, O6, O5 by lia. rewrite Z4. auto. }
  destruct Hk9 as (nl9 & Hk9 & Hc9 & Hp9).
  assert (Hi9 : exists ni9, heap p9 !! S k = Some ni9 /\ Type_ ni9 = Item /\
                            Children ni9 = [S (S k)]).
  { exists (withChildren (Children ni ++ [S (S k)]) ni).
    rewrite O9 by lia. rewrite Z8. auto. }
  destruct Hi9 as (ni9 & Hi9 & Hti9 & Hci9).
  destruct (step_finalizeList k p9 nl9 (S k) ni9 (S (S k)) _ Hk9 Hc9 Hi9 Hti9 Hci9 K9
              eq_refl ltac:(lia) ltac:(lia))
    as (p10 & E10 & C10 & T10 & L10 & O10).
  unfold mbind at 1, M_bind. rewrite (deref_direct _ _ _ Hk9).
  unfold mbind at 1, M_bind. rewrite E10.
  unfold mbind, M_bind, modify, mret, M_ret. rewrite Hp9.
  eexists. split; [reflexivity|].
  assert (Hctl : sameCtl p p10)
    by (repeat (eapply sameCtl_trans; [eassumption|]); apply sameCtl_refl).
  split; [|st_simpl; destruct Hctl as (_ & -> & _); reflexivity].
  split; [st_simpl; destruct Hctl as (-> & _); exact Ha|].
  split; [reflexivity|]. st_simpl.
  exists (withChildren (Children nd0 ++ [k]) nd0).
  rewrite O10, O9, O8, O7, O6, O5, O4, O3, O2 by lia. rewrite Z1.
  split; [reflexivity|]. split; [exact Hty0|exact Hop0].
Qed.

Lemma paragraphLoop_S data f prev line i :
  paragraphLoop blockrec data (S f) prev line i
  = let done := (d ← lift (sliceTo data i); renderParagraph d;; mret i) in
    if inb data i then
      current ← lift (sliceFrom data i);
      ext ← gets extensions;
      let n := isEmpty current in
      if 0 <? n then
        if has ext DefinitionLists && (i + 1 <? length data)
           && isc ":" (get data (i + 1))
        then d ← lift (sliceFrom data line); list_ blockrec d ListTypeDefinition
        else d ← lift (sliceTo data i); renderParagraph d;; mret (i + n)
      else
        hr ← lift (isHRule current);
        if (hr : bool) then done
        else if has ext DefinitionLists && negb (dliPrefix current =? 0)
        then d ← lift (sliceFrom data line); list_ blockrec d ListTypeDefinition
        else if has ext NoEmptyLineBeforeBlock
                && (negb (uliPrefix current =? 0)
                    || negb (oliPrefix current =? 0)
                    || negb (quotePrefix current =? 0))
        then done
        else
          paragraphLoop blockrec data f line i
            (match IndexByte current NL with
             | Some nl => i + (nl + 1)
             | None => i + length current
             end)
    else done.
Proof. reflexivity. Qed.

Lemma paragraph_tabTerm_step p :
  atDocument p -> has (extensions p) DefinitionLists = true ->
  exists p', paragraph blockrec tabTerm p = Ok 0 p' /\
             atDocument p' /\ extensions p' = extensions p.
Proof.
  intros Hat Hdl. destruct (list_tabTerm_step p Hat) as (p' & Hlist & Hat' & He).
  exists p'. split; [|auto].
  unfold paragraph. change (length tabTerm) with 9.
  (* the first line *)
  rewrite paragraphLoop_S. cbv zeta.
  replace (inb tabTerm 0) with true by reflexivity. cbv iota.
  rewrite (bind_lift (sliceFrom tabTerm 0) tabTerm) by reflexivity.
  rewrite bind_gets.
  replace (0 <? isEmpty tabTerm) with false by reflexivity. cbv iota.
  rewrite (bind_lift (isHRule tabTerm) false) by reflexivity. cbv iota.
  replace (dliPrefix tabTerm =? 0) with true by reflexivity.
  replace (uliPrefix tabTerm =? 0) with true by reflexivity.
  replace (oliPrefix tabTerm =? 0) with true by reflexivity.
  replace (quotePrefix tabTerm =? 0) with true by reflexivity.
  cbn [negb orb]. rewrite !andb_false_r. cbv iota.
  replace (IndexByte tabTerm NL) with (Some 4) by reflexivity. cbv iota.
  change (0 + (4 + 1)) with 5.
  (* the second line is a definition *)
  rewrite paragraphLoop_S. cbv zeta.
  replace (inb tabTerm 5) with true by reflexivity. cbv iota.
  rewrite (bind_lift (sliceFrom tabTerm 5) (lines [": d"])) by reflexivity.
  rewrite bind_gets.
  replace (0 <? isEmpty (lines [": d"])) with false by reflexivity. cbv iota.
  rewrite (bind_lift (isHRule (lines [": d"])) false) by reflexivity. cbv iota.
  replace (dliPrefix (lines [": d"]) =? 0) with false by reflexivity.
  rewrite Hdl. cbn [negb andb]. cbv iota.
  rewrite (bind_lift (sliceFrom tabTerm 0) tabTerm) by reflexivity.
  exact Hlist.
Qed.

Lemma table_fail_step data i cols hdr p :
  atDocument p -> tableHeaderScan data = Some (false, i, cols, hdr) ->
  exists p', table data p = Ok 0 p' /\ atDocument p' /\
             extensions p' = extensions p.
Proof.
  intros (Ha & Ht & nd0 & H0 & Hty0 & Hop0) Hscan.
  assert (Hl0 : 0 < length (heap p)) by now apply lookup_lt_Some in H0.
  destruct (step_addBlock Table None p 0 nd0 Ha Ht H0 ltac:(now rewrite Hty0) Hop0)
    as (p1 & E1 & C1 & T1 & L1 & K1 & Z1 & _).
  set (k := length (heap p)) in *.
  eexists. split.
  - unfold table, mbind, M_bind. rewrite E1.
    rewrite (tableHeader_fail _ _ _ _ _ Hscan). cbn [Nat.eqb].
    rewrite (deref_direct _ _ _ K1). unfold modify.
    cbn [Parent withContent withParent].
    rewrite (Unlink_linked k (setTip (Some 0) p1) _ 0 _ K1 eq_refl Z1 ltac:(lia)).
    reflexivity.
  - unfold atDocument. st_simpl. destruct C1 as (Ha1 & He1 & _).
    split; [|exact He1]. split; [congruence|]. split; [reflexivity|].
    eexists. rewrite list_lookup_insert_ne by lia.
    rewrite list_lookup_insert_eq by lia.
    split; [reflexivity|]. split; [exact Hty0|exact Hop0].
Qed.

Lemma blockIter_tabTerm_step p :
  atDocument p -> has (extensions p) DefinitionLists = true ->
  exists p', blockIter blockrec tabTerm p = Ok tabTerm p' /\
             atDocument p' /\ extensions p' = extensions p.
Proof.
  intros Hat Hdl.
  assert (Htab : exists p1,
    (if has (extensions p) Tables then table tabTerm else mret 0) p = Ok 0 p1 /\
    atDocument p1 /\ extensions p1 = extensions p).
  { destruct (has (extensions p) Tables).
    - apply (table_fail_step tabTerm 4 [] []); [exact Hat|vm_compute; reflexivity].
    - exists p. auto. }
  destruct Htab as (p1 & Htab & Hat1 & He1).
  destruct (paragraph_tabTerm_step p1 Hat1 ltac:(now rewrite He1))
    as (p2 & Hpar & Hat2 & He2).
  exists p2. split; [|split; [exact Hat2|congruence]].
  unfold blockIter.
  replace (0 <? isEmpty tabTerm) with false by reflexivity. cbv iota.
  rewrite (bind_lift (isHRule tabTerm) false) by reflexivity. cbv iota.
  replace (0 <? quotePrefix tabTerm) with false by reflexivity. cbv iota.
  rewrite bind_gets. rewrite (bind_eq _ _ _ _ _ Htab).
  change (0 <? 0) with false.
  replace (0 <? uliPrefix tabTerm) with false by reflexivity.
  replace (0 <? oliPrefix tabTerm) with false by reflexivity.
  replace (0 <? dliPrefix tabTerm) with false by reflexivity. cbv iota.
  rewrite bind_gets. rewrite andb_false_r. cbv iota.
  rewrite (bind_eq _ _ _ _ _ Hpar). reflexivity.
Qed.

(** The loop of [block] runs out of fuel on this input, whatever the fuel. *)
Lemma blockLoop_tabTerm_diverges fuel : forall p,
  atDocument p -> has (extensions p) DefinitionLists = true ->
  blockLoop blockrec fuel tabTerm p = Err OutOfFuel.
Proof.
  induction fuel as [|f IH]; intros p Hat Hdl; [reflexivity|].
  change (blockLoop blockrec (S f) tabTerm p)
    with ((blockIter blockrec tabTerm ≫= blockLoop blockrec f) p).
  destruct (blockIter_tabTerm_step p Hat Hdl) as (p' & Hstep & Hat' & He).
  unfold mbind, M_bind. rewrite Hstep. apply IH; [exact Hat'|now rewrite He].
Qed.

End Diverges.

(** A line quoted [n] times. *)
Definition deepQuote (n : nat) (line : string) : bytes :=
  (concat (replicate n (str "> ")) ++ lines [line])%list.

(** Below [n]: a chain of [S depth] block quotes, each the only child of the
    one before, the last one empty. *)
Fixpoint quoteChain (h : list Node) (n depth : nat) : Prop :=
  exists nd, h !! n = Some nd /\ Type_ nd = BlockQuote /\
    match depth with
    | 0 => Children nd = []
    | S d => exists c, Children nd = [c] /\ quoteChain h c d
    end.

(** C2.  The depth guard is as the specification says: at a nesting depth
    of [maxNesting] or more, [block] returns at once and leaves the state as
    it is, whatever the input; and the line [a] quoted 20 times parses to
    exactly 16 nested block quotes, the innermost empty.  But the parse does
    not terminate for every input.  With the DefinitionLists extension, on
    the input tab, [* a], newline, [: d], newline, one turn of the loop of
    [block] takes the paragraph branch, which hands the whole buffer to
    [list]; [listItem] returns 0 for it, so [paragraph] returns 0 and the
    loop starts again on the same buffer, with one more List, Item and
    Paragraph in the tree: for every amount of fuel [Parse] runs out of
    it. *)
Theorem block_depth_guard_and_divergence
  (inlineEngine : Z -> bytes -> list nat) (e : Z) (k : nat) :
  (forall fuel data p,
     maxNesting p <= nesting p -> block fuel data p = Ok tt p) /\
  maxNesting (New e) = 16 /\
  (exists p',
     Parse inlineEngine (40 + k) (deepQuote 20 "a") (New e) = Ok (Some 0) p' /\
     exists d, heap p' !! 0 = Some d /\ Children d = [1] /\
               quoteChain (heap p') 1 15) /\
  (has e DefinitionLists = true ->
   forall fuel, Parse inlineEngine fuel tabTerm (New e) = Err OutOfFuel).
Proof.
  split; [|split; [reflexivity|split]].
  - intros fuel data p H.
    assert (E : (maxNesting p <=? nesting p)%nat = true) by now apply Nat.leb_le.
    destruct fuel; cbn [block]; unfold mbind, M_bind, gets; now rewrite E.
  - run_example inlineEngine k. eexists. split; [block_node Hg|].
    split; [reflexivity|].
    do 15 (eexists; split; [block_node Hg|]; split; [reflexivity|];
           eexists; split; [reflexivity|]).
    eexists. split; [block_node Hg|]. split; reflexivity.
  - intros Hdl fuel.
    assert (Hb : block fuel tabTerm (New e) = Err OutOfFuel).
    { destruct fuel as [|f]; [reflexivity|]. cbn [block].
      rewrite !bind_gets. cbn [New nesting maxNesting Nat.leb].
      unfold mbind at 1, M_bind, modify.
      unfold mbind at 1, M_bind.
      rewrite (blockLoop_tabTerm_diverges (block f) f); [reflexivity| |exact Hdl].
      split; [reflexivity|]. split; [reflexivity|].
      eexists. split; [reflexivity|]. split; reflexivity. }
    unfold Parse, blockPhase, mbind, M_bind. now rewrite Hb.
Qed.

(** C10: on a buffer that is empty or ends with a newline, [block] never
    indexes a byte out of range, for every processor state and every amount
    of fuel: it returns, or stops for another reason than an index out of
    range.  In particular, on such a buffer that is not empty, the unguarded
    loop of [isHRule] over at most 3 leading spaces stops at an index inside
    the buffer and [isHRule] returns; the text that [quote] collects for the
    recursive call ends with a newline (or is empty); and so do the text
    that [listItem] collects and its two parts before and after the first
    nested item. *)
Theorem block_in_bounds (fuel : nat) (data : bytes) (p : Markdown) :
  ntl data ->
  block fuel data p <> Err OutOfRange /\
  (data <> [] ->
   exists i b, skip3 data 3 0 = Some i /\ i < length data /\
               isHRule data = Some b) /\
  (exists raw end_,
     quoteLoop data (length data) 0 0 [] = Some (raw, end_) /\
     ntl raw /\ end_ <= length data) /\
  (data <> [] -> forall flags,
     listItemScan data flags = Some None \/
     exists bulletChar line raw sublist flags',
       listItemScan data flags
       = Some (Some (bulletChar, line, raw, sublist, flags')) /\
       line <= length data /\ sublist <= length raw /\
       ntl raw /\ ntl (take sublist raw) /\ ntl (drop sublist raw)).
Proof.
  intros Hn. split; [|split; [|split]].
  - pose proof (ib_block fuel data Hn p) as H.
    destruct (block fuel data p) as [a p'|e]; [discriminate|].
    intros [= ->]. now apply H.
  - intros Hne.
    assert (Hl : 0 < length data) by (destruct data; [congruence|simpl; lia]).
    destruct (skip3_Some data 3 0 Hl (ntl_nonspace data Hn Hne)) as (i & Hi & Hlt & _).
    destruct (isHRule_Some data Hn Hne) as [b Hb].
    exists i, b. split; [exact Hi|]. split; [lia|exact Hb].
  - apply (quoteLoop_Some data Hn); [lia|lia|apply ntl_nil].
  - intros Hne flags.
    destruct (listItemScan_Some data flags Hn Hne) as (r & Hr & Hpost).
    destruct r as [[[[[bulletChar line] raw] sublist] flags']|]; [right|now left].
    destruct Hpost as (Hline & Hraw & Hsub & Htake).
    exists bulletChar, line, raw, sublist, flags'.
    split; [exact Hr|]. split; [exact Hline|]. split; [exact Hsub|].
    split; [exact Hraw|]. split; [exact Htake|]. now apply ntl_drop.
Qed.

Lemma block_in_bounds_witness :
  ntl (lines ["> * a"; ">   b"; ""; "c|d"; "--|--"]) /\
  block 30 (lines ["> * a"; ">   b"; ""; "c|d"; "--|--"])
    (New MfnStandardExtensions) <> Err OutOfRange.
Proof.
  assert (H : ntl (lines ["> * a"; ">   b"; ""; "c|d"; "--|--"]))
    by (right; reflexivity).
  split; [exact H|].
  exact (proj1 (block_in_bounds 30 _ (New MfnStandardExtensions) H)).
Defined.
